(** * A shallow embedding of [Shell.c]

    The model follows the source file top to bottom: the C library
    string primitives it relies on ([isspace], [strsep]), then
    [trim_whitespace], [parse_command], [redirect_io], [execute_commands]
    and the read-execute loop of [main].  After the model come the
    vocabulary of the statements, the lines of the specification's test
    list run through the model, the properties of the functions, and the
    claims of the specification, C1 to C10.

    Conventions.
    - A C string is modelled by its contents, a [string] without the
      terminating NUL; a [char *] that may be NULL is an [option string].
    - [int] values that are return codes, descriptors or process ids are
      in [Z]; loop counters, which never leave [0 .. MAX_ARGS], are in
      [nat].
    - The array [char *args[MAX_ARGS]] is seen through its NULL-terminated
      prefix, a [list string].
    - [Command commands[MAX_PIPE]] is a [list Command] updated by index. *)

From Stdlib Require Import Strings.String Strings.Ascii Lists.List.
From Stdlib Require Import ZArith Arith Bool Lia Numbers.DecimalString.
From Equations Require Import Equations.
Import ListNotations.

Local Open Scope string_scope.
Local Open Scope list_scope.

(** ** Constants *)

Definition MAX_ARGS : nat := 128.
Definition MAX_PIPE : nat := 16.

(** ** C library primitives *)

Module Libc.

(** [isspace] in the "C" locale: space, and the control characters
    [\t \n \v \f \r]. *)
Definition isspace (c : ascii) : bool :=
  (c =? " ")%char || (c =? "009")%char || (c =? "010")%char ||
  (c =? "011")%char || (c =? "012")%char || (c =? "013")%char.

(** [strchr(delim, c) != NULL] for a character [c] of the scanned string. *)
Fixpoint is_delim (delim : string) (c : ascii) : bool :=
  match delim with
  | EmptyString => false
  | String d delim' => (c =? d)%char || is_delim delim' c
  end.

(** The scan of [strsep] over a non-NULL [*stringp]: the token that ends at
    the first delimiter (overwritten by NUL) and the new value of
    [*stringp], NULL when no delimiter was found. *)
Fixpoint strsep_scan (delim : string) (s : string) : string * option string :=
  match s with
  | EmptyString => (EmptyString, None)
  | String c s' =>
      if is_delim delim c then (EmptyString, Some s')
      else let (tok, rest) := strsep_scan delim s' in (String c tok, rest)
  end.

(** [strsep(&stringp, delim)]: the returned token and the updated
    [stringp]. *)
Definition strsep (stringp : option string) (delim : string)
  : option string * option string :=
  match stringp with
  | None => (None, None)
  | Some s => let (tok, rest) := strsep_scan delim s in (Some tok, rest)
  end.

(** [printf("%d", n)] for a non-negative [int]. *)
Definition fmt_nat (n : nat) : string := NilZero.string_of_uint (Nat.to_uint n).

(** [printf("%d", z)]. *)
Definition fmt_int (z : Z) : string := NilZero.string_of_int (Z.to_int z).

Definition newline : string := String "010"%char EmptyString.

End Libc.

Import Libc.

(** Size of what a [char *] cursor still has to scan: the measure of the
    [strsep] loops. *)
Definition ptr_size (p : option string) : nat :=
  match p with
  | None => 0
  | Some s => S (String.length s)
  end.

(** ** The [Command] structure *)

Record Command : Type := mkCommand {
  args : list string;            (* NULL-terminated prefix of [args] *)
  input_file : option string;    (* NULL if none *)
  output_file : option string;   (* NULL if none *)
  background : bool
}.

(** ** [trim_whitespace] *)

(** Lines 46-48: skip leading whitespace. *)
Fixpoint skip_leading (str : string) : string :=
  match str with
  | EmptyString => EmptyString
  | String c str' => if isspace c then skip_leading str' else str
  end.

(** Lines 54-58, on the characters after [str[0]]: [end] walks back from
    the last character and replaces whitespace by NUL; it stops at the
    first non-space character or when it reaches [str]. *)
Fixpoint cut_trailing (s : string) : string :=
  match s with
  | EmptyString => EmptyString
  | String c s' =>
      match cut_trailing s' with
      | EmptyString => if isspace c then EmptyString else String c EmptyString
      | t => String c t
      end
  end.

(** [trim_whitespace(str)] for a non-NULL [str] (both call sites pass a
    non-NULL pointer: the [getline] buffer and a [strsep] token). *)
Definition trim_whitespace (str : string) : string :=
  match skip_leading str with
  | EmptyString => EmptyString
  | String c s' => String c (cut_trailing s')
  end.

(** ** [parse_command] *)

(** The diagnostics [parse_command] writes to [stderr]. *)
Inductive syntax_error : Type :=
| ErrNearPipe                      (* line 89 *)
| ErrTooManySegments               (* line 93 *)
| ErrMissingInPipeline             (* line 106 *)
| ErrMissingCommand                (* lines 108, 200 *)
| ErrNearInput                     (* line 139 *)
| ErrInputTwice                    (* line 143 *)
| ErrNearOutput                    (* line 156 *)
| ErrOutputTwice                   (* line 160 *)
| ErrAmpNotLast                    (* line 169 *)
| ErrNearAmp                       (* line 183 *)
| ErrTooManyArgs                   (* line 193 *)
| ErrInputNotAllowed (k : nat)     (* line 209, k = i + 1 *)
| ErrOutputNotAllowed (k : nat).   (* line 213, k = i + 1 *)

Definition message (e : syntax_error) : string :=
  match e with
  | ErrNearPipe => "shell: syntax error near unexpected token '|'" ++ newline
  | ErrTooManySegments =>
      "shell: too many pipeline segments (max " ++ fmt_nat MAX_PIPE ++ ")" ++ newline
  | ErrMissingInPipeline => "missing command in pipeline" ++ newline
  | ErrMissingCommand => "missing command" ++ newline
  | ErrNearInput => "syntax error near unexpected token '<'" ++ newline
  | ErrInputTwice => "cannot redirect input more than once" ++ newline
  | ErrNearOutput => "syntax error near unexpected token '>'" ++ newline
  | ErrOutputTwice => "cannot redirect output more than once" ++ newline
  | ErrAmpNotLast => "'&' can only appear at end of command" ++ newline
  | ErrNearAmp => "syntax error near unexpected token '&'" ++ newline
  | ErrTooManyArgs =>
      "too many arguments (max " ++ fmt_nat (MAX_ARGS - 1) ++ ")" ++ newline
  | ErrInputNotAllowed k =>
      "input redirection not allowed for command " ++ fmt_nat k ++ " in pipeline" ++ newline
  | ErrOutputNotAllowed k =>
      "output redirection not allowed for command " ++ fmt_nat k ++ " in pipeline" ++ newline
  end.

Definition pipe_delim : string := "|".
Definition blank_delim : string := String " " (String "009" EmptyString).

(** A value together with the equation that names it, so that the
    termination proofs of the [strsep] loops can use what was scanned. *)
Definition inspect {A : Type} (a : A) : {b : A | a = b} := exist _ a eq_refl.

(** *** Lines 86-97: splitting the line into pipeline segments *)

(** [strsep] moves the cursor forward: the loops over it terminate. *)
Lemma strsep_scan_size delim s tok rest :
  strsep_scan delim s = (tok, rest) -> ptr_size rest < ptr_size (Some s).
Proof.
  revert tok rest. induction s as [|c s IH]; simpl; intros tok rest H.
  - inversion H; subst; simpl; lia.
  - destruct (is_delim delim c).
    + inversion H; subst; simpl; lia.
    + destruct (strsep_scan delim s) as [t r] eqn:E.
      inversion H; subst. specialize (IH _ _ eq_refl). simpl in *. lia.
Qed.

(** The loop of line 86, entered with cursor [line_ptr], the segments
    found so far and their number.  [strsep] returns NULL, and the loop
    ends, exactly when the cursor is NULL; otherwise it scans from the
    cursor.  [segments[segment_count++] = segment] appends, the list
    holding the first [segment_count] entries of the array.  The result
    is the diagnostic of lines 89 and 93, or the segments and their
    number. *)
Equations? split_segments (line_ptr : option string) (segments : list string)
  (segment_count : nat) : syntax_error + (list string * nat)
  by wf (ptr_size line_ptr) lt :=
split_segments None segments segment_count := inr (segments, segment_count);
split_segments (Some s) segments segment_count
  with inspect (strsep_scan pipe_delim s) := {
  | exist _ (segment, line_ptr') _ =>
      if (segment =? "")%string then inl ErrNearPipe
      else if (MAX_PIPE <=? segment_count)%nat then inl ErrTooManySegments
      else split_segments line_ptr' (segments ++ [segment]) (S segment_count) }.
Proof. eapply strsep_scan_size; eauto. Qed.

(** *** Lines 121-196: tokenizing one segment *)

(** The locals of one iteration of the segment loop: the command under
    construction ([cmd] points into [commands]) and the three counters. *)
Record tok_state : Type := mkTok {
  cmd : Command;
  arg_index : nat;
  input_count : nat;
  output_count : nat
}.

Definition set_input (st : tok_state) (f : string) : tok_state :=
  {| cmd := {| args := args (cmd st); input_file := Some f;
               output_file := output_file (cmd st);
               background := background (cmd st) |};
     arg_index := arg_index st;
     input_count := S (input_count st);
     output_count := output_count st |}.

Definition set_output (st : tok_state) (f : string) : tok_state :=
  {| cmd := {| args := args (cmd st); input_file := input_file (cmd st);
               output_file := Some f;
               background := background (cmd st) |};
     arg_index := arg_index st;
     input_count := input_count st;
     output_count := S (output_count st) |}.

Definition set_background (st : tok_state) : tok_state :=
  {| cmd := {| args := args (cmd st); input_file := input_file (cmd st);
               output_file := output_file (cmd st);
               background := true |};
     arg_index := arg_index st;
     input_count := input_count st;
     output_count := output_count st |}.

(** [cmd->args[arg_index++] = token]; every slot from [arg_index] on is
    still NULL, so the NULL-terminated prefix becomes the first
    [arg_index] entries followed by [token]. *)
Definition push_arg (st : tok_state) (token : string) : tok_state :=
  {| cmd := {| args := firstn (arg_index st) (args (cmd st)) ++ [token];
               input_file := input_file (cmd st);
               output_file := output_file (cmd st);
               background := background (cmd st) |};
     arg_index := S (arg_index st);
     input_count := input_count st;
     output_count := output_count st |}.

(** Lines 134-137 and 151-154: [token = strsep(...)] followed by the loop
    that skips empty tokens.  Result: [token] and [token_ptr]. *)
Equations? next_operand (token_ptr : option string) : option string * option string
  by wf (ptr_size token_ptr) lt :=
next_operand None := (None, None);
next_operand (Some s) with inspect (strsep_scan blank_delim s) := {
  | exist _ (token, token_ptr') _ =>
      if (token =? "")%string then next_operand token_ptr'
      else (Some token, token_ptr') }.
Proof. eapply strsep_scan_size; eauto. Qed.

(** Lines 173-181: does anything but whitespace follow the ampersand? *)
Fixpoint only_spaces_from (remain : string) : bool :=
  match remain with
  | EmptyString => true
  | String c remain' => if isspace c then only_spaces_from remain' else false
  end.

Definition only_spaces (remain : option string) : bool :=
  match remain with
  | None => true
  | Some r => only_spaces_from r
  end.

(** How one iteration of the [while] loop of line 127 ends. *)
Inductive step_result : Type :=
| Next (st : tok_state) (token_ptr : option string)   (* [continue] / fall through *)
| Break (st : tok_state)                              (* line 187 *)
| Fail (e : syntax_error) (st : tok_state).           (* [return -1] *)

(** One iteration of the loop, entered with [token_ptr = Some s]. *)
Definition token_step (i segment_count : nat) (st : tok_state) (s : string)
  : step_result :=
  let (token, token_ptr) := strsep_scan blank_delim s in
  if (token =? "")%string then Next st token_ptr
  else if (token =? "<")%string then
    match next_operand token_ptr with
    | (None, _) => Fail ErrNearInput st
    | (Some file, token_ptr') =>
        if (0 <? input_count st)%nat then Fail ErrInputTwice st
        else Next (set_input st file) token_ptr'
    end
  else if (token =? ">")%string then
    match next_operand token_ptr with
    | (None, _) => Fail ErrNearOutput st
    | (Some file, token_ptr') =>
        if (0 <? output_count st)%nat then Fail ErrOutputTwice st
        else Next (set_output st file) token_ptr'
    end
  else if (token =? "&")%string then
    if negb (i =? segment_count - 1)%nat then Fail ErrAmpNotLast st
    else if negb (only_spaces token_ptr) then Fail ErrNearAmp st
    else Break (set_background st)
  else if (arg_index st <? MAX_ARGS - 1)%nat then Next (push_arg st token) token_ptr
  else Fail ErrTooManyArgs st.

Lemma next_operand_size p tok rest :
  next_operand p = (tok, rest) -> ptr_size rest <= ptr_size p.
Proof.
  funelim (next_operand p); intros Hr.
  - inversion Hr; subst; simpl; lia.
  - pose proof (strsep_scan_size _ _ _ _ e) as Hs.
    destruct (token =? "")%string.
    + specialize (H _ _ Hr). lia.
    + inversion Hr; subst. lia.
Qed.

Lemma token_step_size i n st s st' p' :
  token_step i n st s = Next st' p' -> ptr_size p' < ptr_size (Some s).
Proof.
  unfold token_step.
  destruct (strsep_scan blank_delim s) as [token token_ptr] eqn:E.
  pose proof (strsep_scan_size _ _ _ _ E) as Hs.
  destruct (token =? "")%string; [intros H; inversion H; subst; exact Hs|].
  destruct (token =? "<")%string.
  { destruct (next_operand token_ptr) as [[f|] r] eqn:En; [|discriminate].
    pose proof (next_operand_size _ _ _ En).
    destruct (0 <? input_count st)%nat; [discriminate|].
    intros H'; inversion H'; subst; lia. }
  destruct (token =? ">")%string.
  { destruct (next_operand token_ptr) as [[f|] r] eqn:En; [|discriminate].
    pose proof (next_operand_size _ _ _ En).
    destruct (0 <? output_count st)%nat; [discriminate|].
    intros H'; inversion H'; subst; lia. }
  destruct (token =? "&")%string.
  { destruct (negb _); [discriminate|]. destruct (negb _); discriminate. }
  destruct (arg_index st <? MAX_ARGS - 1)%nat; [|discriminate].
  intros H'; inversion H'; subst; exact Hs.
Qed.

(** The [while] loop of line 127, entered with cursor [token_ptr]
    ([strsep] returns NULL exactly when the cursor is NULL): the error, if
    any, and the locals when the loop is left. *)
Equations? tokenize (i segment_count : nat) (st : tok_state)
  (token_ptr : option string) : option syntax_error * tok_state
  by wf (ptr_size token_ptr) lt :=
tokenize i segment_count st None := (None, st);
tokenize i segment_count st (Some s)
  with inspect (token_step i segment_count st s) := {
  | exist _ (Next st' token_ptr') _ => tokenize i segment_count st' token_ptr';
  | exist _ (Break st') _ => (None, st');
  | exist _ (Fail e st') _ => (Some e, st') }.
Proof. eapply token_step_size; eauto. Qed.

(** *** Lines 100-203: the loop over the segments *)

(** [commands[i] = c]; the array has [MAX_PIPE] entries and [i] stays
    below [segment_count <= MAX_PIPE], so the write is always in range
    (a write past the end of the list is dropped here). *)
Fixpoint store (i : nat) (c : Command) (commands : list Command) : list Command :=
  match commands, i with
  | [], _ => []
  | _ :: rest, 0 => c :: rest
  | c0 :: rest, S j => c0 :: store j c rest
  end.

(** Lines 114-119. *)
Definition empty_command : Command :=
  {| args := []; input_file := None; output_file := None; background := false |}.

Definition init_tok : tok_state :=
  {| cmd := empty_command; arg_index := 0; input_count := 0; output_count := 0 |}.

(** Line 197: [cmd->args[arg_index] = NULL]. *)
Definition terminate_args (st : tok_state) : Command :=
  {| args := firstn (arg_index st) (args (cmd st));
     input_file := input_file (cmd st);
     output_file := output_file (cmd st);
     background := background (cmd st) |}.

(** The body of the loop of line 100 for segment [i], up to line 202: the
    error, if any, and what [commands[i]] holds afterwards ([old] is what it
    held before; it is left alone when the segment is blank). *)
Definition parse_segment (i segment_count : nat) (segment : string) (old : Command)
  : option syntax_error * Command :=
  let segment := trim_whitespace segment in
  if (segment =? "")%string then
    (Some (if (1 <? segment_count)%nat then ErrMissingInPipeline else ErrMissingCommand),
     old)
  else
    match tokenize i segment_count init_tok (Some segment) with
    | (Some e, st) => (Some e, cmd st)
    | (None, st) =>
        if (arg_index st =? 0)%nat then (Some ErrMissingCommand, terminate_args st)
        else (None, terminate_args st)
    end.

(** The loop of line 100, from index [i]; [segments] is
    [segments[i .. segment_count - 1]]. *)
Fixpoint parse_segments (i segment_count : nat) (segments : list string)
  (commands : list Command) : option syntax_error * list Command :=
  match segments with
  | [] => (None, commands)
  | segment :: segments' =>
      match parse_segment i segment_count segment (nth i commands empty_command) with
      | (Some e, c) => (Some e, store i c commands)
      | (None, c) => parse_segments (S i) segment_count segments' (store i c commands)
      end
  end.

(** *** Lines 206-217: redirection rules of a pipeline *)

Definition is_set (p : option string) : bool :=
  match p with
  | Some _ => true
  | None => false
  end.

(** The loop of line 207 from index [i], with [todo] iterations left. *)
Fixpoint check_redirections (i todo segment_count : nat) (commands : list Command)
  : option syntax_error :=
  match todo with
  | 0 => None
  | S todo' =>
      let c := nth i commands empty_command in
      if negb (i =? 0)%nat && is_set (input_file c)
      then Some (ErrInputNotAllowed (i + 1))
      else if negb (i =? segment_count - 1)%nat && is_set (output_file c)
      then Some (ErrOutputNotAllowed (i + 1))
      else check_redirections (S i) todo' segment_count commands
  end.

(** *** The function *)

(** What a call leaves behind: the return value, the [commands] array, the
    [int] behind [num_commands], and what was written to [stderr]. *)
Record parse_result : Type := mkParse {
  ret : Z;
  commands_out : list Command;
  num_commands_out : Z;
  stderr_out : list string
}.

Definition syntax_failure (e : syntax_error) (commands : list Command)
  (num_commands : Z) : parse_result :=
  {| ret := -1; commands_out := commands; num_commands_out := num_commands;
     stderr_out := [message e] |}.

Definition parse_command (input : option string) (commands : list Command)
  (num_commands : Z) : parse_result :=
  match input with
  | None =>
      {| ret := -1; commands_out := commands; num_commands_out := num_commands;
         stderr_out := [] |}
  | Some line =>
      match split_segments (Some line) [] 0 with
      | inl e => syntax_failure e commands num_commands
      | inr (segments, segment_count) =>
          match parse_segments 0 segment_count segments commands with
          | (Some e, commands') => syntax_failure e commands' num_commands
          | (None, commands') =>
              match (if (1 <? segment_count)%nat
                     then check_redirections 0 segment_count segment_count commands'
                     else None) with
              | Some e => syntax_failure e commands' num_commands
              | None =>
                  {| ret := 0; commands_out := commands';
                     num_commands_out := Z.of_nat segment_count;
                     stderr_out := [] |}
              end
          end
      end
  end.

(** The array [main] passes: [MAX_PIPE] entries of unspecified contents. *)
Definition blank_commands : list Command := repeat empty_command MAX_PIPE.

(** ** The process and its environment *)

Inductive open_flags : Type :=
| O_RDONLY
| O_WRONLY_CREAT_TRUNC.   (* [O_WRONLY | O_CREAT | O_TRUNC], mode 0644 *)

(** What the shell process asks of the kernel and of the C library, with
    the answer it got.  The trace of a process lists them, latest first. *)
Inductive event : Type :=
| Stdout (text : string)
| Stderr (text : string)
| Chdir (path : string) (result : Z)
| Pipe (result : Z) (pipefd : Z * Z)
| Fork (result : Z)
| Dup2 (oldfd newfd result : Z)
| Close (fd : Z)
| Open (path : string) (flags : open_flags) (result : Z)
| Execvp (file : option string) (argv : list string)
| Exit (status : Z)
| Waitpid (pid : Z) (nohang : bool).

(** The state of the running process that the program can observe or
    change. *)
Record process : Type := mkProcess {
  cwd : string;
  errno : Z;
  trace : list event
}.

(** The answers of the environment.  Those of the kernel may depend on
    everything the process did so far. *)
Record kernel : Type := mkKernel {
  home : option string;                          (* [getenv("HOME")] *)
  isatty_stdin : bool;                           (* [isatty(STDIN_FILENO)] *)
  chdir_reply : string -> string -> Z + string;  (* from [cwd] to a path: [errno], or the new directory *)
  pipe_reply : list event -> Z * (Z * Z);        (* return value and [pipefd] *)
  fork_reply : list event -> Z;
  open_reply : list event -> string -> open_flags -> Z;
  dup2_reply : list event -> Z -> Z -> Z;
  execvp_replaces : list event -> option string -> list string -> bool;
  errno_reply : list event -> Z;                 (* [errno] left by a failing call *)
  finished_children : list event -> nat;         (* children [waitpid(-1, .., WNOHANG)] can reap *)
  strerror : Z -> string;
  below_pids : Z                                 (* the [int] found at [pids[-1]] *)
}.

(** How a piece of code ends in this process: it hands back a value, or the
    process is gone ([_exit], or [execvp] replaced its image). *)
Inductive outcome (A : Type) : Type :=
| Returns (a : A)
| Gone.
Arguments Returns {A} a.
Arguments Gone {A}.

Definition M (A : Type) : Type := process -> outcome A * process.

Definition pure {A : Type} (a : A) : M A := fun p => (Returns a, p).

Definition bind {A B : Type} (m : M A) (k : A -> M B) : M B :=
  fun p =>
    match m p with
    | (Returns a, p') => k a p'
    | (Gone, p') => (Gone, p')
    end.

Declare Scope shell_scope.
Delimit Scope shell_scope with shell.
Notation "x <- m ;; k" := (bind m (fun x => k))
  (at level 61, m at next level, right associativity) : shell_scope.
Notation "m ;;; k" := (bind m (fun _ => k))
  (at level 61, right associativity) : shell_scope.
Local Open Scope shell_scope.

Definition emit (e : event) : M unit :=
  fun p => (Returns tt, {| cwd := cwd p; errno := errno p; trace := e :: trace p |}).

Definition set_errno (e : Z) : M unit :=
  fun p => (Returns tt, {| cwd := cwd p; errno := e; trace := trace p |}).

Definition get_errno : M Z := fun p => (Returns (errno p), p).

Definition when (b : bool) (m : M unit) : M unit := if b then m else pure tt.

Section Shell.

Variable K : kernel.

(** *** System calls *)

(** A failing call leaves its reason in [errno]. *)
Definition failed : M unit := fun p => set_errno (errno_reply K (trace p)) p.

Definition sys_pipe : M (Z * (Z * Z)) :=
  fun p =>
    let r := pipe_reply K (trace p) in
    (when (fst r <? 0)%Z failed ;;; emit (Pipe (fst r) (snd r)) ;;; pure r) p.

Definition sys_fork : M Z :=
  fun p =>
    let r := fork_reply K (trace p) in
    (when (r <? 0)%Z failed ;;; emit (Fork r) ;;; pure r) p.

Definition sys_open (path : string) (flags : open_flags) : M Z :=
  fun p =>
    let r := open_reply K (trace p) path flags in
    (when (r <? 0)%Z failed ;;; emit (Open path flags r) ;;; pure r) p.

Definition sys_dup2 (oldfd newfd : Z) : M Z :=
  fun p =>
    let r := dup2_reply K (trace p) oldfd newfd in
    (when (r <? 0)%Z failed ;;; emit (Dup2 oldfd newfd r) ;;; pure r) p.

Definition sys_close (fd : Z) : M unit := emit (Close fd).

Definition sys_chdir (path : string) : M Z :=
  fun p =>
    match chdir_reply K (cwd p) path with
    | inl e => (Returns (-1)%Z, {| cwd := cwd p; errno := e; trace := Chdir path (-1) :: trace p |})
    | inr dir => (Returns 0%Z, {| cwd := dir; errno := errno p; trace := Chdir path 0 :: trace p |})
    end.

(** [execvp] comes back only when it failed. *)
Definition sys_execvp (file : option string) (argv : list string) : M unit :=
  fun p =>
    if execvp_replaces K (trace p) file argv
    then (Gone, {| cwd := cwd p; errno := errno p; trace := Execvp file argv :: trace p |})
    else (failed ;;; emit (Execvp file argv)) p.

Definition sys_exit {A : Type} (status : Z) : M A :=
  fun p => (Gone, {| cwd := cwd p; errno := errno p; trace := Exit status :: trace p |}).

Definition print_out (text : string) : M unit := emit (Stdout text).
Definition print_err (text : string) : M unit := emit (Stderr text).

(** [perror(prefix)]. *)
Definition perror (prefix : string) : M unit :=
  e <- get_errno ;; print_err (prefix ++ ": " ++ strerror K e ++ newline)%string.

(** ** [redirect_io] *)

(** Lines 229-241 and 242-254: one of the two redirections.  [Some r] when
    the function returns [r] from within. *)
Definition redirect_one (file : option string) (flags : open_flags)
  (target : Z) (open_failed : string -> string) (dup_failed : string)
  : M (option Z) :=
  match file with
  | None => pure None
  | Some path =>
      fd <- sys_open path flags ;;
      if (fd <? 0)%Z then print_err (open_failed path) ;;; pure (Some (-1)%Z)
      else
        r <- sys_dup2 fd target ;;
        if (r <? 0)%Z then
          e <- get_errno ;;
          print_err (dup_failed ++ strerror K e ++ newline)%string ;;;
          sys_close fd ;;; pure (Some (-1)%Z)
        else sys_close fd ;;; pure None
  end.

Definition STDIN_FILENO : Z := 0.
Definition STDOUT_FILENO : Z := 1.

Definition redirect_io (c : Command) : M Z :=
  r <- redirect_one (input_file c) O_RDONLY STDIN_FILENO
         (fun path => (path ++ " : File not found" ++ newline)%string)
         "error duplicating file descriptor for input: " ;;
  match r with
  | Some v => pure v
  | None =>
      r <- redirect_one (output_file c) O_WRONLY_CREAT_TRUNC STDOUT_FILENO
             (fun path => (path ++ ": Cannot create file" ++ newline)%string)
             "error duplicating file descriptor for output: " ;;
      match r with
      | Some v => pure v
      | None => pure 0%Z
      end
  end.

(** ** [execute_commands] *)

Definition void {A : Type} (m : M A) : M unit := m ;;; pure tt.

(** Lines 274-296, built-ins of a single command: [Some v] when the
    function returns [v] from within, [None] when control falls through to
    line 298. *)
Definition builtin (commands : list Command) (num_commands : Z) : M (option Z) :=
  if (num_commands =? 1)%Z then
    let c := nth 0 commands empty_command in
    match args c with
    | [] => pure (Some 1%Z)
    | arg0 :: _ =>
        if (arg0 =? "exit")%string then pure (Some 2%Z)
        else if (arg0 =? "cd")%string then
          let dir :=
            match nth_error (args c) 1 with
            | Some d => d
            | None => match home K with Some h => h | None => "." end
            end in
          r <- sys_chdir dir ;;
          (if negb (r =? 0)%Z then
             e <- get_errno ;;
             print_err ("cd: " ++
                        match nth_error (args c) 1 with Some d => d | None => dir end ++
                        ": " ++ strerror K e ++ newline)%string
           else pure tt) ;;;
          pure (Some 1%Z)
        else pure None
    end
  else pure None.

(** Lines 323-344: the child after [fork]; it never comes back. *)
Definition run_child {A : Type} (c : Command) (piped : bool) (prev_fd : Z)
  (pipefd : Z * Z) : M A :=
  when (negb (prev_fd =? -1)%Z) (void (sys_dup2 prev_fd STDIN_FILENO)) ;;;
  when piped (void (sys_dup2 (snd pipefd) STDOUT_FILENO)) ;;;
  when (negb (prev_fd =? -1)%Z) (sys_close prev_fd) ;;;
  when piped (sys_close (fst pipefd) ;;; sys_close (snd pipefd)) ;;;
  r <- redirect_io c ;;
  if negb (r =? 0)%Z then sys_exit 1
  else
    sys_execvp (hd_error (args c)) (args c) ;;;
    print_err (match hd_error (args c) with Some a => a | None => "(null)" end ++
               ": Command not found" ++ newline)%string ;;;
    sys_exit 127.

(** The locals of the loop of line 303. *)
Record spawn_state : Type := mkSpawn {
  prev_fd : Z;
  launched : nat;
  pids : list Z     (* [pids[0 .. launched - 1]] *)
}.

(** The loop of line 303 from index [i], with [todo] iterations left. *)
Fixpoint spawn (commands : list Command) (num_commands : Z) (todo : nat) (i : Z)
  (st : spawn_state) : M spawn_state :=
  match todo with
  | 0 => pure st
  | S todo' =>
      let piped := (i <? num_commands - 1)%Z in
      pr <- (if piped then sys_pipe else pure (0%Z, (0%Z, 0%Z))) ;;
      if (fst pr <? 0)%Z then perror "shell: pipe" ;;; pure st
      else
        let pipefd := snd pr in
        pid <- sys_fork ;;
        if (pid <? 0)%Z then
          perror "shell: fork" ;;;
          when piped (sys_close (fst pipefd) ;;; sys_close (snd pipefd)) ;;;
          pure st
        else if (pid =? 0)%Z then
          run_child (nth (Z.to_nat i) commands empty_command) piped (prev_fd st) pipefd
        else
          when (negb (prev_fd st =? -1)%Z) (sys_close (prev_fd st)) ;;;
          when piped (sys_close (snd pipefd)) ;;;
          spawn commands num_commands todo' (i + 1)%Z
            {| prev_fd := if piped then fst pipefd else prev_fd st;
               launched := S (launched st);
               pids := pids st ++ [pid] |}
  end.

(** Lines 368-370. *)
Fixpoint wait_all (pids : list Z) : M unit :=
  match pids with
  | [] => pure tt
  | pid :: pids' => emit (Waitpid pid false) ;;; wait_all pids'
  end.

(** [pids[launched - 1]] at line 364; with nothing launched the read is
    below the array. *)
Definition last_pid (st : spawn_state) : Z :=
  match launched st with
  | 0 => below_pids K
  | S j => nth j (pids st) 0%Z
  end.

(** Lines 298-372: the pipeline of external commands. *)
Definition run_pipeline (commands : list Command) (num_commands : Z) : M Z :=
  st <- spawn commands num_commands (Z.to_nat num_commands) 0
          {| prev_fd := -1; launched := 0; pids := [] |} ;;
  when (negb (prev_fd st =? -1)%Z) (sys_close (prev_fd st)) ;;;
  (if background (nth (Z.to_nat (num_commands - 1)) commands empty_command)
   then print_out ("[" ++ fmt_int (last_pid st) ++ "]" ++ newline)%string
   else wait_all (firstn (launched st) (pids st))) ;;;
  pure 1%Z.

Definition execute_commands (commands : list Command) (num_commands : Z) : M Z :=
  if (num_commands <=? 0)%Z then pure 1%Z
  else
    b <- builtin commands num_commands ;;
    match b with
    | Some v => pure v
    | None => run_pipeline commands num_commands
    end.

(** ** [main] *)

(** The locals of [main] that live across iterations. *)
Record shell_vars : Type := mkVars {
  sh_commands : list Command;
  sh_num_commands : Z;
  sh_status : Z
}.

Inductive loop_ctl : Type := LoopContinue | LoopBreak.

(** Lines 406-408: drop the trailing newline, if any. *)
Fixpoint chomp (input_line : string) : string :=
  match input_line with
  | EmptyString => EmptyString
  | String c EmptyString => if (c =? "010")%char then EmptyString else input_line
  | String c rest => String c (chomp rest)
  end.

Fixpoint print_all_err (texts : list string) : M unit :=
  match texts with
  | [] => pure tt
  | t :: texts' => print_err t ;;; print_all_err texts'
  end.

(** Lines 426-428: reap the background children that have finished. *)
Fixpoint reap (finished : nat) : M unit :=
  match finished with
  | 0 => emit (Waitpid (-1) true)
  | S finished' => emit (Waitpid (-1) true) ;;; reap finished'
  end.

(** One iteration of the loop of line 390; [line] is what [getline] read,
    [None] at end of input. *)
Definition main_iteration (line : option string) (v : shell_vars)
  : M (loop_ctl * shell_vars) :=
  when (isatty_stdin K) (print_out "$ ") ;;;
  match line with
  | None =>
      when (isatty_stdin K) (print_out newline) ;;; pure (LoopBreak, v)
  | Some input_line =>
      let trimmed := trim_whitespace (chomp input_line) in
      if (trimmed =? "")%string then pure (LoopContinue, v)
      else
        let r := parse_command (Some trimmed) (sh_commands v) (sh_num_commands v) in
        print_all_err (stderr_out r) ;;;
        if negb (ret r =? 0)%Z then
          pure (LoopContinue,
                {| sh_commands := commands_out r;
                   sh_num_commands := num_commands_out r;
                   sh_status := sh_status v |})
        else
          status <- execute_commands (commands_out r) (num_commands_out r) ;;
          let v' := {| sh_commands := commands_out r;
                       sh_num_commands := num_commands_out r;
                       sh_status := status |} in
          if (status =? 2)%Z then pure (LoopBreak, v')
          else
            (fun p => reap (finished_children K (trace p)) p) ;;;
            pure (LoopContinue, v')
  end.

(** The loop of line 390 over the lines that standard input will deliver,
    and the value [main] returns. *)
Fixpoint main_loop (stdin : list string) (v : shell_vars) : M Z :=
  match stdin with
  | [] => main_iteration None v ;;; pure 0%Z
  | input_line :: stdin' =>
      r <- main_iteration (Some input_line) v ;;
      match fst r with
      | LoopBreak => pure 0%Z
      | LoopContinue => main_loop stdin' (snd r)
      end
  end.

End Shell.

(** ** A concrete environment

    A kernel in which every call succeeds, used to run the model on
    examples: descriptors and process ids are numbered by the length of
    the trace, [/nonexistent] is the one directory that does not exist, and
    the process is the parent after every [fork]. *)
Definition ENOENT : Z := 2.

Definition sample_kernel : kernel :=
  {| home := Some "/home/user";
     isatty_stdin := false;
     chdir_reply := fun _ path =>
       if (path =? "/nonexistent")%string then inl ENOENT else inr path;
     pipe_reply := fun t =>
       (0%Z, (Z.of_nat (3 + 2 * length t), Z.of_nat (4 + 2 * length t)));
     fork_reply := fun t => Z.of_nat (100 + length t);
     open_reply := fun t _ _ => Z.of_nat (3 + 2 * length t);
     dup2_reply := fun _ _ newfd => newfd;
     execvp_replaces := fun _ _ _ => true;
     errno_reply := fun _ => ENOENT;
     finished_children := fun _ => 0;
     strerror := fun e =>
       if (e =? ENOENT)%Z then "No such file or directory" else "Unknown error";
     below_pids := 0 |}.

Definition sample_process : process :=
  {| cwd := "/tmp"; errno := 0; trace := [] |}.

Definition sample_vars : shell_vars :=
  {| sh_commands := blank_commands; sh_num_commands := 7; sh_status := 1 |}.

(** * Vocabulary of the statements *)

(** ** Runs of the tokenizer *)

(** [reaches i n st p st' p']: started with locals [st] and cursor [p], the
    loop of line 127 comes to the top of an iteration with locals [st'] and
    cursor [p'] (every iteration in between ended in [continue] or fell
    through to the end of the body). *)
Inductive reaches (i n : nat)
  : tok_state -> option string -> tok_state -> option string -> Prop :=
| reaches_here st p : reaches i n st p st p
| reaches_next st s st1 p1 st2 p2 :
    token_step i n st s = Next st1 p1 ->
    reaches i n st1 p1 st2 p2 ->
    reaches i n st (Some s) st2 p2.

(** [meets i n segment st token rest]: tokenizing [segment] as the [i]-th of
    [n] segments, the loop takes [token] off the text with locals [st] and
    is about to classify it; [rest] is what [token_ptr] points to then. *)
Definition meets (i n : nat) (segment : string) (st : tok_state)
  (token : string) (rest : option string) : Prop :=
  exists s,
    reaches i n init_tok (Some (trim_whitespace segment)) st (Some s) /\
    strsep_scan blank_delim s = (token, rest).

(** What holds of the locals at the top of every iteration. *)
Record tok_inv (st : tok_state) : Prop := mkInv {
  inv_index : arg_index st = length (args (cmd st));
  inv_room : arg_index st <= MAX_ARGS - 1;
  inv_input : input_count st = 0 <-> input_file (cmd st) = None;
  inv_output : output_count st = 0 <-> output_file (cmd st) = None
}.

(** The cases of [token_step], as the source lists them. *)
Inductive step_case (i n : nat) (st : tok_state) (s : string) : step_result -> Prop :=
| case_empty rest :
    strsep_scan blank_delim s = (EmptyString, rest) ->
    step_case i n st s (Next st rest)
| case_input_missing rest rest' :
    strsep_scan blank_delim s = ("<", rest) ->
    next_operand rest = (None, rest') ->
    step_case i n st s (Fail ErrNearInput st)
| case_input_twice rest file rest' :
    strsep_scan blank_delim s = ("<", rest) ->
    next_operand rest = (Some file, rest') ->
    0 < input_count st ->
    step_case i n st s (Fail ErrInputTwice st)
| case_input rest file rest' :
    strsep_scan blank_delim s = ("<", rest) ->
    next_operand rest = (Some file, rest') ->
    input_count st = 0 ->
    step_case i n st s (Next (set_input st file) rest')
| case_output_missing rest rest' :
    strsep_scan blank_delim s = (">", rest) ->
    next_operand rest = (None, rest') ->
    step_case i n st s (Fail ErrNearOutput st)
| case_output_twice rest file rest' :
    strsep_scan blank_delim s = (">", rest) ->
    next_operand rest = (Some file, rest') ->
    0 < output_count st ->
    step_case i n st s (Fail ErrOutputTwice st)
| case_output rest file rest' :
    strsep_scan blank_delim s = (">", rest) ->
    next_operand rest = (Some file, rest') ->
    output_count st = 0 ->
    step_case i n st s (Next (set_output st file) rest')
| case_amp_not_last rest :
    strsep_scan blank_delim s = ("&", rest) ->
    i <> n - 1 ->
    step_case i n st s (Fail ErrAmpNotLast st)
| case_amp_followed rest :
    strsep_scan blank_delim s = ("&", rest) ->
    i = n - 1 ->
    only_spaces rest = false ->
    step_case i n st s (Fail ErrNearAmp st)
| case_amp rest :
    strsep_scan blank_delim s = ("&", rest) ->
    i = n - 1 ->
    only_spaces rest = true ->
    step_case i n st s (Break (set_background st))
| case_arg token rest :
    strsep_scan blank_delim s = (token, rest) ->
    token <> "" -> token <> "<" -> token <> ">" -> token <> "&" ->
    arg_index st < MAX_ARGS - 1 ->
    step_case i n st s (Next (push_arg st token) rest)
| case_arg_overflow token rest :
    strsep_scan blank_delim s = (token, rest) ->
    token <> "" -> token <> "<" -> token <> ">" -> token <> "&" ->
    MAX_ARGS - 1 <= arg_index st ->
    step_case i n st s (Fail ErrTooManyArgs st).

(** What one iteration that goes on may change. *)
Record extends (st st' : tok_state) : Prop := mkExt {
  ext_args : exists more, args (cmd st') = args (cmd st) ++ more;
  ext_input : forall f, input_file (cmd st) = Some f -> input_file (cmd st') = Some f;
  ext_output : forall f, output_file (cmd st) = Some f -> output_file (cmd st') = Some f;
  ext_input_count : input_count st <= input_count st';
  ext_output_count : output_count st <= output_count st'
}.

(** The locals after pushing the words [ws]. *)
Definition push_args (st : tok_state) (ws : list string) : tok_state :=
  fold_left push_arg ws st.

(** ** Pipelines *)

(** The number of pipe characters of a line; a line of [N] pipe-separated
    segments has [N - 1] of them. *)
Fixpoint count_pipes (line : string) : nat :=
  match line with
  | EmptyString => 0
  | String c line' => (if is_delim pipe_delim c then 1 else 0) + count_pipes line'
  end.

(** The number of segments [strsep] will find from a cursor. *)
Definition count_segments (line_ptr : option string) : nat :=
  match line_ptr with
  | None => 0
  | Some s => S (count_pipes s)
  end.

(** Stage [i] of the pipeline a call produced. *)
Definition stage (r : parse_result) (i : nat) : Command :=
  nth i (commands_out r) empty_command.

(** Stage [j] of [n] obeys the rules of lines 208 and 212. *)
Definition redirection_ok (n j : nat) (c : Command) : Prop :=
  (j <> 0 -> input_file c = None) /\ (j <> n - 1 -> output_file c = None).

(** The pipelines the parser hands out: between one and [MAX_PIPE] stages,
    each with a program name and at most [MAX_ARGS - 1] arguments; in a
    pipeline of several stages only the first reads from a file and only
    the last writes to one; only the last stage may be a background one. *)
Record valid_pipeline (commands : list Command) (n : nat) : Prop := mkValid {
  valid_count : 1 <= n <= MAX_PIPE;
  valid_args : forall i, i < n ->
    args (nth i commands empty_command) <> [] /\
    length (args (nth i commands empty_command)) <= MAX_ARGS - 1;
  valid_redirections : 1 < n -> forall i, i < n ->
    redirection_ok n i (nth i commands empty_command);
  valid_background : forall i, i < n ->
    background (nth i commands empty_command) = true -> i = n - 1
}.

(** ** Tokens, as the specification speaks of them *)

(** The fields of [s] between delimiters, empty ones included: what
    successive calls of [strsep] return. *)
Fixpoint fields (delim : string) (s : string) : list string :=
  match s with
  | EmptyString => [EmptyString]
  | String c s' =>
      if is_delim delim c then EmptyString :: fields delim s'
      else match fields delim s' with
           | f :: fs => String c f :: fs
           | [] => [String c EmptyString]
           end
  end.

(** [*token != '\0']. *)
Definition nonempty (t : string) : bool := negb (t =? "")%string.

(** The standalone, blank-delimited tokens of a segment. *)
Definition standalone_tokens (segment : string) : list string :=
  filter nonempty (fields blank_delim (trim_whitespace segment)).


(** ** Plain words *)

(** A character that is neither whitespace nor the pipe. *)
Definition plain_char (c : ascii) : bool :=
  negb (isspace c) && negb (is_delim pipe_delim c).

(** A string of such characters. *)
Fixpoint plain_chars (w : string) : bool :=
  match w with
  | EmptyString => true
  | String c w' => plain_char c && plain_chars w'
  end.

(** A word that the tokenizer takes as a positional argument wherever it
    stands: non-empty, free of whitespace and pipes, and not one of the
    three operators. *)
Definition plain_word (w : string) : bool :=
  negb (w =? "")%string && plain_chars w &&
  negb (w =? "<")%string && negb (w =? ">")%string && negb (w =? "&")%string.

(** A text without a pipe character. *)
Fixpoint no_pipe (s : string) : bool :=
  match s with
  | EmptyString => true
  | String c s' => negb (is_delim pipe_delim c) && no_pipe s'
  end.

(** ** Traces and computations *)

(** The calls to [fork] in a trace. *)
Fixpoint fork_calls (t : list event) : nat :=
  match t with
  | [] => 0
  | Fork _ :: t' => S (fork_calls t')
  | _ :: t' => fork_calls t'
  end.

(** The files opened in a trace. *)
Fixpoint opened (t : list event) : list string :=
  match t with
  | [] => []
  | Open path _ _ :: t' => path :: opened t'
  | _ :: t' => opened t'
  end.

(** What was written to standard output in a trace, latest first. *)
Fixpoint printed (t : list event) : list string :=
  match t with
  | [] => []
  | Stdout text :: t' => text :: printed t'
  | _ :: t' => printed t'
  end.

(** A computation that leaves the working directory alone. *)
Definition keeps_cwd {A : Type} (m : M A) : Prop :=
  forall p, cwd (snd (m p)) = cwd p.

(** A computation that always hands back a value, one that satisfies [Q]. *)
Definition yields {A : Type} (Q : A -> Prop) (m : M A) : Prop :=
  forall p, exists a, fst (m p) = Returns a /\ Q a.

(** The postcondition that asks nothing. *)
Definition any {A : Type} (a : A) : Prop := True.

(** In the shell itself [fork] never answers [0]. *)
Definition in_parent (K : kernel) : Prop := forall t, fork_reply K t <> 0%Z.

(** What the prompt adds to the trace. *)
Definition prompt (K : kernel) : list event :=
  if isatty_stdin K then [Stdout "$ "] else [].

(** The process once [events], latest first, have been added to its
    trace. *)
Definition after (events : list event) (p : process) : process :=
  {| cwd := cwd p; errno := errno p; trace := events ++ trace p |}.

(** ** Built-ins and pipelines *)

(** The program name of a command, [args[0]]. *)
Definition program (c : Command) : option string := hd_error (args c).

(** The single command whose name is a built-in. *)
Definition is_builtin (commands : list Command) (num_commands : Z) : Prop :=
  num_commands = 1%Z /\
  (program (nth 0 commands empty_command) = Some "exit" \/
   program (nth 0 commands empty_command) = Some "cd").

(** The directory [cd] goes to. *)
Definition cd_target (K : kernel) (c : Command) : string :=
  match nth_error (args c) 1 with
  | Some d => d
  | None => match home K with Some h => h | None => "." end
  end.

(** The command with its redirections and background flag cleared. *)
Definition bare (c : Command) : Command :=
  {| args := args c; input_file := None; output_file := None; background := false |}.

(** ** Sample data *)

(** An array as a previous line may have left it. *)
Definition used_commands : list Command :=
  repeat {| args := ["old"; "junk"]; input_file := Some "in";
            output_file := Some "out"; background := true |} MAX_PIPE.

Definition exit_cd_pipeline : list Command :=
  [ {| args := ["exit"]; input_file := None; output_file := None; background := false |};
    {| args := ["cd"; "/"]; input_file := None; output_file := None; background := false |} ].

Definition cd_command (operands : list string) : list Command :=
  [{| args := "cd" :: operands; input_file := None; output_file := None;
      background := false |}].

(** What a call on [line] returns, the stages it announces and what it
    prints, starting from the array [main] starts with. *)
Definition parsed (line : string) : Z * list Command * list string :=
  let r := parse_command (Some line) blank_commands 0 in
  (ret r, firstn (Z.to_nat (num_commands_out r)) (commands_out r), stderr_out r).

(** ** Characters at the ends of a string *)

Definition first_char (s : string) : option ascii :=
  match s with
  | EmptyString => None
  | String c _ => Some c
  end.

Fixpoint last_char (s : string) : option ascii :=
  match s with
  | EmptyString => None
  | String c EmptyString => Some c
  | String _ s' => last_char s'
  end.

(** ** Texts free of delimiters *)

(** No character of [s] is one of [delim]. *)
Fixpoint free_of (delim : string) (s : string) : bool :=
  match s with
  | EmptyString => true
  | String c s' => negb (is_delim delim c) && free_of delim s'
  end.

(** The three tokens the tokenizer does not take as arguments. *)
Definition is_operator (t : string) : bool :=
  (t =? "<")%string || (t =? ">")%string || (t =? "&")%string.

(** A string the tokenizer can have taken off a segment as a token and
    kept: not empty, without space or tab. *)
Definition kept_token (t : string) : Prop :=
  t <> "" /\ free_of blank_delim t = true.

(** The arguments and file names of a command are such tokens, and no
    argument is an operator. *)
Record clean_command (c : Command) : Prop := mkClean {
  clean_args : Forall (fun a => kept_token a /\ is_operator a = false) (args c);
  clean_input : forall f, input_file c = Some f -> kept_token f;
  clean_output : forall f, output_file c = Some f -> kept_token f
}.

(** ** Reading a trace *)

(** The descriptors [open] handed out, latest first. *)
Fixpoint opened_fds (t : list event) : list Z :=
  match t with
  | [] => []
  | Open _ _ r :: t' => if (r <? 0)%Z then opened_fds t' else r :: opened_fds t'
  | _ :: t' => opened_fds t'
  end.

(** The descriptors passed to [close], latest first. *)
Fixpoint closed_fds (t : list event) : list Z :=
  match t with
  | [] => []
  | Close fd :: t' => fd :: closed_fds t'
  | _ :: t' => closed_fds t'
  end.

(** No [open] and no [dup2] of the trace failed. *)
Fixpoint redirections_succeeded (t : list event) : bool :=
  match t with
  | [] => true
  | Open _ _ r :: t' => negb (r <? 0)%Z && redirections_succeeded t'
  | Dup2 _ _ r :: t' => negb (r <? 0)%Z && redirections_succeeded t'
  | _ :: t' => redirections_succeeded t'
  end.

(** The children [fork] created, latest first. *)
Fixpoint forked (t : list event) : list Z :=
  match t with
  | [] => []
  | Fork r :: t' => if (0 <? r)%Z then r :: forked t' else forked t'
  | _ :: t' => forked t'
  end.

(** The children the process waited for with a blocking [waitpid], latest
    first. *)
Fixpoint waited (t : list event) : list Z :=
  match t with
  | [] => []
  | Waitpid pid false :: t' => pid :: waited t'
  | _ :: t' => waited t'
  end.

(** The calls to [pipe] in a trace. *)
Fixpoint pipe_calls (t : list event) : nat :=
  match t with
  | [] => 0
  | Pipe _ _ :: t' => S (pipe_calls t')
  | _ :: t' => pipe_calls t'
  end.

(** A kernel in which no file can be opened. *)
Definition no_file_kernel : kernel :=
  {| home := home sample_kernel;
     isatty_stdin := isatty_stdin sample_kernel;
     chdir_reply := chdir_reply sample_kernel;
     pipe_reply := pipe_reply sample_kernel;
     fork_reply := fork_reply sample_kernel;
     open_reply := fun _ _ _ => (-1)%Z;
     dup2_reply := dup2_reply sample_kernel;
     execvp_replaces := execvp_replaces sample_kernel;
     errno_reply := errno_reply sample_kernel;
     finished_children := finished_children sample_kernel;
     strerror := strerror sample_kernel;
     below_pids := below_pids sample_kernel |}.

(** [pipe] and [fork] never fail and the process is the parent. *)
Definition never_fails (K : kernel) : Prop :=
  (forall t, 0 <= fst (pipe_reply K t))%Z /\ (forall t, 0 < fork_reply K t)%Z.

(** A computation that always hands back a value, having added to the
    trace events that, with the value, satisfy [Q]. *)
Definition emits {A : Type} (Q : A -> list event -> Prop) (m : M A) : Prop :=
  forall p, exists a q new,
    m p = (Returns a, q) /\ trace q = new ++ trace p /\ Q a new.

(** What the loop of line 303 has done when it is left, in the shell
    process: [new] is what it added to the trace. *)
Record spawned (K : kernel) (n : Z) (todo : nat) (i : Z) (st st' : spawn_state)
  (new : list event) : Prop := mkSpawned {
  sp_pids : pids st' = pids st ++ rev (forked new);
  sp_launched : launched st' = launched st + length (forked new);
  sp_waited : waited new = [];
  sp_printed : printed new = [];
  sp_forks : fork_calls new <= todo;
  sp_pipes : pipe_calls new <= todo;
  sp_all : never_fails K ->
           fork_calls new = todo /\ length (forked new) = todo /\
           Z.of_nat (pipe_calls new) = Z.min (Z.of_nat todo) (Z.max 0 (n - 1 - i))
}.

(** Only calls to [close]. *)
Definition closes_only (new : list event) : Prop :=
  Forall (fun e => exists fd, e = Close fd) new.

(** A pipeline that goes to line 298: at least one command, at most
    [MAX_PIPE], and, when there is just one, a command with a name that is
    neither [exit] nor [cd]. *)
Definition external (commands : list Command) (num_commands : Z) : Prop :=
  (0 < num_commands <= Z.of_nat MAX_PIPE)%Z /\
  (num_commands = 1%Z ->
   exists name, program (nth 0 commands empty_command) = Some name /\
                name <> "exit" /\ name <> "cd").

(** The last stage of the pipeline. *)
Definition last_stage (commands : list Command) (num_commands : Z) : Command :=
  nth (Z.to_nat (num_commands - 1)) commands empty_command.

(** Two commands by names that are not built-ins. *)
Definition ls_wc (bg : bool) : list Command :=
  [ {| args := ["ls"]; input_file := None; output_file := None; background := false |};
    {| args := ["wc"; "-l"]; input_file := None; output_file := None; background := bg |} ].

(** ** Descriptors of pipes *)

(** When [pipe] succeeds, the descriptors it hands out are not negative. *)
Definition pipe_descriptors (K : kernel) : Prop :=
  forall t, (0 <= fst (pipe_reply K t))%Z ->
    (0 <= fst (snd (pipe_reply K t)))%Z /\ (0 <= snd (snd (pipe_reply K t)))%Z.

(** The pipes created in a trace, read end first, latest first. *)
Fixpoint pipe_ends (t : list event) : list (Z * Z) :=
  match t with
  | [] => []
  | Pipe r pipefd :: t' => if (r <? 0)%Z then pipe_ends t' else pipefd :: pipe_ends t'
  | _ :: t' => pipe_ends t'
  end.

(** Both ends of every pipe created in the trace [t] are closed after the
    pipe was created, in [t] or among the descriptors [later] closed after
    [t]. *)
Fixpoint pipes_closed (later : list Z) (t : list event) : Prop :=
  match t with
  | [] => True
  | Close fd :: t' => pipes_closed (fd :: later) t'
  | Pipe r pipefd :: t' =>
      ((0 <= r)%Z -> In (fst pipefd) later /\ In (snd pipefd) later) /\
      pipes_closed later t'
  | _ :: t' => pipes_closed later t'
  end.

(** What the loop of line 303 has done with the descriptors when it is
    left, in the shell process: every pipe is closed but for the read end
    kept in [prev_fd]; the [prev_fd] it started with is closed or still
    there; and when nothing failed, the last thing closed is the [prev_fd]
    it ends with, the read end of the last pipe. *)
Record spawn_fds (K : kernel) (n : Z) (todo : nat) (i : Z) (st st' : spawn_state)
  (new : list event) : Prop := mkSpawnFds {
  fd_none : todo = 0 -> new = [] /\ st' = st;
  fd_closed : forall later,
      prev_fd st' = (-1)%Z \/ In (prev_fd st') later -> pipes_closed later new;
  fd_prev : prev_fd st = (-1)%Z \/ prev_fd st' = prev_fd st \/
            In (prev_fd st) (closed_fds new);
  fd_last : never_fails K -> (i + Z.of_nat todo = n)%Z -> 1 <= todo ->
            (todo = 1 -> prev_fd st <> (-1)%Z) ->
            prev_fd st' <> (-1)%Z /\
            (exists rest, closed_fds new = prev_fd st' :: rest) /\
            (pipe_ends new = [] /\ prev_fd st' = prev_fd st \/
             exists b older, pipe_ends new = (prev_fd st', b) :: older)
}.

(** * Examples *)

(** The lines of the test list of the specification, run through the
    model. *)

Example parse_two_stages :
  parsed "ls -la | grep foo" =
  (0%Z,
   [ {| args := ["ls"; "-la"]; input_file := None; output_file := None;
        background := false |};
     {| args := ["grep"; "foo"]; input_file := None; output_file := None;
        background := false |} ],
   []).
Proof. vm_compute. reflexivity. Qed.

Example parse_output_redirection :
  parsed "echo hi > out.txt" =
  (0%Z,
   [ {| args := ["echo"; "hi"]; input_file := None; output_file := Some "out.txt";
        background := false |} ],
   []).
Proof. vm_compute. reflexivity. Qed.

Example parse_background :
  parsed "sleep 5 &" =
  (0%Z,
   [ {| args := ["sleep"; "5"]; input_file := None; output_file := None;
        background := true |} ],
   []).
Proof. vm_compute. reflexivity. Qed.

Example parse_double_pipe : parsed "||" = ((-1)%Z, [], [message ErrNearPipe]).
Proof. vm_compute. reflexivity. Qed.

Example parse_after_ampersand : parsed "cmd &  extra" = ((-1)%Z, [], [message ErrNearAmp]).
Proof. vm_compute. reflexivity. Qed.

Example parse_output_twice : parsed "a > b > c" = ((-1)%Z, [], [message ErrOutputTwice]).
Proof. vm_compute. reflexivity. Qed.

Example parse_blank_segment :
  parsed "ls |  | wc" = ((-1)%Z, [], [message ErrMissingInPipeline]).
Proof. vm_compute. reflexivity. Qed.

(** A rejected line leaves its mark on the array: the stages written
    before the error was found stay there, while the count does not
    move. *)
Example rejected_line_touches_array :
  let r := parse_command (Some "cmd1 | cmd2 < in.txt") blank_commands 7 in
  ret r = (-1)%Z /\ num_commands_out r = 7%Z /\
  stage r 1 = {| args := ["cmd2"]; input_file := Some "in.txt"; output_file := None;
                 background := false |}.
Proof. vm_compute. repeat split; reflexivity. Qed.

(** The redirection operand is whatever token comes next. *)
Example operand_is_any_token :
  parsed "a > > c" =
  (0%Z,
   [ {| args := ["a"; "c"]; input_file := None; output_file := Some ">";
        background := false |} ],
   []).
Proof. vm_compute. reflexivity. Qed.

(** A rejected line, a pipeline of two stages and [exit], as the shell
    process sees them in the sample environment. *)
Example session :
  main_loop sample_kernel
    [ ("cmd1 | cmd2 < in.txt" ++ newline)%string;
      ("ls | wc" ++ newline)%string;
      ("exit" ++ newline)%string;
      ("never read" ++ newline)%string ]
    sample_vars sample_process =
  (Returns 0%Z,
   {| cwd := "/tmp"; errno := 0;
      trace := rev [ Stderr (message (ErrInputNotAllowed 2));
                     Pipe 0 (5%Z, 6%Z); Fork 102; Close 6; Fork 104; Close 5; Close 5;
                     Waitpid 102 false; Waitpid 104 false; Waitpid (-1) true ] |}).
Proof. vm_compute. reflexivity. Qed.

(** * Properties *)

(** ** The [strsep] loops, one iteration at a time *)

Lemma tokenize_eq i n st s :
  tokenize i n st (Some s) =
  match token_step i n st s with
  | Next st' p' => tokenize i n st' p'
  | Break st' => (None, st')
  | Fail e st' => (Some e, st')
  end.
Proof.
  simp tokenize.
  destruct (inspect (token_step i n st s)) as [r E].
  destruct r; simp tokenize; rewrite E; reflexivity.
Qed.

Lemma split_segments_eq s segments n :
  split_segments (Some s) segments n =
  let (segment, line_ptr') := strsep_scan pipe_delim s in
  if (segment =? "")%string then inl ErrNearPipe
  else if (MAX_PIPE <=? n)%nat then inl ErrTooManySegments
  else split_segments line_ptr' (segments ++ [segment]) (S n).
Proof.
  simp split_segments.
  destruct (inspect (strsep_scan pipe_delim s)) as [[a b] E].
  simp split_segments. rewrite E. reflexivity.
Qed.

Lemma next_operand_eq s :
  next_operand (Some s) =
  let (token, token_ptr') := strsep_scan blank_delim s in
  if (token =? "")%string then next_operand token_ptr'
  else (Some token, token_ptr').
Proof.
  simp next_operand.
  destruct (inspect (strsep_scan blank_delim s)) as [[a b] E].
  simp next_operand. rewrite E. reflexivity.
Qed.

(** Induction along the iterations of the tokenizer loop. *)
Lemma tokenize_rect (i n : nat)
  (P : tok_state -> option string -> option syntax_error * tok_state -> Prop) :
  (forall st, P st None (None, st)) ->
  (forall st s st' p',
      token_step i n st s = Next st' p' ->
      P st' p' (tokenize i n st' p') -> P st (Some s) (tokenize i n st' p')) ->
  (forall st s st', token_step i n st s = Break st' -> P st (Some s) (None, st')) ->
  (forall st s e st', token_step i n st s = Fail e st' -> P st (Some s) (Some e, st')) ->
  forall st p, P st p (tokenize i n st p).
Proof.
  intros Hnull Hnext Hbreak Hfail st p.
  remember (ptr_size p) as m eqn:Hm.
  revert st p Hm. induction m as [m IH] using lt_wf_ind. intros st p Hm.
  destruct p as [s|].
  - rewrite tokenize_eq.
    destruct (token_step i n st s) as [st' p'|st'|e st'] eqn:E.
    + apply Hnext; [exact E|].
      apply (IH (ptr_size p')); [|reflexivity].
      subst m. eapply token_step_size; eauto.
    + apply Hbreak; exact E.
    + apply Hfail; exact E.
  - simp tokenize; try apply Hnull.
Qed.

(** ** What the loop has met *)

Lemma reaches_tokenize i n st p st' p' :
  reaches i n st p st' p' -> tokenize i n st p = tokenize i n st' p'.
Proof.
  induction 1 as [|st s st1 p1 st2 p2 Hstep _ IH]; [reflexivity|].
  rewrite tokenize_eq, Hstep. exact IH.
Qed.

Lemma reaches_trans i n st p st1 p1 st2 p2 :
  reaches i n st p st1 p1 -> reaches i n st1 p1 st2 p2 -> reaches i n st p st2 p2.
Proof.
  induction 1; intros; [assumption|]. econstructor; eauto.
Qed.

(** ** Invariants of the locals *)

Lemma init_tok_inv : tok_inv init_tok.
Proof. split; simpl; try lia; tauto. Qed.

Lemma token_step_case i n st s : step_case i n st s (token_step i n st s).
Proof.
  unfold token_step.
  destruct (strsep_scan blank_delim s) as [token rest] eqn:E.
  destruct (String.eqb_spec token "") as [->|Hne]; [eapply case_empty; eauto|].
  destruct (String.eqb_spec token "<") as [->|Hi].
  { destruct (next_operand rest) as [[file|] rest'] eqn:En.
    - destruct (Nat.ltb_spec 0 (input_count st)).
      + eapply case_input_twice; eauto.
      + eapply case_input; eauto. lia.
    - eapply case_input_missing; eauto. }
  destruct (String.eqb_spec token ">") as [->|Ho].
  { destruct (next_operand rest) as [[file|] rest'] eqn:En.
    - destruct (Nat.ltb_spec 0 (output_count st)).
      + eapply case_output_twice; eauto.
      + eapply case_output; eauto. lia.
    - eapply case_output_missing; eauto. }
  destruct (String.eqb_spec token "&") as [->|Ha].
  { destruct (Nat.eqb_spec i (n - 1)); simpl.
    - destruct (only_spaces rest) eqn:Es; simpl.
      + eapply case_amp; eauto.
      + eapply case_amp_followed; eauto.
    - eapply case_amp_not_last; eauto. }
  destruct (Nat.ltb_spec (arg_index st) (MAX_ARGS - 1)).
  - eapply case_arg; eauto.
  - eapply case_arg_overflow; eauto.
Qed.

Ltac step_cases H :=
  match type of H with
  | token_step ?i ?n ?st ?s = _ =>
      let C := fresh "C" in
      pose proof (token_step_case i n st s) as C; rewrite H in C;
      inversion C; subst; clear C
  end.

Lemma firstn_length_self {A : Type} (l : list A) : firstn (length l) l = l.
Proof. apply firstn_all. Qed.

Lemma push_arg_args st token :
  arg_index st = length (args (cmd st)) ->
  args (cmd (push_arg st token)) = args (cmd st) ++ [token].
Proof. intros H. simpl. rewrite H, firstn_all. reflexivity. Qed.

Lemma step_next_inv i n st s st' p' :
  tok_inv st -> token_step i n st s = Next st' p' -> tok_inv st'.
Proof.
  intros [Hi Hr Hin Hout] H. step_cases H.
  - split; assumption.
  - split; simpl; try assumption. split; intros; discriminate.
  - split; simpl; try assumption. split; intros; discriminate.
  - split; simpl; try assumption; try lia.
    rewrite Hi, firstn_all, length_app. simpl. lia.
Qed.

Lemma step_break_inv i n st s st' :
  tok_inv st -> token_step i n st s = Break st' -> tok_inv st'.
Proof.
  intros [Hi Hr Hin Hout] H. step_cases H. split; assumption.
Qed.

Lemma step_fail_same i n st s e st' :
  token_step i n st s = Fail e st' -> st' = st.
Proof. intros H. step_cases H; reflexivity. Qed.

Lemma extends_refl st : extends st st.
Proof. split; auto. exists []. rewrite app_nil_r. reflexivity. Qed.

Lemma extends_trans st1 st2 st3 : extends st1 st2 -> extends st2 st3 -> extends st1 st3.
Proof.
  intros [[m1 A1] I1 O1 C1 D1] [[m2 A2] I2 O2 C2 D2]. split; auto; try lia.
  exists (m1 ++ m2). rewrite A2, A1, app_assoc. reflexivity.
Qed.

Lemma step_next_extends i n st s st' p' :
  tok_inv st -> token_step i n st s = Next st' p' ->
  extends st st' /\ background (cmd st') = background (cmd st).
Proof.
  intros [Hi Hr Hin Hout] H. step_cases H.
  - split; [apply extends_refl|reflexivity].
  - split; [|reflexivity]. split; simpl; auto.
    + exists []. rewrite app_nil_r. reflexivity.
    + intros f0 Hf.
      match goal with Hz : input_count st = 0 |- _ => apply Hin in Hz; congruence end.
  - split; [|reflexivity]. split; simpl; auto.
    + exists []. rewrite app_nil_r. reflexivity.
    + intros f0 Hf.
      match goal with Hz : output_count st = 0 |- _ => apply Hout in Hz; congruence end.
  - split; [|reflexivity]. split; simpl; auto.
    exists [token]. rewrite Hi, firstn_all. reflexivity.
Qed.

Lemma step_break_extends i n st s st' :
  token_step i n st s = Break st' ->
  extends st st' /\ background (cmd st') = true /\ i = n - 1 /\
  exists rest, strsep_scan blank_delim s = ("&", rest) /\
               only_spaces rest = true /\ st' = set_background st.
Proof.
  intros H. step_cases H. split; [|split; [reflexivity|split; [reflexivity|eauto]]].
  split; simpl; auto. exists []. rewrite app_nil_r. reflexivity.
Qed.

Lemma reaches_inv i n st p st' p' :
  reaches i n st p st' p' -> tok_inv st ->
  tok_inv st' /\ extends st st' /\ background (cmd st') = background (cmd st).
Proof.
  induction 1 as [|st s st1 p1 st2 p2 Hstep _ IH]; intros Hinv.
  - split; [assumption|split; [apply extends_refl|reflexivity]].
  - destruct (step_next_extends _ _ _ _ _ _ Hinv Hstep) as [E1 B1].
    destruct (IH (step_next_inv _ _ _ _ _ _ Hinv Hstep)) as [I2 [E2 B2]].
    split; [assumption|split; [eapply extends_trans; eauto|congruence]].
Qed.

(** The locals when the loop is left without error. *)
Lemma tokenize_ok i n st p st' :
  tok_inv st -> tokenize i n st p = (None, st') ->
  tok_inv st' /\ extends st st' /\
  (background (cmd st') = background (cmd st) \/
   background (cmd st') = true /\ i = n - 1 /\
   exists st1 s rest,
     reaches i n st p st1 (Some s) /\
     strsep_scan blank_delim s = ("&", rest) /\
     only_spaces rest = true /\ st' = set_background st1).
Proof.
  revert st'.
  apply (tokenize_rect i n (fun st p r => forall st', tok_inv st -> r = (None, st') ->
    tok_inv st' /\ extends st st' /\
    (background (cmd st') = background (cmd st) \/
     background (cmd st') = true /\ i = n - 1 /\
     exists st1 s rest,
       reaches i n st p st1 (Some s) /\
       strsep_scan blank_delim s = ("&", rest) /\
       only_spaces rest = true /\ st' = set_background st1))).
  - intros st0 st' Hinv H. inversion H; subst.
    split; [assumption|split; [apply extends_refl|left; reflexivity]].
  - intros st0 s st1 p1 Hstep IH st' Hinv H.
    destruct (step_next_extends _ _ _ _ _ _ Hinv Hstep) as [E1 B1].
    destruct (IH st' (step_next_inv _ _ _ _ _ _ Hinv Hstep) H) as [I2 [E2 B2]].
    split; [assumption|split; [eapply extends_trans; eauto|]].
    destruct B2 as [B2|[B2 [Hl [st2 [s2 [rest [R [Hs [Ho Heq]]]]]]]]].
    + left; congruence.
    + right. split; [assumption|split; [assumption|]].
      exists st2, s2, rest. split; [econstructor; eauto|auto].
  - intros st0 s st1 Hstep st' Hinv H. inversion H; subst.
    destruct (step_break_extends _ _ _ _ _ Hstep) as [E [B [Hl [rest [Hs [Ho Heq]]]]]].
    split; [eapply step_break_inv; eauto|split; [assumption|]].
    right. split; [assumption|split; [assumption|]].
    exists st0, s, rest. split; [constructor|auto].
  - intros; discriminate.
Qed.

(** ** The array of commands *)

Lemma store_length i c commands : length (store i c commands) = length commands.
Proof.
  revert i; induction commands as [|c0 l IH]; intros [|i]; simpl; auto.
Qed.

Lemma nth_store_same i c commands :
  i < length commands -> nth i (store i c commands) empty_command = c.
Proof.
  revert i; induction commands as [|c0 l IH]; intros [|i]; simpl; intros H;
    try lia; auto. apply IH; lia.
Qed.

Lemma nth_store_other i j c commands :
  i <> j -> nth j (store i c commands) empty_command = nth j commands empty_command.
Proof.
  revert i j; induction commands as [|c0 l IH]; intros [|i] [|j]; simpl; intros H;
    try lia; auto.
Qed.

(** ** One segment *)

Lemma terminate_args_inv st : tok_inv st -> terminate_args st = cmd st.
Proof.
  intros [Hi _ _ _]. unfold terminate_args. rewrite Hi, firstn_all.
  destruct (cmd st); reflexivity.
Qed.

(** A segment that parses: its tokenizer ran to the end or to an accepted
    ampersand, and left at least one argument. *)
Lemma parse_segment_ok i n segment old c :
  parse_segment i n segment old = (None, c) ->
  trim_whitespace segment <> "" /\
  exists st, tokenize i n init_tok (Some (trim_whitespace segment)) = (None, st) /\
             tok_inv st /\ c = cmd st /\ arg_index st <> 0.
Proof.
  unfold parse_segment.
  destruct (String.eqb_spec (trim_whitespace segment) "") as [E|E]; [discriminate|].
  destruct (tokenize i n init_tok (Some (trim_whitespace segment))) as [[e|] st] eqn:T;
    [discriminate|].
  destruct (Nat.eqb_spec (arg_index st) 0); [discriminate|].
  intros H; inversion H; subst. split; [assumption|].
  destruct (tokenize_ok _ _ _ _ _ init_tok_inv T) as [I _].
  exists st. rewrite terminate_args_inv by assumption. auto.
Qed.

(** Whether a segment parses, and what it yields when it does, does not
    depend on what [commands[i]] held before. *)
Lemma parse_segment_old i n segment old old' :
  fst (parse_segment i n segment old) = fst (parse_segment i n segment old') /\
  (fst (parse_segment i n segment old) = None ->
   snd (parse_segment i n segment old) = snd (parse_segment i n segment old')).
Proof.
  unfold parse_segment.
  destruct (trim_whitespace segment =? "")%string; simpl; [split; [reflexivity|discriminate]|].
  destruct (tokenize i n init_tok (Some (trim_whitespace segment))) as [[e|] st];
    simpl; [split; reflexivity|].
  destruct (arg_index st =? 0)%nat; split; reflexivity.
Qed.

(** ** The loop over the segments *)

Lemma parse_segments_ok segments : forall i n commands commands',
  parse_segments i n segments commands = (None, commands') ->
  i + length segments <= length commands ->
  length commands' = length commands /\
  (forall j, j < i -> nth j commands' empty_command = nth j commands empty_command) /\
  (forall k segment old, nth_error segments k = Some segment ->
     parse_segment (i + k) n segment old = (None, nth (i + k) commands' empty_command)).
Proof.
  induction segments as [|seg segs IH]; simpl; intros i n commands commands' H Hlen.
  - inversion H; subst. split; [reflexivity|split; [reflexivity|]].
    intros [|k]; discriminate.
  - destruct (parse_segment i n seg (nth i commands empty_command)) as [[e|] c] eqn:P;
      [discriminate|].
    destruct (IH _ _ _ _ H) as [L [Below At]]; [rewrite store_length; lia|].
    rewrite store_length in L. split; [assumption|split].
    + intros j Hj. rewrite Below by lia. apply nth_store_other; lia.
    + intros [|k] segment old Hk; simpl in Hk.
      * inversion Hk; subst segment. rewrite Nat.add_0_r, Below by lia.
        rewrite nth_store_same by lia.
        destruct (parse_segment_old i n seg old (nth i commands empty_command)) as [F S'].
        rewrite P in F, S'. simpl in F, S'.
        destruct (parse_segment i n seg old) as [e' c']; simpl in *.
        subst e'. rewrite S' by reflexivity. reflexivity.
      * replace (i + S k) with (S i + k) by lia. eapply At; eauto.
Qed.

(** Two runs over the same segments, whatever the arrays held before. *)
Lemma parse_segments_old segments : forall i n commands1 commands2,
  i + length segments <= length commands1 ->
  i + length segments <= length commands2 ->
  fst (parse_segments i n segments commands1) = fst (parse_segments i n segments commands2) /\
  (fst (parse_segments i n segments commands1) = None ->
   forall k, k < length segments ->
     nth (i + k) (snd (parse_segments i n segments commands1)) empty_command =
     nth (i + k) (snd (parse_segments i n segments commands2)) empty_command).
Proof.
  induction segments as [|seg segs IH]; simpl; intros i n c1 c2 L1 L2.
  - split; [reflexivity|]. intros _ k Hk; lia.
  - destruct (parse_segment_old i n seg (nth i c1 empty_command) (nth i c2 empty_command))
      as [F S'].
    destruct (parse_segment i n seg (nth i c1 empty_command)) as [[e|] a] eqn:P1;
    destruct (parse_segment i n seg (nth i c2 empty_command)) as [[e'|] b] eqn:P2;
      simpl in *; try discriminate.
    + split; [assumption|discriminate].
    + specialize (S' eq_refl). subst b.
      destruct (IH (S i) n (store i a c1) (store i a c2)) as [F2 S2];
        [rewrite store_length; lia|rewrite store_length; lia|].
      split; [assumption|]. intros Hok [|k] Hk.
      * rewrite Nat.add_0_r.
        destruct (parse_segments (S i) n segs (store i a c1)) as [[e1|] r1] eqn:Q1;
          [discriminate|].
        destruct (parse_segments (S i) n segs (store i a c2)) as [[e2|] r2] eqn:Q2;
          [discriminate|].
        simpl.
        destruct (parse_segments_ok _ _ _ _ _ Q1) as [_ [B1 _]]; [rewrite store_length; lia|].
        destruct (parse_segments_ok _ _ _ _ _ Q2) as [_ [B2 _]]; [rewrite store_length; lia|].
        rewrite B1, B2 by lia. rewrite !nth_store_same by lia. reflexivity.
      * replace (i + S k) with (S i + k) by lia. apply S2; [assumption|lia].
Qed.

(** ** The redirection rules *)

Lemma is_set_false p : is_set p = false <-> p = None.
Proof. destruct p; simpl; split; intros; congruence. Qed.

Lemma check_redirections_spec todo : forall i n commands,
  match check_redirections i todo n commands with
  | None => forall j, i <= j < i + todo -> redirection_ok n j (nth j commands empty_command)
  | Some e =>
      exists j, i <= j < i + todo /\
        (forall k, i <= k < j -> redirection_ok n k (nth k commands empty_command)) /\
        ((j <> 0 /\ input_file (nth j commands empty_command) <> None /\
          e = ErrInputNotAllowed (j + 1)) \/
         (j <> n - 1 /\ output_file (nth j commands empty_command) <> None /\
          e = ErrOutputNotAllowed (j + 1)))
  end.
Proof.
  induction todo as [|todo IH]; simpl; intros i n commands; [intros j Hj; lia|].
  destruct (Nat.eqb_spec i 0) as [Hi|Hi]; simpl.
  - destruct (Nat.eqb_spec i (n - 1)) as [Hl|Hl]; simpl.
    + specialize (IH (S i) n commands).
      destruct (check_redirections (S i) todo n commands) as [e|].
      * destruct IH as [j [Hj [Hbefore Hviol]]]. exists j. split; [lia|split; [|assumption]].
        intros k Hk. destruct (Nat.eq_dec k i) as [->|]; [|apply Hbefore; lia].
        split; intros; contradiction.
      * intros j Hj. destruct (Nat.eq_dec j i) as [->|]; [|apply IH; lia].
        split; intros; contradiction.
    + destruct (is_set (output_file (nth i commands empty_command))) eqn:Eo.
      * exists i. split; [lia|split; [intros k Hk; lia|]]. right.
        split; [assumption|split; [|reflexivity]].
        intros Hn. apply is_set_false in Hn. congruence.
      * apply is_set_false in Eo. specialize (IH (S i) n commands).
        destruct (check_redirections (S i) todo n commands) as [e|].
        -- destruct IH as [j [Hj [Hbefore Hviol]]]. exists j.
           split; [lia|split; [|assumption]].
           intros k Hk. destruct (Nat.eq_dec k i) as [->|]; [|apply Hbefore; lia].
           split; intros; [contradiction|assumption].
        -- intros j Hj. destruct (Nat.eq_dec j i) as [->|]; [|apply IH; lia].
           split; intros; [contradiction|assumption].
  - destruct (is_set (input_file (nth i commands empty_command))) eqn:Ei.
    + exists i. split; [lia|split; [intros k Hk; lia|]]. left.
      split; [assumption|split; [|reflexivity]].
      intros Hn. apply is_set_false in Hn. congruence.
    + apply is_set_false in Ei.
      destruct (Nat.eqb_spec i (n - 1)) as [Hl|Hl]; simpl.
      * specialize (IH (S i) n commands).
        destruct (check_redirections (S i) todo n commands) as [e|].
        -- destruct IH as [j [Hj [Hbefore Hviol]]]. exists j.
           split; [lia|split; [|assumption]].
           intros k Hk. destruct (Nat.eq_dec k i) as [->|]; [|apply Hbefore; lia].
           split; intros; [assumption|contradiction].
        -- intros j Hj. destruct (Nat.eq_dec j i) as [->|]; [|apply IH; lia].
           split; intros; [assumption|contradiction].
      * destruct (is_set (output_file (nth i commands empty_command))) eqn:Eo.
        -- exists i. split; [lia|split; [intros k Hk; lia|]]. right.
           split; [assumption|split; [|reflexivity]].
           intros Hn. apply is_set_false in Hn. congruence.
        -- apply is_set_false in Eo. specialize (IH (S i) n commands).
           destruct (check_redirections (S i) todo n commands) as [e|].
           ++ destruct IH as [j [Hj [Hbefore Hviol]]]. exists j.
              split; [lia|split; [|assumption]].
              intros k Hk. destruct (Nat.eq_dec k i) as [->|]; [|apply Hbefore; lia].
              split; intros; assumption.
           ++ intros j Hj. destruct (Nat.eq_dec j i) as [->|]; [|apply IH; lia].
              split; intros; assumption.
Qed.

(** ** Splitting at the pipes *)

Lemma strsep_scan_pipes s : forall segment rest,
  strsep_scan pipe_delim s = (segment, rest) ->
  count_pipes s = count_segments rest.
Proof.
  induction s as [|c s IH]; cbn [strsep_scan count_pipes]; intros segment rest H.
  - inversion H; subst; reflexivity.
  - destruct (is_delim pipe_delim c).
    + inversion H; subst; reflexivity.
    + destruct (strsep_scan pipe_delim s) as [t r]. inversion H; subst.
      cbn [Nat.add]. eapply IH; reflexivity.
Qed.

Lemma split_segments_ok p : forall segments n segments' n',
  split_segments p segments n = inr (segments', n') ->
  length segments = n ->
  n' = n + count_segments p /\ length segments' = n' /\
  (p <> None -> n' <= MAX_PIPE) /\
  exists more, segments' = segments ++ more.
Proof.
  remember (ptr_size p) as m eqn:Hm. revert p Hm.
  induction m as [m IH] using lt_wf_ind. intros p Hm segments n segments' n' H Hlen.
  destruct p as [s|].
  - rewrite split_segments_eq in H.
    destruct (strsep_scan pipe_delim s) as [segment rest] eqn:E.
    destruct (segment =? "")%string; [discriminate|].
    destruct (Nat.leb_spec MAX_PIPE n); [discriminate|].
    pose proof (strsep_scan_size _ _ _ _ E) as Hsize.
    pose proof (strsep_scan_pipes _ _ _ E) as Hcount.
    destruct (IH (ptr_size rest) ltac:(lia) rest eq_refl _ _ _ _ H) as [N [L [B [more M]]]];
      [rewrite length_app; simpl; lia|].
    simpl. split; [lia|split; [assumption|split]].
    + intros _. destruct rest as [r|].
      * apply B; discriminate.
      * simp split_segments in H. inversion H; subst. lia.
    + exists (segment :: more). rewrite M, <- app_assoc. reflexivity.
  - simp split_segments in H. inversion H; subst. simpl.
    split; [lia|split; [reflexivity|split; [congruence|]]].
    exists []. rewrite app_nil_r. reflexivity.
Qed.

(** Seventeen segments or more never pass line 92. *)
Lemma split_segments_many p : forall segments n,
  n <= MAX_PIPE ->
  MAX_PIPE < n + count_segments p ->
  exists e, split_segments p segments n = inl e.
Proof.
  remember (ptr_size p) as m eqn:Hm. revert p Hm.
  induction m as [m IH] using lt_wf_ind. intros p Hm segments n Hn Hmany.
  destruct p as [s|].
  - rewrite split_segments_eq.
    destruct (strsep_scan pipe_delim s) as [segment rest] eqn:E.
    destruct (segment =? "")%string; [eexists; reflexivity|].
    destruct (Nat.leb_spec MAX_PIPE n); [eexists; reflexivity|].
    pose proof (strsep_scan_size _ _ _ _ E) as Hsize.
    pose proof (strsep_scan_pipes _ _ _ E) as Hcount.
    apply (IH (ptr_size rest) ltac:(lia) rest eq_refl); [lia|].
    simpl in Hmany. lia.
  - simpl in Hmany. lia.
Qed.

(** ** [parse_command] as a whole *)

Lemma parse_command_ret input commands num :
  ret (parse_command input commands num) = 0%Z \/
  ret (parse_command input commands num) = (-1)%Z.
Proof.
  unfold parse_command. destruct input as [line|]; [|right; reflexivity].
  destruct (split_segments (Some line) [] 0) as [e|[segments n]]; [right; reflexivity|].
  destruct (parse_segments 0 n segments commands) as [[e|] commands'];
    [right; reflexivity|].
  destruct (if (1 <? n)%nat then _ else _); [right|left]; reflexivity.
Qed.

(** On failure the [int] behind [num_commands] is not written, and every
    failure on a non-NULL line prints exactly one diagnostic. *)
Lemma parse_command_failure input commands num :
  ret (parse_command input commands num) <> 0%Z ->
  num_commands_out (parse_command input commands num) = num /\
  (forall line, input = Some line ->
     exists e, stderr_out (parse_command input commands num) = [message e]).
Proof.
  unfold parse_command. destruct input as [line|].
  2:{ intros _. split; [reflexivity|]. intros line H; discriminate. }
  destruct (split_segments (Some line) [] 0) as [e|[segments n]].
  { intros _. split; [reflexivity|]. intros l _. exists e. reflexivity. }
  destruct (parse_segments 0 n segments commands) as [[e|] commands'].
  { intros _. split; [reflexivity|]. intros l _. exists e. reflexivity. }
  destruct (if (1 <? n)%nat then _ else _) as [e|].
  { intros _. split; [reflexivity|]. intros l _. exists e. reflexivity. }
  simpl. intros H; contradiction.
Qed.

(** On success: the segments the line splits into, each of which parsed to
    the stage of the same index, and the redirection rules. *)
Lemma parse_command_success line commands num :
  MAX_PIPE <= length commands ->
  ret (parse_command (Some line) commands num) = 0%Z ->
  exists segments n,
    split_segments (Some line) [] 0 = inr (segments, n) /\
    length segments = n /\ n = S (count_pipes line) /\ n <= MAX_PIPE /\
    num_commands_out (parse_command (Some line) commands num) = Z.of_nat n /\
    stderr_out (parse_command (Some line) commands num) = [] /\
    length (commands_out (parse_command (Some line) commands num)) = length commands /\
    (forall i segment old, nth_error segments i = Some segment ->
       parse_segment i n segment old =
       (None, stage (parse_command (Some line) commands num) i)) /\
    (1 < n -> forall j, j < n ->
       redirection_ok n j (stage (parse_command (Some line) commands num) j)).
Proof.
  intros Hlen. unfold stage, parse_command.
  destruct (split_segments (Some line) [] 0) as [e|[segments n]] eqn:Hs; [discriminate|].
  destruct (split_segments_ok _ _ _ _ _ Hs eq_refl) as [Hn [Hl [Hb _]]].
  specialize (Hb ltac:(discriminate)). simpl in Hn.
  destruct (parse_segments 0 n segments commands) as [[e|] commands'] eqn:Hp;
    [discriminate|].
  destruct (parse_segments_ok _ _ _ _ _ Hp) as [Hlen' [_ Hat]]; [simpl; lia|].
  pose proof (check_redirections_spec n 0 n commands') as Hc.
  destruct (Nat.ltb_spec 1 n) as [Hn1|Hn1].
  - destruct (check_redirections 0 n n commands') as [e|]; [discriminate|].
    intros _. exists segments, n. simpl.
    split; [reflexivity|]. split; [assumption|]. split; [lia|]. split; [assumption|].
    split; [reflexivity|]. split; [reflexivity|]. split; [assumption|]. split.
    + intros i segment old Hi. apply (Hat i segment old Hi).
    + intros _ j Hj. apply Hc; lia.
  - intros _. exists segments, n. simpl.
    split; [reflexivity|]. split; [assumption|]. split; [lia|]. split; [assumption|].
    split; [reflexivity|]. split; [reflexivity|]. split; [assumption|]. split.
    + intros i segment old Hi. apply (Hat i segment old Hi).
    + intros Hn2; lia.
Qed.

(** What a stage that came out of a segment looks like. *)
Lemma parse_segment_stage i n segment old c :
  parse_segment i n segment old = (None, c) ->
  args c <> [] /\ length (args c) <= MAX_ARGS - 1 /\ (background c = true -> i = n - 1).
Proof.
  intros H. destruct (parse_segment_ok _ _ _ _ _ H) as [_ [st [T [I [-> Hne]]]]].
  destruct I as [Hi Hr _ _].
  split; [|split].
  - intros E. rewrite E in Hi. simpl in Hi. contradiction.
  - lia.
  - destruct (tokenize_ok _ _ _ _ _ init_tok_inv T) as [_ [_ [B|[_ [B _]]]]].
    + simpl in B. congruence.
    + intros _. exact B.
Qed.

Lemma parse_command_valid line commands num :
  MAX_PIPE <= length commands ->
  ret (parse_command (Some line) commands num) = 0%Z ->
  valid_pipeline (commands_out (parse_command (Some line) commands num))
                 (S (count_pipes line)) /\
  num_commands_out (parse_command (Some line) commands num) =
    Z.of_nat (S (count_pipes line)).
Proof.
  intros Hlen Hret.
  destruct (parse_command_success _ _ _ Hlen Hret)
    as [segments [n [Hs [Hl [Hn [Hb [Hnum [_ [_ [Hat Hred]]]]]]]]]].
  rewrite <- Hn. split; [|assumption].
  assert (Hseg : forall i, i < n -> exists segment, nth_error segments i = Some segment).
  { intros i Hi. destruct (nth_error segments i) eqn:E; [eauto|].
    apply nth_error_None in E. lia. }
  split.
  - lia.
  - intros i Hi. destruct (Hseg i Hi) as [segment Hi'].
    destruct (parse_segment_stage _ _ _ _ _ (Hat i segment empty_command Hi')) as [A [B _]].
    split; assumption.
  - exact Hred.
  - intros i Hi. destruct (Hseg i Hi) as [segment Hi'].
    destruct (parse_segment_stage _ _ _ _ _ (Hat i segment empty_command Hi')) as [_ [_ B]].
    exact B.
Qed.

Lemma check_redirections_ext todo : forall i n commands1 commands2,
  (forall j, i <= j < i + todo ->
     nth j commands1 empty_command = nth j commands2 empty_command) ->
  check_redirections i todo n commands1 = check_redirections i todo n commands2.
Proof.
  induction todo as [|todo IH]; simpl; intros i n c1 c2 H; [reflexivity|].
  rewrite (H i) by lia. rewrite (IH (S i) n c1 c2); [reflexivity|].
  intros j Hj. apply H. lia.
Qed.

(** The outcome of a call does not depend on what the array and the
    counter of the caller held before it. *)
Lemma parse_command_array line commands1 num1 commands2 num2 :
  MAX_PIPE <= length commands1 -> MAX_PIPE <= length commands2 ->
  ret (parse_command (Some line) commands1 num1) =
  ret (parse_command (Some line) commands2 num2) /\
  stderr_out (parse_command (Some line) commands1 num1) =
  stderr_out (parse_command (Some line) commands2 num2) /\
  (ret (parse_command (Some line) commands1 num1) = 0%Z ->
   num_commands_out (parse_command (Some line) commands1 num1) =
   num_commands_out (parse_command (Some line) commands2 num2) /\
   forall i, i < S (count_pipes line) ->
     stage (parse_command (Some line) commands1 num1) i =
     stage (parse_command (Some line) commands2 num2) i).
Proof.
  intros L1 L2. unfold stage, parse_command.
  destruct (split_segments (Some line) [] 0) as [e|[segments n]] eqn:Hs.
  { simpl. repeat split; try reflexivity; discriminate. }
  destruct (split_segments_ok _ _ _ _ _ Hs eq_refl) as [Hn [Hl [Hb _]]].
  specialize (Hb ltac:(discriminate)). simpl in Hn.
  destruct (parse_segments_old segments 0 n commands1 commands2) as [F S'];
    [simpl; lia|simpl; lia|].
  destruct (parse_segments 0 n segments commands1) as [[e1|] r1];
  destruct (parse_segments 0 n segments commands2) as [[e2|] r2];
    simpl in F; try discriminate.
  { inversion F; subst. simpl. repeat split; try reflexivity; discriminate. }
  specialize (S' eq_refl). simpl in S'.
  assert (Hc : (if (1 <? n)%nat then check_redirections 0 n n r1 else None) =
               (if (1 <? n)%nat then check_redirections 0 n n r2 else None)).
  { destruct (1 <? n)%nat; [|reflexivity]. apply check_redirections_ext.
    intros j Hj. apply (S' j). lia. }
  rewrite Hc.
  destruct (if (1 <? n)%nat then check_redirections 0 n n r2 else None) as [e|]; simpl.
  { repeat split; try reflexivity; discriminate. }
  split; [reflexivity|split; [reflexivity|]]. intros _. split; [reflexivity|].
  intros i Hi. apply (S' i). lia.
Qed.

(** ** The executor *)

Create HintDb shell discriminated.

Lemma keeps_pure {A : Type} (a : A) : keeps_cwd (pure a).
Proof. intros p; reflexivity. Qed.

Lemma keeps_bind {A B : Type} (m : M A) (k : A -> M B) :
  keeps_cwd m -> (forall a, keeps_cwd (k a)) -> keeps_cwd (bind m k).
Proof.
  intros Hm Hk p. unfold bind. specialize (Hm p).
  destruct (m p) as [[a|] p1]; simpl in *; [|assumption].
  rewrite Hk. assumption.
Qed.

Lemma keeps_emit e : keeps_cwd (emit e).
Proof. intros p; reflexivity. Qed.

Lemma keeps_when b m : keeps_cwd m -> keeps_cwd (when b m).
Proof. destruct b; simpl; auto using keeps_pure. Qed.

Lemma keeps_get_errno : keeps_cwd get_errno.
Proof. intros p; reflexivity. Qed.

Lemma keeps_failed K : keeps_cwd (failed K).
Proof. intros p; reflexivity. Qed.

Lemma keeps_if {A : Type} (b : bool) (m1 m2 : M A) :
  keeps_cwd m1 -> keeps_cwd m2 -> keeps_cwd (if b then m1 else m2).
Proof. destruct b; auto. Qed.

Lemma keeps_sys_exit {A : Type} status : keeps_cwd (@sys_exit A status).
Proof. intros p; reflexivity. Qed.

#[export] Hint Resolve keeps_pure keeps_emit keeps_when keeps_get_errno
  keeps_failed keeps_if keeps_sys_exit : shell.

Ltac keeps :=
  repeat first
    [ apply keeps_bind; [|intro]
    | apply keeps_if
    | apply keeps_when
    | solve [auto with shell]
    | match goal with
      | |- keeps_cwd (match ?x with _ => _ end) => destruct x
      end ].

Lemma keeps_sys_pipe K : keeps_cwd (sys_pipe K).
Proof. intros p. unfold sys_pipe. apply (keeps_bind _ _); [|intro]; keeps. Qed.

Lemma keeps_sys_fork K : keeps_cwd (sys_fork K).
Proof. intros p. unfold sys_fork. apply (keeps_bind _ _); [|intro]; keeps. Qed.

Lemma keeps_sys_open K path flags : keeps_cwd (sys_open K path flags).
Proof. intros p. unfold sys_open. apply (keeps_bind _ _); [|intro]; keeps. Qed.

Lemma keeps_sys_dup2 K oldfd newfd : keeps_cwd (sys_dup2 K oldfd newfd).
Proof. intros p. unfold sys_dup2. apply (keeps_bind _ _); [|intro]; keeps. Qed.

Lemma keeps_sys_close fd : keeps_cwd (sys_close fd).
Proof. apply keeps_emit. Qed.

Lemma keeps_sys_execvp K file argv : keeps_cwd (sys_execvp K file argv).
Proof.
  intros p. unfold sys_execvp.
  destruct (execvp_replaces K (trace p) file argv); [reflexivity|].
  apply (keeps_bind _ _); [|intro]; keeps.
Qed.

Lemma keeps_print_err text : keeps_cwd (print_err text).
Proof. apply keeps_emit. Qed.

Lemma keeps_print_out text : keeps_cwd (print_out text).
Proof. apply keeps_emit. Qed.

#[export] Hint Resolve keeps_print_err keeps_print_out : shell.

Lemma keeps_perror K prefix : keeps_cwd (perror K prefix).
Proof. unfold perror. keeps. Qed.

#[export] Hint Resolve keeps_sys_pipe keeps_sys_fork keeps_sys_open keeps_sys_dup2
  keeps_sys_close keeps_sys_execvp keeps_perror : shell.

Lemma keeps_redirect_one K file flags target open_failed dup_failed :
  keeps_cwd (redirect_one K file flags target open_failed dup_failed).
Proof. unfold redirect_one. keeps. Qed.

#[export] Hint Resolve keeps_redirect_one : shell.

Lemma keeps_redirect_io K c : keeps_cwd (redirect_io K c).
Proof. unfold redirect_io. keeps. Qed.

#[export] Hint Resolve keeps_redirect_io : shell.

Lemma keeps_run_child {A : Type} K c piped prev pipefd :
  keeps_cwd (@run_child K A c piped prev pipefd).
Proof. unfold run_child, void. keeps. Qed.

#[export] Hint Resolve keeps_run_child : shell.

Lemma keeps_spawn K commands n todo : forall i st,
  keeps_cwd (spawn K commands n todo i st).
Proof.
  induction todo as [|todo IH]; intros i st; simpl; keeps.
Qed.

Lemma keeps_wait_all pids : keeps_cwd (wait_all pids).
Proof. induction pids; simpl; keeps. Qed.

#[export] Hint Resolve keeps_spawn keeps_wait_all : shell.

Lemma yields_pure {A : Type} (Q : A -> Prop) (a : A) : Q a -> yields Q (pure a).
Proof. intros H p. exists a. split; [reflexivity|assumption]. Qed.

Lemma yields_bind {A B : Type} (Q : A -> Prop) (R : B -> Prop) (m : M A) (k : A -> M B) :
  yields Q m -> (forall a, Q a -> yields R (k a)) -> yields R (bind m k).
Proof.
  intros Hm Hk p. unfold bind. destruct (Hm p) as [a [Ha Qa]].
  destruct (m p) as [[a'|] p1]; simpl in Ha; [|discriminate].
  inversion Ha; subst a'. apply (Hk a Qa).
Qed.

Lemma yields_weaken {A : Type} (Q R : A -> Prop) (m : M A) :
  (forall a, Q a -> R a) -> yields Q m -> yields R m.
Proof. intros H Hm p. destruct (Hm p) as [a [Ha Qa]]. eauto. Qed.

Lemma yields_emit e : yields any (emit e).
Proof. intros p. exists tt. split; reflexivity. Qed.

Lemma yields_when b m : yields any m -> yields any (when b m).
Proof. destruct b; simpl; auto using yields_pure. intros. apply yields_pure. exact I. Qed.

Lemma yields_get_errno : yields any get_errno.
Proof. intros p. eexists. split; reflexivity. Qed.

Lemma yields_failed K : yields any (failed K).
Proof. intros p. exists tt. split; reflexivity. Qed.

Lemma yields_seq {A B : Type} (R : B -> Prop) (m : M A) (k : M B) :
  yields any m -> yields R k -> yields R (bind m (fun _ => k)).
Proof. intros Hm Hk. eapply yields_bind; eauto. Qed.

Lemma yields_sys_pipe K : yields any (sys_pipe K).
Proof.
  intros p. unfold sys_pipe.
  apply (yields_seq _ _ _ (yields_when _ _ (yields_failed K))).
  apply yields_seq; [apply yields_emit|]. apply yields_pure. exact I.
Qed.

Lemma yields_sys_fork K : in_parent K -> yields (fun pid => pid <> 0%Z) (sys_fork K).
Proof.
  intros HK p. unfold sys_fork.
  apply (yields_seq _ _ _ (yields_when _ _ (yields_failed K))).
  apply yields_seq; [apply yields_emit|]. apply yields_pure. apply HK.
Qed.

Lemma yields_perror K prefix : yields any (perror K prefix).
Proof.
  unfold perror. eapply yields_bind; [apply yields_get_errno|].
  intros e _. apply yields_emit.
Qed.

Lemma yields_spawn K commands n todo : in_parent K ->
  forall i st, yields any (spawn K commands n todo i st).
Proof.
  intros HK. induction todo as [|todo IH]; intros i st; simpl.
  - apply yields_pure. exact I.
  - eapply yields_bind with (Q := any).
    { destruct (i <? n - 1)%Z; [apply yields_sys_pipe|apply yields_pure; exact I]. }
    intros pr _. destruct (fst pr <? 0)%Z.
    { apply yields_seq; [apply yields_perror|apply yields_pure; exact I]. }
    eapply yields_bind; [apply (yields_sys_fork K HK)|].
    intros pid Hpid. destruct (pid <? 0)%Z.
    { apply yields_seq; [apply yields_perror|].
      apply yields_seq; [|apply yields_pure; exact I].
      apply yields_when. apply yields_seq; apply yields_emit. }
    destruct (Z.eqb_spec pid 0); [contradiction|].
    apply yields_seq; [apply yields_when, yields_emit|].
    apply yields_seq; [apply yields_when, yields_emit|].
    apply IH.
Qed.

Lemma yields_wait_all pids : yields any (wait_all pids).
Proof.
  induction pids; simpl; [apply yields_pure; exact I|].
  apply yields_seq; [apply yields_emit|assumption].
Qed.

(** What comes out of a sequence came out of its last part. *)
Lemma bind_returns {A B : Type} (m : M A) (k : A -> M B) p b :
  fst (bind m k p) = Returns b ->
  exists a p1, m p = (Returns a, p1) /\ fst (k a p1) = Returns b.
Proof.
  unfold bind. destruct (m p) as [[a|] p1]; simpl; [eauto|discriminate].
Qed.

Lemma builtin_exit K commands p :
  program (nth 0 commands empty_command) = Some "exit" ->
  builtin K commands 1 p = (Returns (Some 2%Z), p).
Proof.
  unfold builtin, program. simpl.
  destruct (args (nth 0 commands empty_command)) as [|arg0 rest]; [discriminate|].
  simpl. intros H; inversion H; subst. reflexivity.
Qed.

Lemma builtin_cd K commands p :
  program (nth 0 commands empty_command) = Some "cd" ->
  builtin K commands 1 p =
  match chdir_reply K (cwd p) (cd_target K (nth 0 commands empty_command)) with
  | inr dir =>
      (Returns (Some 1%Z),
       {| cwd := dir; errno := errno p;
          trace := Chdir (cd_target K (nth 0 commands empty_command)) 0 :: trace p |})
  | inl e =>
      (Returns (Some 1%Z),
       {| cwd := cwd p; errno := e;
          trace := Stderr ("cd: " ++ cd_target K (nth 0 commands empty_command) ++ ": " ++
                           strerror K e ++ newline)
                   :: Chdir (cd_target K (nth 0 commands empty_command)) (-1) :: trace p |})
  end.
Proof.
  unfold builtin, program, cd_target. simpl.
  destruct (args (nth 0 commands empty_command)) as [|arg0 rest] eqn:E; [discriminate|].
  simpl. intros H; inversion H; subst.
  change (("cd" =? "exit")%string) with false. change (("cd" =? "cd")%string) with true.
  cbv iota. unfold bind, sys_chdir.
  destruct rest as [|d rest']; simpl;
    match goal with |- context [chdir_reply K ?c ?d] => destruct (chdir_reply K c d) end;
    reflexivity.
Qed.

(** Anything else falls through to line 298 without a trace. *)
Lemma builtin_none K commands n p :
  ~ is_builtin commands n ->
  builtin K commands n p = (Returns None, p) \/
  builtin K commands n p = (Returns (Some 1%Z), p).
Proof.
  unfold is_builtin, builtin, program. intros H.
  destruct (Z.eqb_spec n 1) as [->|]; [|left; reflexivity].
  destruct (args (nth 0 commands empty_command)) as [|arg0 rest]; [right; reflexivity|].
  simpl in H.
  destruct (String.eqb_spec arg0 "exit") as [->|]; [exfalso; apply H; auto|].
  destruct (String.eqb_spec arg0 "cd") as [->|]; [exfalso; apply H; auto|].
  left; reflexivity.
Qed.

Lemma execute_exit K commands p :
  program (nth 0 commands empty_command) = Some "exit" ->
  execute_commands K commands 1 p = (Returns 2%Z, p).
Proof.
  intros H. unfold execute_commands. simpl. unfold bind.
  rewrite (builtin_exit K commands p H). reflexivity.
Qed.

Lemma execute_cd K commands p :
  program (nth 0 commands empty_command) = Some "cd" ->
  execute_commands K commands 1 p =
  match chdir_reply K (cwd p) (cd_target K (nth 0 commands empty_command)) with
  | inr dir =>
      (Returns 1%Z,
       {| cwd := dir; errno := errno p;
          trace := Chdir (cd_target K (nth 0 commands empty_command)) 0 :: trace p |})
  | inl e =>
      (Returns 1%Z,
       {| cwd := cwd p; errno := e;
          trace := Stderr ("cd: " ++ cd_target K (nth 0 commands empty_command) ++ ": " ++
                           strerror K e ++ newline)
                   :: Chdir (cd_target K (nth 0 commands empty_command)) (-1) :: trace p |})
  end.
Proof.
  intros H. unfold execute_commands. simpl. unfold bind.
  rewrite (builtin_cd K commands p H).
  destruct (chdir_reply K (cwd p) (cd_target K (nth 0 commands empty_command)));
    reflexivity.
Qed.

Lemma execute_external K commands n p :
  (0 < n)%Z -> builtin K commands n p = (Returns None, p) ->
  execute_commands K commands n p = run_pipeline K commands n p.
Proof.
  intros Hn Hb. unfold execute_commands, run_pipeline.
  destruct (Z.leb_spec n 0); [lia|].
  unfold bind at 1. rewrite Hb. reflexivity.
Qed.

Lemma run_pipeline_value K commands n p v :
  fst (run_pipeline K commands n p) = Returns v -> v = 1%Z.
Proof.
  unfold run_pipeline. intros H.
  apply bind_returns in H. destruct H as [st [p1 [_ H]]].
  apply bind_returns in H. destruct H as [u [p2 [_ H]]].
  apply bind_returns in H. destruct H as [u' [p3 [_ H]]].
  simpl in H. inversion H; reflexivity.
Qed.

Lemma run_pipeline_parent K commands n p :
  in_parent K -> fst (run_pipeline K commands n p) = Returns 1%Z.
Proof.
  intros HK.
  assert (Y : yields (fun v => v = 1%Z) (run_pipeline K commands n)).
  { unfold run_pipeline.
    eapply yields_bind; [apply (yields_spawn K commands n _ HK)|].
    intros st _. apply yields_seq; [apply yields_when, yields_emit|].
    apply yields_seq; [|apply yields_pure; reflexivity].
    destruct (background _); [apply yields_emit|apply yields_wait_all]. }
  destruct (Y p) as [v [Hv ->]]. exact Hv.
Qed.

Lemma keeps_run_pipeline K commands n : keeps_cwd (run_pipeline K commands n).
Proof. unfold run_pipeline. keeps. Qed.

(** Every way out of [execute_commands], for a command that is not a
    built-in. *)
Lemma execute_not_builtin K commands n p :
  ~ is_builtin commands n ->
  execute_commands K commands n p = (Returns 1%Z, p) \/
  execute_commands K commands n p = run_pipeline K commands n p.
Proof.
  intros H. unfold execute_commands.
  destruct (Z.leb_spec n 0); [left; reflexivity|].
  destruct (builtin_none K commands n p H) as [Hb|Hb].
  - right. rewrite <- (execute_external K commands n p ltac:(lia) Hb).
    unfold execute_commands. destruct (Z.leb_spec n 0); [lia|reflexivity].
  - left. unfold bind. rewrite Hb. reflexivity.
Qed.

(** ** The read-execute loop *)

Lemma when_prompt K p :
  when (isatty_stdin K) (print_out "$ ") p = (Returns tt, after (prompt K) p).
Proof.
  unfold prompt, after. destruct (isatty_stdin K); simpl; [reflexivity|].
  destruct p; reflexivity.
Qed.

Arguments parse_command : simpl never.

(** A line the parser rejects: the diagnostic goes to [stderr], the loop
    goes on, and [num_commands] is what it was. *)
Lemma main_iteration_rejected K input_line v p :
  trim_whitespace (chomp input_line) <> "" ->
  ret (parse_command (Some (trim_whitespace (chomp input_line)))
         (sh_commands v) (sh_num_commands v)) <> 0%Z ->
  exists e,
    stderr_out (parse_command (Some (trim_whitespace (chomp input_line)))
                  (sh_commands v) (sh_num_commands v)) = [message e] /\
    main_iteration K (Some input_line) v p =
    (Returns (LoopContinue,
              {| sh_commands :=
                   commands_out (parse_command (Some (trim_whitespace (chomp input_line)))
                                   (sh_commands v) (sh_num_commands v));
                 sh_num_commands := sh_num_commands v;
                 sh_status := sh_status v |}),
     after (Stderr (message e) :: prompt K) p).
Proof.
  intros Hne Hret.
  destruct (parse_command_failure _ _ _ Hret) as [Hnum Herr].
  destruct (Herr _ eq_refl) as [e He]. exists e. split; [assumption|].
  unfold main_iteration. unfold bind at 1. rewrite when_prompt.
  destruct (String.eqb_spec (trim_whitespace (chomp input_line)) ""); [contradiction|].
  rewrite He. simpl print_all_err.
  destruct (Z.eqb_spec (ret (parse_command (Some (trim_whitespace (chomp input_line)))
                               (sh_commands v) (sh_num_commands v))) 0); [contradiction|].
  simpl. rewrite Hnum. reflexivity.
Qed.

(** A blank line: nothing happens. *)
Lemma main_iteration_blank K input_line v p :
  trim_whitespace (chomp input_line) = "" ->
  main_iteration K (Some input_line) v p = (Returns (LoopContinue, v), after (prompt K) p).
Proof.
  intros H. unfold main_iteration. unfold bind at 1. rewrite when_prompt, H. reflexivity.
Qed.

Lemma fork_calls_app t1 t2 : fork_calls (t1 ++ t2) = fork_calls t1 + fork_calls t2.
Proof.
  induction t1 as [|e t1 IH]; simpl; [reflexivity|]. destruct e; simpl; auto.
Qed.

Lemma fork_calls_prompt K : fork_calls (prompt K) = 0.
Proof. unfold prompt. destruct (isatty_stdin K); reflexivity. Qed.

(** Running a line against the array [main] starts with tells what it
    yields against any other. *)
Lemma parse_command_at line commands num :
  MAX_PIPE <= length commands ->
  ret (parse_command (Some line) blank_commands 0) = 0%Z ->
  ret (parse_command (Some line) commands num) = 0%Z /\
  num_commands_out (parse_command (Some line) commands num) =
    num_commands_out (parse_command (Some line) blank_commands 0) /\
  forall i, i < S (count_pipes line) ->
    stage (parse_command (Some line) commands num) i =
    stage (parse_command (Some line) blank_commands 0) i.
Proof.
  intros Hlen Hret.
  destruct (parse_command_array line blank_commands 0 commands num) as [R [_ S']];
    [apply le_n|assumption|].
  destruct (S' Hret) as [N St].
  split; [congruence|split; [congruence|]].
  intros i Hi. symmetry. apply St. assumption.
Qed.

Lemma split_segments_empty : split_segments (Some "") [] 0 = inl ErrNearPipe.
Proof. reflexivity. Qed.

(** The ways [execute_commands] can go. *)
Lemma execute_cases K commands n p :
  (n = 1%Z /\ program (nth 0 commands empty_command) = Some "exit" /\
   execute_commands K commands n p = (Returns 2%Z, p)) \/
  (n = 1%Z /\ program (nth 0 commands empty_command) = Some "cd" /\
   fst (execute_commands K commands n p) = Returns 1%Z) \/
  (~ is_builtin commands n /\
   (execute_commands K commands n p = (Returns 1%Z, p) \/
    execute_commands K commands n p = run_pipeline K commands n p)).
Proof.
  destruct (Z.eq_dec n 1) as [->|Hn].
  - destruct (program (nth 0 commands empty_command)) as [a|] eqn:E.
    + destruct (String.eqb_spec a "exit") as [->|Hx].
      { left. split; [reflexivity|split; [reflexivity|]]. apply execute_exit; assumption. }
      destruct (String.eqb_spec a "cd") as [->|Hc].
      { right; left. split; [reflexivity|split; [reflexivity|]].
        rewrite execute_cd by assumption.
        destruct (chdir_reply K (cwd p) _); reflexivity. }
      right; right.
      assert (Hb : ~ is_builtin commands 1).
      { intros [_ [H|H]]; rewrite E in H; inversion H; contradiction. }
      split; [assumption|]. apply execute_not_builtin; assumption.
    + right; right.
      assert (Hb : ~ is_builtin commands 1).
      { intros [_ [H|H]]; rewrite E in H; discriminate. }
      split; [assumption|]. apply execute_not_builtin; assumption.
  - right; right.
    assert (Hb : ~ is_builtin commands n) by (intros [H _]; contradiction).
    split; [assumption|]. apply execute_not_builtin; assumption.
Qed.

(** A line the parser rejects costs one iteration of the loop of [main]:
    no [fork], no [chdir], and the loop goes on with the next line. *)
Lemma rejected_line K input_line v p :
  ret (parse_command (Some (trim_whitespace (chomp input_line)))
         (sh_commands v) (sh_num_commands v)) <> 0%Z ->
  exists v' p',
    main_iteration K (Some input_line) v p = (Returns (LoopContinue, v'), p') /\
    sh_num_commands v' = sh_num_commands v /\
    fork_calls (trace p') = fork_calls (trace p) /\
    cwd p' = cwd p /\
    forall stdin, main_loop K (input_line :: stdin) v p = main_loop K stdin v' p'.
Proof.
  intros Hret.
  destruct (String.eqb_spec (trim_whitespace (chomp input_line)) "") as [Hb|Hb].
  - exists v, (after (prompt K) p).
    pose proof (main_iteration_blank K input_line v p Hb) as E.
    split; [exact E|]. split; [reflexivity|]. split.
    + simpl. rewrite fork_calls_app, fork_calls_prompt. reflexivity.
    + split; [reflexivity|]. intros stdin. simpl. unfold bind. rewrite E. reflexivity.
  - destruct (main_iteration_rejected K input_line v p Hb Hret) as [e [_ E]].
    eexists. eexists. split; [exact E|]. split; [reflexivity|]. split.
    + simpl. rewrite fork_calls_app, fork_calls_prompt. reflexivity.
    + split; [reflexivity|]. intros stdin. simpl. unfold bind. rewrite E. reflexivity.
Qed.

(** ** Lines made of plain words *)

Lemma plain_char_blank c : plain_char c = true -> is_delim blank_delim c = false.
Proof.
  unfold plain_char, isspace, blank_delim. simpl.
  destruct (c =? " ")%char; [discriminate|].
  destruct (c =? "009")%char; [discriminate|]. reflexivity.
Qed.

Lemma plain_char_pipe c : plain_char c = true -> is_delim pipe_delim c = false.
Proof.
  unfold plain_char. destruct (is_delim pipe_delim c); [|reflexivity].
  rewrite andb_false_r. discriminate.
Qed.

Lemma plain_char_space c : plain_char c = true -> isspace c = false.
Proof. unfold plain_char. destruct (isspace c); [discriminate|reflexivity]. Qed.

(** [strsep] on a string that starts with a delimiter-free word. *)
Lemma strsep_scan_word delim w :
  (forall c, plain_char c = true -> is_delim delim c = false) ->
  plain_chars w = true ->
  strsep_scan delim w = (w, None) /\
  forall d rest, is_delim delim d = true ->
    strsep_scan delim (w ++ String d rest) = (w, Some rest).
Proof.
  intros Hd. induction w as [|c w IH]; cbn [plain_chars]; intros Hw.
  - split; [reflexivity|]. intros d rest Hdelim. cbn. rewrite Hdelim. reflexivity.
  - apply andb_prop in Hw. destruct Hw as [Hc Hw].
    destruct (IH Hw) as [IH1 IH2]. split.
    + cbn [strsep_scan]. rewrite (Hd c Hc), IH1. reflexivity.
    + intros d rest Hdelim. cbn [strsep_scan append]. rewrite (Hd c Hc), (IH2 d rest Hdelim).
      reflexivity.
Qed.

Lemma plain_word_chars w : plain_word w = true ->
  w <> "" /\ plain_chars w = true /\ w <> "<" /\ w <> ">" /\ w <> "&".
Proof.
  unfold plain_word. intros H.
  repeat (apply andb_prop in H; destruct H as [H ?]).
  repeat match goal with
         | Hn : negb (_ =? _)%string = true |- _ =>
             apply negb_true_iff in Hn; apply String.eqb_neq in Hn
         end.
  auto.
Qed.

(** The tokenizer on a plain word. *)
Lemma token_step_word i n st s w rest :
  plain_word w = true ->
  strsep_scan blank_delim s = (w, rest) ->
  token_step i n st s =
  if (arg_index st <? MAX_ARGS - 1)%nat then Next (push_arg st w) rest
  else Fail ErrTooManyArgs st.
Proof.
  intros Hw Hs. destruct (plain_word_chars w Hw) as [H0 [_ [H1 [H2 H3]]]].
  unfold token_step. rewrite Hs.
  apply String.eqb_neq in H0, H1, H2, H3. rewrite H0, H1, H2, H3. reflexivity.
Qed.

Lemma push_args_spec ws : forall st,
  arg_index st = length (args (cmd st)) ->
  args (cmd (push_args st ws)) = args (cmd st) ++ ws /\
  arg_index (push_args st ws) = arg_index st + length ws /\
  input_file (cmd (push_args st ws)) = input_file (cmd st) /\
  output_file (cmd (push_args st ws)) = output_file (cmd st) /\
  background (cmd (push_args st ws)) = background (cmd st).
Proof.
  induction ws as [|w ws IH]; intros st H; cbn [push_args fold_left].
  - rewrite app_nil_r. repeat split; simpl; lia.
  - destruct (IH (push_arg st w)) as [A [B [C [D E]]]].
    { simpl. rewrite H, firstn_all, length_app. simpl. lia. }
    unfold push_args in *. rewrite A, B, C, D, E. simpl.
    rewrite H, firstn_all, <- app_assoc. simpl. repeat split; lia.
Qed.

(** The loop of line 127 on words separated by single spaces. *)
Lemma tokenize_words i n ws : forall st,
  ws <> [] -> Forall (fun w => plain_word w = true) ws ->
  (arg_index st + length ws <= MAX_ARGS - 1 ->
   tokenize i n st (Some (String.concat " " ws)) = (None, push_args st ws)) /\
  (MAX_ARGS - 1 < arg_index st + length ws ->
   exists st', tokenize i n st (Some (String.concat " " ws)) = (Some ErrTooManyArgs, st')).
Proof.
  induction ws as [|w ws IH]; intros st Hne Hall; [contradiction|].
  inversion Hall as [|w' ws' Hw Hws]; subst.
  destruct (plain_word_chars w Hw) as [_ [Hc _]].
  destruct (strsep_scan_word blank_delim w plain_char_blank Hc) as [S1 S2].
  destruct ws as [|w2 ws].
  - cbn [String.concat length]. rewrite tokenize_eq.
    rewrite (token_step_word i n st w w None Hw S1). split; intros Hlen.
    + destruct (Nat.ltb_spec (arg_index st) (MAX_ARGS - 1)); [|lia].
      simp tokenize. reflexivity.
    + destruct (Nat.ltb_spec (arg_index st) (MAX_ARGS - 1)); [lia|].
      eexists; reflexivity.
  - change (String.concat " " (w :: w2 :: ws))
      with (w ++ String " " (String.concat " " (w2 :: ws)))%string.
    rewrite tokenize_eq.
    rewrite (token_step_word i n st _ w _ Hw (S2 " "%char _ eq_refl)).
    destruct (IH (push_arg st w) ltac:(discriminate) Hws) as [IH1 IH2].
    cbn [length] in *. cbn [arg_index push_arg] in IH1, IH2. split; intros Hlen.
    + destruct (Nat.ltb_spec (arg_index st) (MAX_ARGS - 1)); [|lia].
      rewrite IH1 by lia. reflexivity.
    + destruct (Nat.ltb_spec (arg_index st) (MAX_ARGS - 1)).
      * apply IH2. lia.
      * eexists; reflexivity.
Qed.

(** [trim_whitespace] leaves such a text alone. *)
Lemma cut_trailing_app a b :
  cut_trailing b = b -> b <> "" -> cut_trailing (a ++ b) = (a ++ b)%string.
Proof.
  intros Hb Hne. induction a as [|c a IH]; cbn [append cut_trailing]; [assumption|].
  rewrite IH. destruct (a ++ b)%string eqn:E; [|reflexivity].
  destruct a; simpl in E; [contradiction|discriminate].
Qed.

Lemma cut_trailing_plain w : plain_chars w = true -> cut_trailing w = w.
Proof.
  induction w as [|c w IH]; cbn [plain_chars cut_trailing]; [reflexivity|].
  intros H. apply andb_prop in H. destruct H as [Hc Hw].
  rewrite (IH Hw). destruct w; [|reflexivity].
  rewrite (plain_char_space c Hc). reflexivity.
Qed.

Lemma cut_trailing_tail c s : cut_trailing (String c s) = String c s -> cut_trailing s = s.
Proof.
  cbn [cut_trailing]. destruct (cut_trailing s) eqn:E.
  - destruct (isspace c); intros H; inversion H; reflexivity.
  - intros H; inversion H; reflexivity.
Qed.

Lemma concat_words_first sep ws :
  ws <> [] -> Forall (fun w => plain_word w = true) ws ->
  exists c s, String.concat sep ws = String c s /\ plain_char c = true.
Proof.
  intros Hne Hall. destruct ws as [|w ws]; [contradiction|].
  inversion Hall as [|w' ws' Hw Hws]; subst.
  destruct (plain_word_chars w Hw) as [H0 [Hc _]].
  destruct w as [|c w]; [contradiction|].
  cbn [plain_chars] in Hc. apply andb_prop in Hc. destruct Hc as [Hc _].
  destruct ws; cbn [String.concat append]; eauto.
Qed.

Lemma cut_trailing_words ws :
  ws <> [] -> Forall (fun w => plain_word w = true) ws ->
  cut_trailing (String.concat " " ws) = String.concat " " ws.
Proof.
  induction ws as [|w ws IH]; intros Hne Hall; [contradiction|].
  inversion Hall as [|w' ws' Hw Hws]; subst.
  destruct (plain_word_chars w Hw) as [_ [Hc _]].
  destruct ws as [|w2 ws]; [apply cut_trailing_plain; assumption|].
  change (String.concat " " (w :: w2 :: ws))
    with (w ++ String " " (String.concat " " (w2 :: ws)))%string.
  destruct (concat_words_first " " (w2 :: ws) ltac:(discriminate) Hws) as [c [s [E _]]].
  apply cut_trailing_app; [|discriminate].
  cbn [cut_trailing]. rewrite (IH ltac:(discriminate) Hws), E. reflexivity.
Qed.

Lemma trim_whitespace_words ws :
  ws <> [] -> Forall (fun w => plain_word w = true) ws ->
  trim_whitespace (String.concat " " ws) = String.concat " " ws.
Proof.
  intros Hne Hall.
  destruct (concat_words_first " " ws Hne Hall) as [c [s [E Hc]]].
  pose proof (cut_trailing_words ws Hne Hall) as Ht. rewrite E in Ht |- *.
  unfold trim_whitespace. cbn [skip_leading]. rewrite (plain_char_space c Hc).
  rewrite (cut_trailing_tail c s Ht). reflexivity.
Qed.

(** A segment of plain words parses to a stage with these arguments when
    there are at most [MAX_ARGS - 1] of them, and is refused at the
    [MAX_ARGS]-th. *)
Lemma parse_segment_words i n ws old :
  ws <> [] -> Forall (fun w => plain_word w = true) ws ->
  (length ws <= MAX_ARGS - 1 ->
   parse_segment i n (String.concat " " ws) old =
   (None, {| args := ws; input_file := None; output_file := None; background := false |})) /\
  (MAX_ARGS - 1 < length ws ->
   exists c, parse_segment i n (String.concat " " ws) old = (Some ErrTooManyArgs, c)).
Proof.
  intros Hne Hall. unfold parse_segment.
  rewrite (trim_whitespace_words ws Hne Hall).
  destruct (concat_words_first " " ws Hne Hall) as [c [s [E _]]].
  destruct (String.eqb_spec (String.concat " " ws) "") as [H0|_]; [congruence|].
  destruct (tokenize_words i n ws init_tok Hne Hall) as [T1 T2]. split; intros Hlen.
  - rewrite T1 by (change (arg_index init_tok) with 0; lia).
    destruct (push_args_spec ws init_tok eq_refl) as [A [B [C [D F]]]].
    simpl in A, B, C, D, F.
    destruct (Nat.eqb_spec (arg_index (push_args init_tok ws)) 0) as [Hz|_].
    { rewrite B in Hz. destruct ws; [contradiction|discriminate]. }
    unfold terminate_args. rewrite A, B, C, D, F, firstn_all. reflexivity.
  - destruct (T2 ltac:(change (arg_index init_tok) with 0; lia)) as [st' T].
    rewrite T. eexists; reflexivity.
Qed.

(** Words joined by pipes split back into the words, up to [MAX_PIPE] of
    them. *)
Lemma split_segments_words ws : forall segments n,
  ws <> [] -> Forall (fun w => plain_word w = true) ws ->
  (n + length ws <= MAX_PIPE ->
   split_segments (Some (String.concat "|" ws)) segments n =
   inr (segments ++ ws, n + length ws)) /\
  (MAX_PIPE < n + length ws ->
   split_segments (Some (String.concat "|" ws)) segments n = inl ErrTooManySegments).
Proof.
  induction ws as [|w ws IH]; intros segments n Hne Hall; [contradiction|].
  inversion Hall as [|w' ws' Hw Hws]; subst.
  destruct (plain_word_chars w Hw) as [H0 [Hc _]].
  destruct (strsep_scan_word pipe_delim w plain_char_pipe Hc) as [S1 S2].
  apply String.eqb_neq in H0.
  destruct ws as [|w2 ws].
  - cbn [String.concat length]. rewrite split_segments_eq, S1, H0. split; intros Hlen.
    + destruct (Nat.leb_spec MAX_PIPE n); [lia|].
      simp split_segments. replace (n + 1) with (S n) by lia. reflexivity.
    + destruct (Nat.leb_spec MAX_PIPE n); [reflexivity|lia].
  - change (String.concat "|" (w :: w2 :: ws))
      with (w ++ String "|" (String.concat "|" (w2 :: ws)))%string.
    rewrite split_segments_eq, (S2 "|"%char _ eq_refl), H0.
    destruct (IH (segments ++ [w]) (S n) ltac:(discriminate) Hws) as [IH1 IH2].
    cbn [length] in *. split; intros Hlen.
    + destruct (Nat.leb_spec MAX_PIPE n); [lia|].
      rewrite IH1 by lia. rewrite <- app_assoc. simpl.
      replace (S (n + S (length ws))) with (n + S (S (length ws))) by lia. reflexivity.
    + destruct (Nat.leb_spec MAX_PIPE n); [reflexivity|]. apply IH2. lia.
Qed.

(** Segments that each parse make the loop of line 100 succeed. *)
Lemma parse_segments_all segments : forall i n commands,
  i + length segments <= length commands ->
  (forall k segment, nth_error segments k = Some segment ->
     exists c, forall old, parse_segment (i + k) n segment old = (None, c)) ->
  exists commands', parse_segments i n segments commands = (None, commands').
Proof.
  induction segments as [|seg segs IH]; intros i n commands Hlen Hall; cbn [parse_segments].
  - eexists; reflexivity.
  - destruct (Hall 0 seg eq_refl) as [c Hc]. rewrite Nat.add_0_r in Hc. rewrite Hc.
    apply IH.
    + rewrite store_length. simpl in Hlen. lia.
    + intros k segment Hk. replace (S i + k) with (i + S k) by lia.
      apply (Hall (S k) segment Hk).
Qed.

Lemma no_pipe_app a b : no_pipe (a ++ b) = no_pipe a && no_pipe b.
Proof.
  induction a as [|c a IH]; cbn [append no_pipe]; [reflexivity|].
  rewrite IH, andb_assoc. reflexivity.
Qed.

Lemma no_pipe_plain w : plain_chars w = true -> no_pipe w = true.
Proof.
  induction w as [|c w IH]; cbn [plain_chars no_pipe]; [reflexivity|].
  intros H. apply andb_prop in H. destruct H as [Hc Hw].
  rewrite (plain_char_pipe c Hc), (IH Hw). reflexivity.
Qed.

Lemma no_pipe_words ws :
  Forall (fun w => plain_word w = true) ws -> no_pipe (String.concat " " ws) = true.
Proof.
  induction ws as [|w ws IH]; intros Hall; [reflexivity|].
  inversion Hall as [|w' ws' Hw Hws]; subst.
  destruct (plain_word_chars w Hw) as [_ [Hc _]].
  destruct ws as [|w2 ws]; [apply no_pipe_plain; assumption|].
  change (String.concat " " (w :: w2 :: ws))
    with (w ++ String " " (String.concat " " (w2 :: ws)))%string.
  rewrite no_pipe_app, (no_pipe_plain w Hc). cbn [no_pipe andb].
  rewrite (IH Hws). reflexivity.
Qed.

Lemma strsep_scan_no_pipe s : no_pipe s = true -> strsep_scan pipe_delim s = (s, None).
Proof.
  induction s as [|c s IH]; cbn [no_pipe strsep_scan]; [reflexivity|].
  intros H. apply andb_prop in H. destruct H as [Hc Hs].
  apply negb_true_iff in Hc. rewrite Hc, (IH Hs). reflexivity.
Qed.

(** A line without a pipe is its own single segment. *)
Lemma split_segments_single line :
  line <> "" -> no_pipe line = true ->
  split_segments (Some line) [] 0 = inr ([line], 1).
Proof.
  intros Hne Hp. rewrite split_segments_eq, (strsep_scan_no_pipe line Hp).
  apply String.eqb_neq in Hne. rewrite Hne. cbn. simp split_segments. reflexivity.
Qed.

(** [parse_command] on a line of one segment. *)
Lemma parse_command_single line commands num :
  0 < length commands ->
  line <> "" -> no_pipe line = true ->
  parse_command (Some line) commands num =
  match parse_segment 0 1 line (nth 0 commands empty_command) with
  | (Some e, c) => syntax_failure e (store 0 c commands) num
  | (None, c) =>
      {| ret := 0; commands_out := store 0 c commands; num_commands_out := 1;
         stderr_out := [] |}
  end.
Proof.
  intros Hlen Hne Hp. unfold parse_command.
  rewrite (split_segments_single line Hne Hp). cbn [parse_segments].
  destruct (parse_segment 0 1 line (nth 0 commands empty_command)) as [[e|] c]; reflexivity.
Qed.

(** ** Tokens and fields *)

Lemma fields_strsep delim s :
  fields delim s =
  let (token, rest) := strsep_scan delim s in
  token :: match rest with None => [] | Some r => fields delim r end.
Proof.
  induction s as [|c s IH]; cbn [fields strsep_scan]; [reflexivity|].
  destruct (is_delim delim c); [reflexivity|].
  rewrite IH. destruct (strsep_scan delim s) as [token rest]. reflexivity.
Qed.


(** ** One iteration, by the token it takes *)

Lemma token_step_amp i n st s rest :
  strsep_scan blank_delim s = ("&", rest) ->
  token_step i n st s =
  if negb (i =? n - 1)%nat then Fail ErrAmpNotLast st
  else if negb (only_spaces rest) then Fail ErrNearAmp st
  else Break (set_background st).
Proof. intros H. unfold token_step. rewrite H. reflexivity. Qed.

Lemma token_step_input i n st s rest :
  strsep_scan blank_delim s = ("<", rest) ->
  token_step i n st s =
  match next_operand rest with
  | (None, _) => Fail ErrNearInput st
  | (Some file, token_ptr') =>
      if (0 <? input_count st)%nat then Fail ErrInputTwice st
      else Next (set_input st file) token_ptr'
  end.
Proof. intros H. unfold token_step. rewrite H. reflexivity. Qed.

Lemma token_step_output i n st s rest :
  strsep_scan blank_delim s = (">", rest) ->
  token_step i n st s =
  match next_operand rest with
  | (None, _) => Fail ErrNearOutput st
  | (Some file, token_ptr') =>
      if (0 <? output_count st)%nat then Fail ErrOutputTwice st
      else Next (set_output st file) token_ptr'
  end.
Proof. intros H. unfold token_step. rewrite H. reflexivity. Qed.

Lemma token_step_arg i n st s token rest :
  strsep_scan blank_delim s = (token, rest) ->
  token <> "" -> token <> "<" -> token <> ">" -> token <> "&" ->
  token_step i n st s =
  if (arg_index st <? MAX_ARGS - 1)%nat then Next (push_arg st token) rest
  else Fail ErrTooManyArgs st.
Proof.
  intros H H0 H1 H2 H3. unfold token_step. rewrite H.
  apply String.eqb_neq in H0, H1, H2, H3. rewrite H0, H1, H2, H3. reflexivity.
Qed.

(** ** A segment of an accepted line *)

Lemma parse_command_ret_error input commands num :
  ret (parse_command input commands num) <> 0%Z ->
  ret (parse_command input commands num) = (-1)%Z.
Proof. destruct (parse_command_ret input commands num); [contradiction|auto]. Qed.

(** When the line is accepted, the tokenizer of each of its segments ran
    to a good end and left the stage of the same index. *)
Lemma segment_run line commands num segments n i segment :
  MAX_PIPE <= length commands ->
  split_segments (Some line) [] 0 = inr (segments, n) ->
  nth_error segments i = Some segment ->
  ret (parse_command (Some line) commands num) = 0%Z ->
  exists st',
    tokenize i n init_tok (Some (trim_whitespace segment)) = (None, st') /\
    tok_inv st' /\ stage (parse_command (Some line) commands num) i = cmd st'.
Proof.
  intros Hlen Hs Hi Hret.
  destruct (parse_command_success _ _ _ Hlen Hret)
    as [segments' [n' [Hs' [_ [_ [_ [_ [_ [_ [Hat _]]]]]]]]]].
  rewrite Hs in Hs'. inversion Hs'; subst segments' n'.
  destruct (parse_segment_ok _ _ _ _ _ (Hat i segment empty_command Hi))
    as [_ [st' [T [I [E _]]]]].
  exists st'. auto.
Qed.

(** The same, seen from a point the loop has reached. *)
Lemma segment_run_from line commands num segments n i segment st s :
  MAX_PIPE <= length commands ->
  split_segments (Some line) [] 0 = inr (segments, n) ->
  nth_error segments i = Some segment ->
  reaches i n init_tok (Some (trim_whitespace segment)) st (Some s) ->
  ret (parse_command (Some line) commands num) = 0%Z ->
  tok_inv st /\ background (cmd st) = false /\
  exists st',
    match token_step i n st s with
    | Next st1 p1 => tokenize i n st1 p1
    | Break st1 => (None, st1)
    | Fail e st1 => (Some e, st1)
    end = (None, st') /\
    tok_inv st' /\ stage (parse_command (Some line) commands num) i = cmd st'.
Proof.
  intros Hlen Hs Hi Hr Hret.
  destruct (segment_run _ _ _ _ _ _ _ Hlen Hs Hi Hret) as [st' [T [I E]]].
  destruct (reaches_inv _ _ _ _ _ _ Hr init_tok_inv) as [I0 [_ B]].
  split; [assumption|split; [exact B|]].
  exists st'. rewrite (reaches_tokenize _ _ _ _ _ _ Hr), tokenize_eq in T. auto.
Qed.
(** The operand of a redirection, on an accepted line: whatever token it
    is, the loop stores it as the file name and goes on with the text after
    it, the background flag still clear. *)
Lemma operand_taken_input line commands num segments n i segment st rest file rest' :
  MAX_PIPE <= length commands ->
  split_segments (Some line) [] 0 = inr (segments, n) ->
  nth_error segments i = Some segment ->
  meets i n segment st "<" rest ->
  next_operand rest = (Some file, rest') ->
  ret (parse_command (Some line) commands num) = 0%Z ->
  reaches i n init_tok (Some (trim_whitespace segment)) (set_input st file) rest' /\
  background (cmd (set_input st file)) = false /\
  input_file (stage (parse_command (Some line) commands num) i) = Some file.
Proof.
  intros Hlen Hs Hi [s [Hr Hsep]] Hop Hret.
  destruct (segment_run_from _ _ _ _ _ _ _ _ _ Hlen Hs Hi Hr Hret)
    as [Inv [Hbg [st' [T [_ E]]]]].
  pose proof (token_step_input i n st s rest Hsep) as Hstep. rewrite Hop in Hstep.
  rewrite Hstep in T.
  destruct (0 <? input_count st)%nat eqn:Hc; [discriminate|].
  split; [|split].
  - eapply reaches_trans; [exact Hr|].
    eapply reaches_next; [exact Hstep|apply reaches_here].
  - exact Hbg.
  - destruct (tokenize_ok _ _ _ _ _ (step_next_inv _ _ _ _ _ _ Inv Hstep) T)
      as [_ [[_ Hin _ _ _] _]].
    rewrite E. apply Hin. reflexivity.
Qed.

Lemma operand_taken_output line commands num segments n i segment st rest file rest' :
  MAX_PIPE <= length commands ->
  split_segments (Some line) [] 0 = inr (segments, n) ->
  nth_error segments i = Some segment ->
  meets i n segment st ">" rest ->
  next_operand rest = (Some file, rest') ->
  ret (parse_command (Some line) commands num) = 0%Z ->
  reaches i n init_tok (Some (trim_whitespace segment)) (set_output st file) rest' /\
  background (cmd (set_output st file)) = false /\
  output_file (stage (parse_command (Some line) commands num) i) = Some file.
Proof.
  intros Hlen Hs Hi [s [Hr Hsep]] Hop Hret.
  destruct (segment_run_from _ _ _ _ _ _ _ _ _ Hlen Hs Hi Hr Hret)
    as [Inv [Hbg [st' [T [_ E]]]]].
  pose proof (token_step_output i n st s rest Hsep) as Hstep. rewrite Hop in Hstep.
  rewrite Hstep in T.
  destruct (0 <? output_count st)%nat eqn:Hc; [discriminate|].
  split; [|split].
  - eapply reaches_trans; [exact Hr|].
    eapply reaches_next; [exact Hstep|apply reaches_here].
  - exact Hbg.
  - destruct (tokenize_ok _ _ _ _ _ (step_next_inv _ _ _ _ _ _ Inv Hstep) T)
      as [_ [[_ _ Hout _ _] _]].
    rewrite E. apply Hout. reflexivity.
Qed.

(** * The claims *)

(** ** Number of stages *)

(** C1. A line of [N] pipe-separated segments that parses without error
    yields exactly [N] stages, with [1 <= N <= MAX_PIPE]: the count
    written through [num_commands] is [N], and each of the stages
    [0 .. N-1] has a non-empty argument list. *)
Theorem parse_command_stage_count (line : string) (commands : list Command) (num : Z) :
  MAX_PIPE <= length commands ->
  ret (parse_command (Some line) commands num) = 0%Z ->
  1 <= S (count_pipes line) <= MAX_PIPE /\
  num_commands_out (parse_command (Some line) commands num) =
    Z.of_nat (S (count_pipes line)) /\
  forall i, i < S (count_pipes line) ->
    args (stage (parse_command (Some line) commands num) i) <> [].
Proof.
  intros Hlen Hret.
  destruct (parse_command_valid _ _ _ Hlen Hret) as [[Hc Ha _ _] Hn].
  split; [assumption|split; [assumption|]].
  intros i Hi. apply (Ha i Hi).
Qed.

Lemma parse_command_stage_count_witness :
  1 <= 3 <= MAX_PIPE /\
  num_commands_out (parse_command (Some "ls -la | grep foo | wc") blank_commands 0) = 3%Z /\
  forall i, i < 3 ->
    args (stage (parse_command (Some "ls -la | grep foo | wc") blank_commands 0) i) <> [].
Proof.
  apply (parse_command_stage_count "ls -la | grep foo | wc" blank_commands 0).
  - apply le_n.
  - vm_compute. reflexivity.
Defined.

(** ** Purity *)

(** C9. The outcome of [parse_command] is a function of the line alone:
    two runs on the same text, whatever the array and the counter they are
    given held before, return the same value, print the same diagnostic,
    and on success yield the same number of stages and, stage by stage,
    the same arguments, input source, output sink and background flag. *)
Theorem parse_command_pure (line : string) (commands1 commands2 : list Command)
  (num1 num2 : Z) :
  MAX_PIPE <= length commands1 -> MAX_PIPE <= length commands2 ->
  ret (parse_command (Some line) commands1 num1) =
  ret (parse_command (Some line) commands2 num2) /\
  stderr_out (parse_command (Some line) commands1 num1) =
  stderr_out (parse_command (Some line) commands2 num2) /\
  (ret (parse_command (Some line) commands1 num1) = 0%Z ->
   num_commands_out (parse_command (Some line) commands1 num1) =
   num_commands_out (parse_command (Some line) commands2 num2) /\
   forall i, (Z.of_nat i < num_commands_out (parse_command (Some line) commands1 num1))%Z ->
     args (stage (parse_command (Some line) commands1 num1) i) =
     args (stage (parse_command (Some line) commands2 num2) i) /\
     input_file (stage (parse_command (Some line) commands1 num1) i) =
     input_file (stage (parse_command (Some line) commands2 num2) i) /\
     output_file (stage (parse_command (Some line) commands1 num1) i) =
     output_file (stage (parse_command (Some line) commands2 num2) i) /\
     background (stage (parse_command (Some line) commands1 num1) i) =
     background (stage (parse_command (Some line) commands2 num2) i)).
Proof.
  intros L1 L2.
  destruct (parse_command_array line commands1 num1 commands2 num2 L1 L2) as [R [E S']].
  split; [assumption|split; [assumption|]].
  intros Hret. destruct (S' Hret) as [N St]. split; [assumption|].
  intros i Hi.
  destruct (parse_command_valid _ _ _ L1 Hret) as [_ Hn]. rewrite Hn in Hi.
  rewrite (St i) by lia. repeat split; reflexivity.
Qed.

Lemma parse_command_pure_witness :
  ret (parse_command (Some "sort < data | uniq > out &") blank_commands 0) =
  ret (parse_command (Some "sort < data | uniq > out &") used_commands 5) /\
  stage (parse_command (Some "sort < data | uniq > out &") blank_commands 0) 1 =
  {| args := ["uniq"]; input_file := None; output_file := Some "out"; background := true |} /\
  args (stage (parse_command (Some "sort < data | uniq > out &") blank_commands 0) 1) =
  args (stage (parse_command (Some "sort < data | uniq > out &") used_commands 5) 1).
Proof.
  pose proof (parse_command_pure "sort < data | uniq > out &"
                blank_commands used_commands 0 5 (le_n _) (le_n _)) as [R [_ S']].
  split; [exact R|]. split; [vm_compute; reflexivity|].
  destruct (S' ltac:(vm_compute; reflexivity)) as [_ St].
  destruct (St 1 ltac:(vm_compute; reflexivity)) as [A _]. exact A.
Defined.

(** ** Control signals *)

(** C3. For a number of commands within the capacity of [pids],
    [execute_commands] intercepts built-ins only in a pipeline of one
    stage.  A single [exit] hands back 2 and does nothing else (the process
    state, trace included, is untouched).  A pipeline that is not a single
    built-in hands back 1 in the shell process, that is, when [fork] never
    answers 0; with several stages it never hands back 2 nor changes the
    working directory, whatever the stages are called.  Whenever the call
    returns, the value is 1 or 2. *)
Theorem execute_commands_control (K : kernel) (commands : list Command)
  (num_commands : Z) (p : process) :
  (num_commands <= Z.of_nat MAX_PIPE)%Z ->
  (num_commands = 1%Z -> program (nth 0 commands empty_command) = Some "exit" ->
   execute_commands K commands num_commands p = (Returns 2%Z, p)) /\
  (~ is_builtin commands num_commands -> in_parent K ->
   fst (execute_commands K commands num_commands p) = Returns 1%Z) /\
  (num_commands <> 1%Z ->
   fst (execute_commands K commands num_commands p) <> Returns 2%Z /\
   cwd (snd (execute_commands K commands num_commands p)) = cwd p) /\
  (forall v, fst (execute_commands K commands num_commands p) = Returns v ->
             v = 1%Z \/ v = 2%Z).
Proof.
  intros _. split; [|split; [|split]].
  - intros -> Hexit. apply execute_exit; assumption.
  - intros Hb HK. destruct (execute_not_builtin K commands num_commands p Hb) as [E|E];
      rewrite E; [reflexivity|]. apply run_pipeline_parent; assumption.
  - intros Hn.
    assert (Hb : ~ is_builtin commands num_commands) by (intros [H _]; contradiction).
    destruct (execute_not_builtin K commands num_commands p Hb) as [E|E]; rewrite E.
    + split; [discriminate|reflexivity].
    + split; [|apply keeps_run_pipeline].
      intros H. apply run_pipeline_value in H. discriminate.
  - intros v Hv.
    destruct (execute_cases K commands num_commands p) as [[_ [_ E]]|[[_ [_ E]]|[_ [E|E]]]].
    + rewrite E in Hv. inversion Hv. right; reflexivity.
    + rewrite E in Hv. inversion Hv. left; reflexivity.
    + rewrite E in Hv. inversion Hv. left; reflexivity.
    + rewrite E in Hv. apply run_pipeline_value in Hv. left; assumption.
Qed.

Lemma execute_commands_control_witness :
  execute_commands sample_kernel
    [{| args := ["exit"]; input_file := None; output_file := None; background := false |}]
    1 sample_process = (Returns 2%Z, sample_process) /\
  fst (execute_commands sample_kernel exit_cd_pipeline 2 sample_process) = Returns 1%Z /\
  cwd (snd (execute_commands sample_kernel exit_cd_pipeline 2 sample_process)) = "/tmp" /\
  fork_calls (trace (snd (execute_commands sample_kernel exit_cd_pipeline 2 sample_process))) = 2.
Proof.
  split; [|split; [|split]].
  - apply (execute_commands_control sample_kernel _ 1 sample_process);
      [vm_compute; discriminate|reflexivity|reflexivity].
  - apply (execute_commands_control sample_kernel exit_cd_pipeline 2 sample_process).
    + vm_compute; discriminate.
    + intros [H _]; discriminate.
    + intros t. unfold sample_kernel, fork_reply. lia.
  - apply (execute_commands_control sample_kernel exit_cd_pipeline 2 sample_process).
    + vm_compute; discriminate.
    + discriminate.
  - vm_compute. reflexivity.
Defined.

(** ** The [cd] built-in *)

(** C7. A single-stage [cd] calls [chdir] on its argument when it has one,
    on the value of [HOME] when it has none, and on ["."] when [HOME] is
    unset as well.  When [chdir] succeeds the working directory is the one
    the kernel resolved; when it fails, one line naming that path and the
    text of [errno] goes to [stderr] and the working directory is what it
    was.  Either way [execute_commands] returns 1, and nothing else
    happens. *)
Theorem cd_builtin (K : kernel) (commands : list Command) (p : process) :
  program (nth 0 commands empty_command) = Some "cd" ->
  forall dir,
  dir = match args (nth 0 commands empty_command) with
        | _ :: d :: _ => d
        | _ => match home K with Some h => h | None => "." end
        end ->
  (forall newdir, chdir_reply K (cwd p) dir = inr newdir ->
     execute_commands K commands 1 p =
     (Returns 1%Z,
      {| cwd := newdir; errno := errno p; trace := Chdir dir 0 :: trace p |})) /\
  (forall e, chdir_reply K (cwd p) dir = inl e ->
     execute_commands K commands 1 p =
     (Returns 1%Z,
      {| cwd := cwd p; errno := e;
         trace := Stderr ("cd: " ++ dir ++ ": " ++ strerror K e ++ newline)
                  :: Chdir dir (-1) :: trace p |})).
Proof.
  intros Hcd dir Hdir.
  assert (Ht : cd_target K (nth 0 commands empty_command) = dir).
  { subst dir. unfold cd_target, program in *.
    destruct (args (nth 0 commands empty_command)) as [|a [|d l]]; reflexivity. }
  rewrite (execute_cd K commands p Hcd), Ht.
  split; intros x Hx; rewrite Hx; reflexivity.
Qed.

Lemma cd_builtin_witness :
  execute_commands sample_kernel (cd_command []) 1 sample_process =
  (Returns 1%Z, {| cwd := "/home/user"; errno := 0; trace := [Chdir "/home/user" 0] |}) /\
  execute_commands sample_kernel (cd_command ["/nonexistent"]) 1 sample_process =
  (Returns 1%Z,
   {| cwd := "/tmp"; errno := ENOENT;
      trace := [Stderr ("cd: /nonexistent: No such file or directory" ++ newline)%string;
                Chdir "/nonexistent" (-1)] |}).
Proof.
  split.
  - apply (cd_builtin sample_kernel (cd_command []) sample_process eq_refl
             "/home/user" eq_refl).
    reflexivity.
  - apply (cd_builtin sample_kernel (cd_command ["/nonexistent"]) sample_process eq_refl
             "/nonexistent" eq_refl).
    reflexivity.
Defined.

(** ** Redirections inside a pipeline *)

(** C2. In a pipeline of several stages that [parse_command] accepts, no
    stage but the first has an input file and no stage but the last has an
    output file.  A line whose segments all parse but whose stages break
    that rule is rejected: the call returns -1 without writing the stage
    count, the one diagnostic it prints carries the 1-based index of the
    first offending stage, and the iteration of [main] that read the line
    goes on to the next one without calling [fork]. *)
Theorem pipeline_redirection_rule (K : kernel) (line : string)
  (commands : list Command) (num : Z) :
  MAX_PIPE <= length commands ->
  (ret (parse_command (Some line) commands num) = 0%Z ->
   1 < S (count_pipes line) ->
   forall i, i < S (count_pipes line) ->
     (i <> 0 -> input_file (stage (parse_command (Some line) commands num) i) = None) /\
     (i <> count_pipes line ->
      output_file (stage (parse_command (Some line) commands num) i) = None)) /\
  (forall segments n stages,
     split_segments (Some line) [] 0 = inr (segments, n) ->
     parse_segments 0 n segments commands = (None, stages) ->
     1 < n ->
     (exists i, i < n /\ ~ redirection_ok n i (nth i stages empty_command)) ->
     ret (parse_command (Some line) commands num) = (-1)%Z /\
     num_commands_out (parse_command (Some line) commands num) = num /\
     (exists i, i < n /\ ~ redirection_ok n i (nth i stages empty_command) /\
        (stderr_out (parse_command (Some line) commands num) =
           [("input redirection not allowed for command " ++ fmt_nat (i + 1) ++
             " in pipeline" ++ newline)%string] \/
         stderr_out (parse_command (Some line) commands num) =
           [("output redirection not allowed for command " ++ fmt_nat (i + 1) ++
             " in pipeline" ++ newline)%string])) /\
     (forall input_line v p,
        trim_whitespace (chomp input_line) = line ->
        sh_commands v = commands -> sh_num_commands v = num ->
        exists v' p',
          main_iteration K (Some input_line) v p = (Returns (LoopContinue, v'), p') /\
          fork_calls (trace p') = fork_calls (trace p))).
Proof.
  intros Hlen. split.
  - intros Hret Hn i Hi.
    destruct (parse_command_valid _ _ _ Hlen Hret) as [[_ _ Hr _] _].
    destruct (Hr Hn i Hi) as [A B]. split; [exact A|].
    intros Hl. apply B. lia.
  - intros segments n stages Hs Hp Hn [i [Hi Hv]].
    assert (R : ret (parse_command (Some line) commands num) = (-1)%Z /\
                num_commands_out (parse_command (Some line) commands num) = num /\
                exists j, j < n /\ ~ redirection_ok n j (nth j stages empty_command) /\
                  (stderr_out (parse_command (Some line) commands num) =
                     [message (ErrInputNotAllowed (j + 1))] \/
                   stderr_out (parse_command (Some line) commands num) =
                     [message (ErrOutputNotAllowed (j + 1))])).
    { unfold parse_command. rewrite Hs, Hp.
      destruct (Nat.ltb_spec 1 n); [|lia].
      pose proof (check_redirections_spec n 0 n stages) as Hc.
      destruct (check_redirections 0 n n stages) as [e|].
      - destruct Hc as [j [Hj [_ Hviol]]]. simpl.
        split; [reflexivity|split; [reflexivity|]].
        exists j. split; [lia|].
        destruct Hviol as [[J0 [Jf ->]]|[Jl [Jf ->]]].
        + split; [|left; reflexivity]. intros [A _]. apply Jf, A, J0.
        + split; [|right; reflexivity]. intros [_ B]. apply Jf, B, Jl.
      - exfalso. apply Hv. apply Hc. lia. }
    destruct R as [R1 [R2 R3]].
    split; [assumption|split; [assumption|split; [exact R3|]]].
    intros input_line v p Hline Hc Hnum. subst line commands num.
    destruct (rejected_line K input_line v p) as [v' [p' [E [_ [F _]]]]].
    { rewrite R1. discriminate. }
    exists v', p'. split; assumption.
Qed.

Lemma pipeline_redirection_rule_witness :
  (forall i, i < 2 ->
     (i <> 0 ->
      input_file (stage (parse_command (Some "sort < in.txt | uniq > out.txt")
                           blank_commands 0) i) = None) /\
     (i <> 1 ->
      output_file (stage (parse_command (Some "sort < in.txt | uniq > out.txt")
                            blank_commands 0) i) = None)) /\
  ret (parse_command (Some "cmd1 | cmd2 < in.txt") blank_commands 0) = (-1)%Z /\
  stderr_out (parse_command (Some "cmd1 | cmd2 < in.txt") blank_commands 0) =
    [("input redirection not allowed for command 2 in pipeline" ++ newline)%string].
Proof.
  split; [|split].
  - apply (pipeline_redirection_rule sample_kernel "sort < in.txt | uniq > out.txt"
             blank_commands 0 (le_n _)).
    + vm_compute. reflexivity.
    + vm_compute. lia.
  - eapply (pipeline_redirection_rule sample_kernel "cmd1 | cmd2 < in.txt"
              blank_commands 0 (le_n _)).
    + vm_compute. reflexivity.
    + vm_compute. reflexivity.
    + lia.
    + exists 1. split; [lia|]. vm_compute. intros [A _].
      specialize (A ltac:(discriminate)). discriminate.
  - vm_compute. reflexivity.
Defined.

(** ** Syntax errors *)

(** C8. [parse_command] returns 0 or -1.  When it returns 0 the stages it
    wrote form a validated pipeline and nothing was printed.  When it
    returns -1 the [int] behind [num_commands] is left as it was, and the
    loop of [main] that read the line goes on to the next line: that
    iteration calls neither [fork] nor [chdir] and [execute_commands] is
    not run. *)
Theorem syntax_error_recoverable (K : kernel) (line : string)
  (commands : list Command) (num : Z) :
  MAX_PIPE <= length commands ->
  (ret (parse_command (Some line) commands num) = 0%Z \/
   ret (parse_command (Some line) commands num) = (-1)%Z) /\
  (ret (parse_command (Some line) commands num) = 0%Z ->
   valid_pipeline (commands_out (parse_command (Some line) commands num))
     (Z.to_nat (num_commands_out (parse_command (Some line) commands num))) /\
   stderr_out (parse_command (Some line) commands num) = []) /\
  (ret (parse_command (Some line) commands num) = (-1)%Z ->
   num_commands_out (parse_command (Some line) commands num) = num /\
   (exists e, stderr_out (parse_command (Some line) commands num) = [message e]) /\
   forall input_line v p,
     trim_whitespace (chomp input_line) = line ->
     sh_commands v = commands -> sh_num_commands v = num ->
     exists v' p',
       main_iteration K (Some input_line) v p = (Returns (LoopContinue, v'), p') /\
       sh_num_commands v' = num /\
       fork_calls (trace p') = fork_calls (trace p) /\
       cwd p' = cwd p /\
       forall stdin, main_loop K (input_line :: stdin) v p = main_loop K stdin v' p').
Proof.
  intros Hlen. split; [apply parse_command_ret|split].
  - intros Hret.
    destruct (parse_command_valid _ _ _ Hlen Hret) as [V N].
    destruct (parse_command_success _ _ _ Hlen Hret) as [_ [_ [_ [_ [_ [_ [_ [E _]]]]]]]].
    rewrite N, Nat2Z.id. split; assumption.
  - intros Hret.
    assert (Hne : ret (parse_command (Some line) commands num) <> 0%Z)
      by (rewrite Hret; discriminate).
    destruct (parse_command_failure _ _ _ Hne) as [Hnum Herr].
    split; [assumption|split; [apply (Herr line eq_refl)|]].
    intros input_line v p Hline Hc Hn. subst line commands num.
    destruct (rejected_line K input_line v p Hne) as [v' [p' [E [N [F [C L]]]]]].
    exists v', p'. auto.
Qed.

Lemma syntax_error_recoverable_witness :
  ret (parse_command (Some "a > b > c") blank_commands 7) = (-1)%Z /\
  num_commands_out (parse_command (Some "a > b > c") blank_commands 7) = 7%Z /\
  valid_pipeline (commands_out (parse_command (Some "echo hi > out.txt") blank_commands 7)) 1.
Proof.
  split; [vm_compute; reflexivity|]. split.
  - apply (syntax_error_recoverable sample_kernel "a > b > c" blank_commands 7 (le_n _)).
    vm_compute. reflexivity.
  - apply (syntax_error_recoverable sample_kernel "echo hi > out.txt" blank_commands 7
             (le_n _)).
    vm_compute. reflexivity.
Defined.

(** ** Built-ins come first *)

(** C10. For a single stage called [exit] or [cd], [execute_commands]
    does what it would do had the stage no redirection and no background
    flag: these fields are never read.  The call prints nothing on standard
    output, opens no file and does not fork.  In particular the line
    ["exit &"] parses to a background stage and executing it returns 2 with
    the process untouched; the line ["cd dir > file"] parses to a stage with
    output file ["file"], and executing it calls [chdir("dir")] and nothing
    else but the report of a failure. *)
Theorem builtin_before_redirection (K : kernel) (commands : list Command) (p : process) :
  program (nth 0 commands empty_command) = Some "exit" \/
  program (nth 0 commands empty_command) = Some "cd" ->
  execute_commands K commands 1 p =
    execute_commands K [bare (nth 0 commands empty_command)] 1 p /\
  printed (trace (snd (execute_commands K commands 1 p))) = printed (trace p) /\
  opened (trace (snd (execute_commands K commands 1 p))) = opened (trace p) /\
  fork_calls (trace (snd (execute_commands K commands 1 p))) = fork_calls (trace p) /\
  (forall array num, MAX_PIPE <= length array ->
     stage (parse_command (Some "exit &") array num) 0 =
       {| args := ["exit"]; input_file := None; output_file := None; background := true |} /\
     num_commands_out (parse_command (Some "exit &") array num) = 1%Z /\
     execute_commands K (commands_out (parse_command (Some "exit &") array num))
       (num_commands_out (parse_command (Some "exit &") array num)) p =
     (Returns 2%Z, p)) /\
  (forall array num, MAX_PIPE <= length array ->
     stage (parse_command (Some "cd dir > file") array num) 0 =
       {| args := ["cd"; "dir"]; input_file := None; output_file := Some "file";
          background := false |} /\
     num_commands_out (parse_command (Some "cd dir > file") array num) = 1%Z /\
     execute_commands K (commands_out (parse_command (Some "cd dir > file") array num))
       (num_commands_out (parse_command (Some "cd dir > file") array num)) p =
     match chdir_reply K (cwd p) "dir" with
     | inr dir =>
         (Returns 1%Z, {| cwd := dir; errno := errno p; trace := Chdir "dir" 0 :: trace p |})
     | inl e =>
         (Returns 1%Z,
          {| cwd := cwd p; errno := e;
             trace := Stderr ("cd: dir: " ++ strerror K e ++ newline)
                      :: Chdir "dir" (-1) :: trace p |})
     end).
Proof.
  intros Hb. split; [|split; [|split; [|split; [|split]]]].
  - destruct Hb as [Hb|Hb].
    + rewrite !execute_exit; auto.
    + rewrite !execute_cd; auto.
  - destruct Hb as [Hb|Hb].
    + rewrite execute_exit; auto.
    + rewrite execute_cd by assumption.
      destruct (chdir_reply K (cwd p) _); reflexivity.
  - destruct Hb as [Hb|Hb].
    + rewrite execute_exit; auto.
    + rewrite execute_cd by assumption.
      destruct (chdir_reply K (cwd p) _); reflexivity.
  - destruct Hb as [Hb|Hb].
    + rewrite execute_exit; auto.
    + rewrite execute_cd by assumption.
      destruct (chdir_reply K (cwd p) _); reflexivity.
  - intros array num Hlen.
    destruct (parse_command_at "exit &" array num Hlen ltac:(vm_compute; reflexivity))
      as [_ [N St]].
    specialize (St 0 ltac:(vm_compute; lia)).
    assert (S0 : stage (parse_command (Some "exit &") array num) 0 =
                 {| args := ["exit"]; input_file := None; output_file := None;
                    background := true |}) by (rewrite St; vm_compute; reflexivity).
    assert (N1 : num_commands_out (parse_command (Some "exit &") array num) = 1%Z)
      by (rewrite N; vm_compute; reflexivity).
    split; [assumption|split; [assumption|]].
    rewrite N1. apply execute_exit. fold (stage (parse_command (Some "exit &") array num) 0).
    rewrite S0. reflexivity.
  - intros array num Hlen.
    destruct (parse_command_at "cd dir > file" array num Hlen ltac:(vm_compute; reflexivity))
      as [_ [N St]].
    specialize (St 0 ltac:(vm_compute; lia)).
    assert (S0 : stage (parse_command (Some "cd dir > file") array num) 0 =
                 {| args := ["cd"; "dir"]; input_file := None; output_file := Some "file";
                    background := false |}) by (rewrite St; vm_compute; reflexivity).
    assert (N1 : num_commands_out (parse_command (Some "cd dir > file") array num) = 1%Z)
      by (rewrite N; vm_compute; reflexivity).
    split; [assumption|split; [assumption|]].
    rewrite N1. rewrite execute_cd.
    + fold (stage (parse_command (Some "cd dir > file") array num) 0). rewrite S0.
      reflexivity.
    + fold (stage (parse_command (Some "cd dir > file") array num) 0). rewrite S0.
      reflexivity.
Qed.

Lemma builtin_before_redirection_witness :
  execute_commands sample_kernel
    [{| args := ["cd"; "dir"]; input_file := Some "in"; output_file := Some "file";
        background := true |}] 1 sample_process =
  execute_commands sample_kernel
    [{| args := ["cd"; "dir"]; input_file := None; output_file := None;
        background := false |}] 1 sample_process /\
  opened (trace (snd (execute_commands sample_kernel
    [{| args := ["cd"; "dir"]; input_file := Some "in"; output_file := Some "file";
        background := true |}] 1 sample_process))) = [].
Proof.
  split.
  - apply (builtin_before_redirection sample_kernel
      [{| args := ["cd"; "dir"]; input_file := Some "in"; output_file := Some "file";
          background := true |}] sample_process).
    right. reflexivity.
  - apply (builtin_before_redirection sample_kernel
      [{| args := ["cd"; "dir"]; input_file := Some "in"; output_file := Some "file";
          background := true |}] sample_process).
    right. reflexivity.
Defined.

(** ** Limits *)

(** C6. A segment of [k] positional arguments parses when
    [k <= MAX_ARGS - 1] (so with exactly 127) and is a syntax error when
    [k >= MAX_ARGS] (so with exactly 128); a line of [k] pipe-separated
    segments parses when [k <= MAX_PIPE] (so with exactly 16) and is a
    syntax error when [k >= MAX_PIPE + 1] (so with exactly 17).  The
    arguments, and the one-word segments, are arbitrary plain words. *)
Theorem argument_and_segment_limits (ws : list string) (commands : list Command) (num : Z) :
  MAX_PIPE <= length commands ->
  ws <> [] -> Forall (fun w => plain_word w = true) ws ->
  (length ws <= MAX_ARGS - 1 ->
   ret (parse_command (Some (String.concat " " ws)) commands num) = 0%Z /\
   num_commands_out (parse_command (Some (String.concat " " ws)) commands num) = 1%Z /\
   stage (parse_command (Some (String.concat " " ws)) commands num) 0 =
     {| args := ws; input_file := None; output_file := None; background := false |}) /\
  (MAX_ARGS <= length ws ->
   ret (parse_command (Some (String.concat " " ws)) commands num) = (-1)%Z /\
   stderr_out (parse_command (Some (String.concat " " ws)) commands num) =
     [("too many arguments (max 127)" ++ newline)%string]) /\
  (length ws <= MAX_PIPE ->
   ret (parse_command (Some (String.concat "|" ws)) commands num) = 0%Z /\
   num_commands_out (parse_command (Some (String.concat "|" ws)) commands num) =
     Z.of_nat (length ws) /\
   forall i w, nth_error ws i = Some w ->
     stage (parse_command (Some (String.concat "|" ws)) commands num) i =
     {| args := [w]; input_file := None; output_file := None; background := false |}) /\
  (MAX_PIPE + 1 <= length ws ->
   ret (parse_command (Some (String.concat "|" ws)) commands num) = (-1)%Z /\
   stderr_out (parse_command (Some (String.concat "|" ws)) commands num) =
     [("shell: too many pipeline segments (max 16)" ++ newline)%string]).
Proof.
  intros Hlen Hne Hall.
  assert (Hlen0 : 0 < length commands) by (unfold MAX_PIPE in Hlen; lia).
  destruct (concat_words_first " " ws Hne Hall) as [c0 [s0 [E0 _]]].
  assert (Hline : String.concat " " ws <> "") by (rewrite E0; discriminate).
  pose proof (parse_command_single _ commands num Hlen0 Hline (no_pipe_words ws Hall)) as P.
  destruct (parse_segment_words 0 1 ws (nth 0 commands empty_command) Hne Hall) as [W1 W2].
  split; [|split; [|split]].
  - intros Hk. rewrite P, (W1 Hk). unfold stage. cbn [ret num_commands_out commands_out].
    rewrite nth_store_same by assumption. auto.
  - intros Hk. destruct (W2 ltac:(unfold MAX_ARGS in *; lia)) as [c Hc].
    rewrite P, Hc. split; reflexivity.
  - intros Hk.
    destruct (split_segments_words ws [] 0 Hne Hall) as [S1 _].
    specialize (S1 ltac:(simpl; lia)). cbn [app Nat.add] in S1.
    assert (Hseg : forall k segment, nth_error ws k = Some segment ->
              forall old, parse_segment (0 + k) (length ws) segment old =
                (None, {| args := [segment]; input_file := None; output_file := None;
                          background := false |})).
    { intros k segment Hk' old.
      assert (Hw : plain_word segment = true).
      { rewrite Forall_forall in Hall. apply Hall. eapply nth_error_In; eauto. }
      destruct (parse_segment_words (0 + k) (length ws) [segment] old
                  ltac:(discriminate) (Forall_cons _ Hw (Forall_nil _))) as [A _].
      apply A. unfold MAX_ARGS. simpl. lia. }
    destruct (parse_segments_all ws 0 (length ws) commands ltac:(simpl; lia)) as [stages Hp].
    { intros k segment Hk'. eexists. apply (Hseg k segment Hk'). }
    destruct (parse_segments_ok _ _ _ _ _ Hp ltac:(simpl; lia)) as [_ [_ Hat]].
    assert (Hst : forall i w, nth_error ws i = Some w ->
              nth i stages empty_command =
              {| args := [w]; input_file := None; output_file := None;
                 background := false |}).
    { intros i w Hi. pose proof (Hat i w empty_command Hi) as H1.
      rewrite (Hseg i w Hi) in H1. inversion H1. reflexivity. }
    assert (Hc : (if (1 <? length ws)%nat
                  then check_redirections 0 (length ws) (length ws) stages
                  else None) = None).
    { destruct (1 <? length ws)%nat; [|reflexivity].
      pose proof (check_redirections_spec (length ws) 0 (length ws) stages) as C.
      destruct (check_redirections 0 (length ws) (length ws) stages) as [e|]; [|reflexivity].
      destruct C as [j [Hj [_ Hviol]]].
      destruct (nth_error ws j) as [w|] eqn:Ej; [|apply nth_error_None in Ej; lia].
      rewrite (Hst j w Ej) in Hviol. simpl in Hviol.
      destruct Hviol as [[_ [F _]]|[_ [F _]]]; contradiction. }
    unfold stage, parse_command. rewrite S1, Hp, Hc. cbn [ret num_commands_out commands_out].
    split; [reflexivity|split; [reflexivity|exact Hst]].
  - intros Hk.
    destruct (split_segments_words ws [] 0 Hne Hall) as [_ S2].
    specialize (S2 ltac:(simpl; lia)).
    unfold parse_command. rewrite S2. split; reflexivity.
Qed.

Lemma argument_and_segment_limits_witness :
  ret (parse_command (Some (String.concat " " (repeat "x" 127))) blank_commands 0) = 0%Z /\
  ret (parse_command (Some (String.concat " " (repeat "x" 128))) blank_commands 0) = (-1)%Z /\
  ret (parse_command (Some (String.concat "|" (repeat "x" 16))) blank_commands 0) = 0%Z /\
  ret (parse_command (Some (String.concat "|" (repeat "x" 17))) blank_commands 0) = (-1)%Z.
Proof.
  assert (Hx : forall k, Forall (fun w => plain_word w = true) (repeat "x" k)).
  { intros k. apply Forall_forall. intros w Hw. apply repeat_spec in Hw. subst w.
    reflexivity. }
  split; [|split; [|split]].
  - destruct (argument_and_segment_limits (repeat "x" 127) blank_commands 0 (le_n _)
                ltac:(discriminate) (Hx 127)) as [A _].
    apply A. rewrite repeat_length. apply le_n.
  - destruct (argument_and_segment_limits (repeat "x" 128) blank_commands 0 (le_n _)
                ltac:(discriminate) (Hx 128)) as [_ [B _]].
    apply B. rewrite repeat_length. apply le_n.
  - destruct (argument_and_segment_limits (repeat "x" 16) blank_commands 0 (le_n _)
                ltac:(discriminate) (Hx 16)) as [_ [_ [C _]]].
    apply C. rewrite repeat_length. apply le_n.
  - destruct (argument_and_segment_limits (repeat "x" 17) blank_commands 0 (le_n _)
                ltac:(discriminate) (Hx 17)) as [_ [_ [_ D]]].
    apply D. rewrite repeat_length. apply le_n.
Defined.

(** ** The background operator *)

(** C4, as stated, fails: a standalone ["&"] that is the operand of a
    ["<"] the tokenizer classifies is taken as the file name of that
    redirection.  Here it stands in the first of two segments and is
    followed by a pipe, and the line is accepted, with no stage in the
    background. *)
Lemma ampersand_as_file_name :
  split_segments (Some "a < & | b") [] 0 = inr (["a < & "; " b"], 2) /\
  In "&" (standalone_tokens "a < & ") /\
  ret (parse_command (Some "a < & | b") blank_commands 0) = 0%Z /\
  stage (parse_command (Some "a < & | b") blank_commands 0) 0 =
    {| args := ["a"]; input_file := Some "&"; output_file := None; background := false |} /\
  stage (parse_command (Some "a < & | b") blank_commands 0) 1 =
    {| args := ["b"]; input_file := None; output_file := None; background := false |}.
Proof.
  split; [reflexivity|]. split; [vm_compute; auto|].
  split; [vm_compute; reflexivity|]. split; vm_compute; reflexivity.
Qed.

(** C4, amended.  Take a standalone ["&"] that the tokenizer of a segment
    meets as a token to classify, that is, one that is not consumed as the
    file name of a preceding ["<"] or [">"].  If the segment is the last
    one and only whitespace follows the token in it, the tokenizer stops
    there with the background flag set.  If the line is accepted, then the
    segment is the last one, only whitespace follows, the stage is a
    background one and its arguments are those collected before the token.
    In a segment that is not the last, or followed by anything but
    whitespace, the token makes [parse_command] return -1.  Conversely, a
    stage of an accepted line is a background one only if it is the last
    and its tokenizer met such a token.  Last, a standalone ["&"] that is
    the next non-empty token after a ["<"] or a [">"] which the tokenizer
    classifies is the file name of that redirection, in any segment and
    whatever follows it: on an accepted line the loop goes on with the
    text after it, the background flag still clear, and the token is the
    input, respectively output, file of the stage.  (In ["a < < &"] the
    second ["<"] is the operand of the first and is not classified, so the
    ["&"] is: the stage is a background one.) *)
Theorem ampersand_operator (line : string) (commands : list Command) (num : Z)
  (segments : list string) (n : nat) :
  MAX_PIPE <= length commands ->
  split_segments (Some line) [] 0 = inr (segments, n) ->
  (forall i segment st rest,
     nth_error segments i = Some segment ->
     meets i n segment st "&" rest ->
     (i = n - 1 -> only_spaces rest = true ->
      tokenize i n init_tok (Some (trim_whitespace segment)) = (None, set_background st)) /\
     (ret (parse_command (Some line) commands num) = 0%Z ->
      i = n - 1 /\ only_spaces rest = true /\
      background (stage (parse_command (Some line) commands num) i) = true /\
      args (stage (parse_command (Some line) commands num) i) = args (cmd st)) /\
     (i <> n - 1 \/ only_spaces rest = false ->
      ret (parse_command (Some line) commands num) = (-1)%Z)) /\
  (ret (parse_command (Some line) commands num) = 0%Z ->
   forall i, i < n ->
     background (stage (parse_command (Some line) commands num) i) = true ->
     i = n - 1 /\
     exists segment st rest,
       nth_error segments i = Some segment /\ meets i n segment st "&" rest /\
       only_spaces rest = true) /\
  (forall i segment st rest rest',
     nth_error segments i = Some segment ->
     next_operand rest = (Some "&", rest') ->
     ret (parse_command (Some line) commands num) = 0%Z ->
     (meets i n segment st "<" rest ->
      reaches i n init_tok (Some (trim_whitespace segment)) (set_input st "&") rest' /\
      background (cmd (set_input st "&")) = false /\
      input_file (stage (parse_command (Some line) commands num) i) = Some "&") /\
     (meets i n segment st ">" rest ->
      reaches i n init_tok (Some (trim_whitespace segment)) (set_output st "&") rest' /\
      background (cmd (set_output st "&")) = false /\
      output_file (stage (parse_command (Some line) commands num) i) = Some "&")).
Proof.
  intros Hlen Hs. split; [|split].
  - intros i segment st rest Hi [s [Hr Hsep]].
    pose proof (token_step_amp i n st s rest Hsep) as Hstep.
    assert (Hok : ret (parse_command (Some line) commands num) = 0%Z ->
                  i = n - 1 /\ only_spaces rest = true /\
                  background (stage (parse_command (Some line) commands num) i) = true /\
                  args (stage (parse_command (Some line) commands num) i) = args (cmd st)).
    { intros Hret.
      destruct (segment_run_from _ _ _ _ _ _ _ _ _ Hlen Hs Hi Hr Hret)
        as [_ [_ [st' [T [_ E]]]]].
      rewrite Hstep in T.
      destruct (Nat.eqb_spec i (n - 1)) as [Hl|Hl]; cbn [negb] in T; [|discriminate].
      destruct (only_spaces rest); cbn [negb] in T; [|discriminate].
      inversion T; subst st'. rewrite E. auto. }
    split; [|split; [exact Hok|]].
    + intros Hl Ho. rewrite (reaches_tokenize _ _ _ _ _ _ Hr), tokenize_eq, Hstep.
      apply Nat.eqb_eq in Hl. rewrite Hl, Ho. reflexivity.
    + intros Hbad. apply parse_command_ret_error. intros Hret.
      destruct (Hok Hret) as [Hl [Ho _]].
      destruct Hbad as [Hbad|Hbad]; [contradiction|congruence].
  - intros Hret i Hi Hbg.
    destruct (nth_error segments i) as [segment|] eqn:Ei.
    2:{ apply nth_error_None in Ei.
        destruct (split_segments_ok _ _ _ _ _ Hs eq_refl) as [_ [Hl _]]. lia. }
    destruct (segment_run _ _ _ _ _ _ _ Hlen Hs Ei Hret) as [st' [T [_ E]]].
    rewrite E in Hbg.
    destruct (tokenize_ok _ _ _ _ _ init_tok_inv T)
      as [_ [_ [B|[_ [Hl [st1 [s [rest [Hr [Hsep [Ho _]]]]]]]]]]].
    + rewrite B in Hbg. discriminate.
    + split; [assumption|]. exists segment, st1, rest.
      split; [reflexivity|split; [exists s; auto|assumption]].
  - intros i segment st rest rest' Hi Hop Hret. split; intros Hm.
    + exact (operand_taken_input _ _ _ _ _ _ _ _ _ _ _ Hlen Hs Hi Hm Hop Hret).
    + exact (operand_taken_output _ _ _ _ _ _ _ _ _ _ _ Hlen Hs Hi Hm Hop Hret).
Qed.

Lemma ampersand_operator_witness :
  tokenize 0 1 init_tok (Some (trim_whitespace "sleep 5 &  ")) =
    (None,
     {| cmd := {| args := ["sleep"; "5"]; input_file := None; output_file := None;
                  background := true |};
        arg_index := 2; input_count := 0; output_count := 0 |}) /\
  ret (parse_command (Some "cmd &  extra") blank_commands 0) = (-1)%Z /\
  ret (parse_command (Some "a & | b") blank_commands 0) = (-1)%Z /\
  input_file (stage (parse_command (Some "a < & | b") blank_commands 0) 0) = Some "&" /\
  background (stage (parse_command (Some "a < < &") blank_commands 0) 0) = true.
Proof.
  split; [|split; [|split; [|split]]].
  - destruct (ampersand_operator "sleep 5 &  " blank_commands 0 ["sleep 5 &  "] 1
                (le_n _) eq_refl) as [A _].
    destruct (A 0 "sleep 5 &  "
                {| cmd := {| args := ["sleep"; "5"]; input_file := None;
                             output_file := None; background := false |};
                   arg_index := 2; input_count := 0; output_count := 0 |}
                None eq_refl) as [A1 _].
    + exists "&". split; [|reflexivity].
      eapply reaches_next; [vm_compute; reflexivity|].
      eapply reaches_next; [vm_compute; reflexivity|].
      apply reaches_here.
    + apply A1; reflexivity.
  - destruct (ampersand_operator "cmd &  extra" blank_commands 0 ["cmd &  extra"] 1
                (le_n _) eq_refl) as [A _].
    destruct (A 0 "cmd &  extra"
                {| cmd := {| args := ["cmd"]; input_file := None;
                             output_file := None; background := false |};
                   arg_index := 1; input_count := 0; output_count := 0 |}
                (Some " extra") eq_refl) as [_ [_ A3]].
    + exists "&  extra". split; [|reflexivity].
      eapply reaches_next; [vm_compute; reflexivity|].
      apply reaches_here.
    + apply A3. right. reflexivity.
  - destruct (ampersand_operator "a & | b" blank_commands 0 ["a & "; " b"] 2
                (le_n _) eq_refl) as [A _].
    destruct (A 0 "a & "
                {| cmd := {| args := ["a"]; input_file := None;
                             output_file := None; background := false |};
                   arg_index := 1; input_count := 0; output_count := 0 |}
                None eq_refl) as [_ [_ A3]].
    + exists "&". split; [|reflexivity].
      eapply reaches_next; [vm_compute; reflexivity|].
      apply reaches_here.
    + apply A3. left. discriminate.
  - destruct (ampersand_operator "a < & | b" blank_commands 0 ["a < & "; " b"] 2
                (le_n _) eq_refl) as [_ [_ F]].
    destruct (F 0 "a < & "
                {| cmd := {| args := ["a"]; input_file := None;
                             output_file := None; background := false |};
                   arg_index := 1; input_count := 0; output_count := 0 |}
                (Some "&") None eq_refl) as [F1 _].
    + vm_compute. reflexivity.
    + vm_compute. reflexivity.
    + destruct F1 as [_ [_ F3]]; [|exact F3].
      exists "< &". split; [|reflexivity].
      eapply reaches_next; [vm_compute; reflexivity|].
      apply reaches_here.
  - destruct (ampersand_operator "a < < &" blank_commands 0 ["a < < &"] 1
                (le_n _) eq_refl) as [A _].
    destruct (A 0 "a < < &"
                {| cmd := {| args := ["a"]; input_file := Some "<";
                             output_file := None; background := false |};
                   arg_index := 1; input_count := 1; output_count := 0 |}
                None eq_refl) as [_ [A2 _]].
    + exists "&". split; [|reflexivity].
      eapply reaches_next; [vm_compute; reflexivity|].
      eapply reaches_next; [vm_compute; reflexivity|].
      apply reaches_here.
    + apply A2. vm_compute. reflexivity.
Defined.

(** ** The redirection operators *)




(** * Further properties of the functions *)

(** ** [trim_whitespace] *)

Lemma skip_leading_split str :
  exists lead, str = (lead ++ skip_leading str)%string /\ only_spaces_from lead = true.
Proof.
  induction str as [|c s IH]; cbn [skip_leading].
  - exists "". split; reflexivity.
  - destruct (isspace c) eqn:E.
    + destruct IH as [lead [H1 H2]]. exists (String c lead). split.
      * cbn [append]. rewrite <- H1. reflexivity.
      * cbn [only_spaces_from]. rewrite E. exact H2.
    + exists "". split; reflexivity.
Qed.

Lemma cut_trailing_split s :
  exists trail, s = (cut_trailing s ++ trail)%string /\ only_spaces_from trail = true.
Proof.
  induction s as [|c s IH]; cbn [cut_trailing].
  - exists "". split; reflexivity.
  - destruct IH as [trail [H1 H2]].
    destruct (cut_trailing s) as [|d t] eqn:E.
    + cbn [append] in H1. subst trail. destruct (isspace c) eqn:Ec.
      * exists (String c s). split; [reflexivity|].
        cbn [only_spaces_from]. rewrite Ec. exact H2.
      * exists s. split; [reflexivity|exact H2].
    + exists trail. split; [|exact H2]. cbn [append]. cbn [append] in H1.
      rewrite <- H1. reflexivity.
Qed.

Lemma append_assoc_string (a b c : string) : ((a ++ b) ++ c = a ++ (b ++ c))%string.
Proof. induction a as [|x a IH]; cbn [append]; [reflexivity|]. rewrite IH. reflexivity. Qed.

(** X1. [trim_whitespace] removes whitespace only, and only at the two
    ends: the argument is the result between a run of whitespace and a run
    of whitespace. *)
Theorem trim_whitespace_removes_ends (str : string) :
  exists lead trail,
    str = (lead ++ trim_whitespace str ++ trail)%string /\
    only_spaces_from lead = true /\ only_spaces_from trail = true.
Proof.
  destruct (skip_leading_split str) as [lead [H1 H2]].
  unfold trim_whitespace. destruct (skip_leading str) as [|c s] eqn:E.
  - exists lead, "". auto.
  - destruct (cut_trailing_split s) as [trail [T1 T2]].
    exists lead, trail. split; [|auto].
    rewrite H1 at 1. cbn [append]. rewrite <- T1. reflexivity.
Qed.

Lemma skip_leading_first str c :
  first_char (skip_leading str) = Some c -> isspace c = false.
Proof.
  induction str as [|d s IH]; cbn [skip_leading]; [discriminate|].
  destruct (isspace d) eqn:E; [exact IH|].
  cbn. intros H; inversion H; subst; exact E.
Qed.

Lemma cut_trailing_last s c :
  last_char (cut_trailing s) = Some c -> isspace c = false.
Proof.
  induction s as [|d s IH]; cbn [cut_trailing]; [discriminate|].
  destruct (cut_trailing s) as [|e t] eqn:E.
  - destruct (isspace d) eqn:Ed; [discriminate|].
    cbn. intros H; inversion H; subst; exact Ed.
  - cbn [last_char]. exact IH.
Qed.

(** X2. What [trim_whitespace] returns neither starts nor ends with a
    whitespace character. *)
Theorem trim_whitespace_clean_ends (str : string) :
  (forall c, first_char (trim_whitespace str) = Some c -> isspace c = false) /\
  (forall c, last_char (trim_whitespace str) = Some c -> isspace c = false).
Proof.
  unfold trim_whitespace. pose proof (skip_leading_first str) as F.
  destruct (skip_leading str) as [|d s]; [split; intros c H; discriminate|].
  split; [exact F|].
  intros c. pose proof (cut_trailing_last s c) as L.
  cbn [last_char]. destruct (cut_trailing s) as [|e t].
  - intros H. inversion H; subst. apply F. reflexivity.
  - exact L.
Qed.

Lemma cut_trailing_idem s : cut_trailing (cut_trailing s) = cut_trailing s.
Proof.
  induction s as [|c s IH]; cbn [cut_trailing]; [reflexivity|].
  destruct (cut_trailing s) as [|e t] eqn:E.
  - destruct (isspace c) eqn:Ec; [reflexivity|].
    cbn [cut_trailing]. rewrite Ec. reflexivity.
  - cbn [cut_trailing]. cbn [cut_trailing] in IH. rewrite IH. reflexivity.
Qed.

Lemma trim_whitespace_again str :
  trim_whitespace (trim_whitespace str) = trim_whitespace str.
Proof.
  unfold trim_whitespace at 2 3. pose proof (skip_leading_first str) as F.
  destruct (skip_leading str) as [|d s]; [reflexivity|].
  unfold trim_whitespace. cbn [skip_leading]. rewrite (F d eq_refl).
  rewrite cut_trailing_idem. reflexivity.
Qed.

(** X3. Trimming twice is trimming once, and what [trim_whitespace] leaves
    unchanged is what neither starts nor ends with whitespace. *)
Theorem trim_whitespace_idempotent (str : string) :
  trim_whitespace (trim_whitespace str) = trim_whitespace str /\
  (trim_whitespace str = str <->
   (forall c, first_char str = Some c -> isspace c = false) /\
   (forall c, last_char str = Some c -> isspace c = false)).
Proof.
  split; [apply trim_whitespace_again|]. split.
  - intros E. rewrite <- E. unfold trim_whitespace.
    pose proof (skip_leading_first str) as F.
    destruct (skip_leading str) as [|d s]; [split; intros c H; discriminate|].
    split; [exact F|].
    intros c. pose proof (cut_trailing_last s c) as L.
    cbn [last_char]. destruct (cut_trailing s) as [|e t].
    + intros H. inversion H; subst. apply F. reflexivity.
    + exact L.
  - intros [F L]. unfold trim_whitespace. destruct str as [|d s]; [reflexivity|].
    cbn [skip_leading]. rewrite (F d eq_refl). f_equal.
    cbn [last_char] in L. clear F. revert d L.
    induction s as [|e s IH]; intros d L; [reflexivity|].
    cbn [cut_trailing]. rewrite (IH e).
    + destruct s; [|reflexivity].
      rewrite (L e eq_refl). reflexivity.
    + intros c H. apply L. destruct s; exact H.
Qed.

Lemma skip_leading_blank str :
  skip_leading str = "" <-> only_spaces_from str = true.
Proof.
  induction str as [|c s IH]; cbn [skip_leading only_spaces_from].
  - split; reflexivity.
  - destruct (isspace c); [exact IH|]. split; discriminate.
Qed.

(** X4. [trim_whitespace] returns the empty string exactly on the strings
    made of whitespace only (the empty one included): these are the lines
    [main] skips and the segments [parse_command] reports as a missing
    command. *)
Theorem trim_whitespace_blank (str : string) :
  trim_whitespace str = "" <-> only_spaces_from str = true.
Proof.
  rewrite <- skip_leading_blank. unfold trim_whitespace.
  destruct (skip_leading str); split; intros H; try reflexivity; discriminate.
Qed.

(** ** [parse_command]: the split at the pipes *)

Lemma strsep_scan_join delim s : forall token rest,
  strsep_scan delim s = (token, rest) ->
  free_of delim token = true /\
  match rest with
  | None => s = token
  | Some r => exists d, is_delim delim d = true /\ s = (token ++ String d r)%string
  end.
Proof.
  induction s as [|c s IH]; cbn [strsep_scan]; intros token rest H.
  - inversion H; subst. split; reflexivity.
  - destruct (is_delim delim c) eqn:E.
    + inversion H; subst. split; [reflexivity|]. exists c. split; [exact E|reflexivity].
    + destruct (strsep_scan delim s) as [t r] eqn:Es. inversion H; subst.
      destruct (IH t rest eq_refl) as [F J]. split.
      * cbn [free_of]. rewrite E, F. reflexivity.
      * destruct rest as [r|].
        -- destruct J as [d [Hd J]]. exists d. split; [exact Hd|].
           cbn [append]. rewrite <- J. reflexivity.
        -- rewrite <- J. reflexivity.
Qed.

Lemma is_delim_pipe d : is_delim pipe_delim d = true -> d = "|"%char.
Proof.
  unfold pipe_delim. cbn [is_delim]. rewrite orb_false_r. apply Ascii.eqb_eq.
Qed.

Lemma split_segments_join p : forall segments n segments' n',
  split_segments p segments n = inr (segments', n') ->
  exists more,
    segments' = segments ++ more /\
    Forall (fun segment => segment <> "" /\ free_of pipe_delim segment = true) more /\
    match p with
    | None => more = []
    | Some s => more <> [] /\ String.concat "|" more = s
    end.
Proof.
  remember (ptr_size p) as m eqn:Hm. revert p Hm.
  induction m as [m IH] using lt_wf_ind. intros p Hm segments n segments' n' H.
  destruct p as [s|].
  - rewrite split_segments_eq in H.
    destruct (strsep_scan pipe_delim s) as [segment rest] eqn:E.
    destruct (String.eqb_spec segment "") as [|Hne]; [discriminate|].
    destruct (MAX_PIPE <=? n)%nat; [discriminate|].
    pose proof (strsep_scan_size _ _ _ _ E) as Hsize.
    destruct (strsep_scan_join _ _ _ _ E) as [F J].
    destruct (IH (ptr_size rest) ltac:(lia) rest eq_refl _ _ _ _ H) as [more [M [A R]]].
    exists (segment :: more). split; [rewrite M, <- app_assoc; reflexivity|].
    split; [constructor; auto|]. split; [discriminate|].
    destruct rest as [r|].
    + destruct R as [Rne Rc]. destruct J as [d [Hd J]].
      apply is_delim_pipe in Hd. subst d.
      destruct more as [|seg2 more]; [contradiction|].
      change (String.concat "|" (segment :: seg2 :: more))
        with (segment ++ String "|" (String.concat "|" (seg2 :: more)))%string.
      rewrite Rc. symmetry. exact J.
    + subst more. cbn [String.concat]. symmetry. exact J.
  - simp split_segments in H. inversion H; subst.
    exists []. rewrite app_nil_r. auto.
Qed.

(** X5. When the loop of line 86 accepts a line, joining the segments it
    found with pipes gives the line back; no segment is empty and none
    contains a pipe; and the count is the number of segments. *)
Theorem split_segments_round_trip (line : string) (segments : list string) (n : nat) :
  split_segments (Some line) [] 0 = inr (segments, n) ->
  String.concat "|" segments = line /\
  n = length segments /\ 1 <= n <= MAX_PIPE /\
  Forall (fun segment => segment <> "" /\ free_of pipe_delim segment = true) segments.
Proof.
  intros H.
  destruct (split_segments_join _ _ _ _ _ H) as [more [M [A [_ C]]]].
  destruct (split_segments_ok _ _ _ _ _ H eq_refl) as [N [L [B _]]].
  simpl in M. subst more. simpl in N.
  split; [exact C|]. split; [auto|]. split; [|exact A].
  specialize (B ltac:(discriminate)). lia.
Qed.

Lemma split_segments_round_trip_witness :
  String.concat "|" ["ls -la "; " grep foo "; " wc"] = "ls -la | grep foo | wc".
Proof.
  apply (split_segments_round_trip "ls -la | grep foo | wc"
           ["ls -la "; " grep foo "; " wc"] 3).
  reflexivity.
Defined.

Lemma split_segments_empty_field p : forall segments n,
  match p with
  | None => False
  | Some s => In EmptyString (fields pipe_delim s)
  end ->
  exists e, split_segments p segments n = inl e.
Proof.
  remember (ptr_size p) as m eqn:Hm. revert p Hm.
  induction m as [m IH] using lt_wf_ind. intros p Hm segments n Hin.
  destruct p as [s|]; [|contradiction].
  rewrite split_segments_eq. rewrite fields_strsep in Hin.
  destruct (strsep_scan pipe_delim s) as [segment rest] eqn:E.
  pose proof (strsep_scan_size _ _ _ _ E) as Hsize.
  destruct (String.eqb_spec segment "") as [|Hne]; [eexists; reflexivity|].
  destruct (MAX_PIPE <=? n)%nat; [eexists; reflexivity|].
  apply (IH (ptr_size rest) ltac:(lia) rest eq_refl).
  destruct Hin as [Hin|Hin]; [congruence|].
  destruct rest; [exact Hin|contradiction].
Qed.

(** X6. A line with an empty field between pipes (a pipe at either end,
    or two pipes in a row) is rejected: [parse_command] returns -1 and
    leaves the array and the count alone.  When the line starts with a
    pipe the diagnostic is the one of line 89. *)
Theorem empty_segment_rejected (line : string) (commands : list Command) (num : Z) :
  In EmptyString (fields pipe_delim line) ->
  ret (parse_command (Some line) commands num) = (-1)%Z /\
  commands_out (parse_command (Some line) commands num) = commands /\
  num_commands_out (parse_command (Some line) commands num) = num /\
  (forall rest, line = String "|" rest ->
     stderr_out (parse_command (Some line) commands num) =
     [("shell: syntax error near unexpected token '|'" ++ newline)%string]).
Proof.
  intros Hin.
  destruct (split_segments_empty_field (Some line) [] 0 Hin) as [e He].
  unfold parse_command. rewrite He. cbn.
  split; [reflexivity|split; [reflexivity|split; [reflexivity|]]].
  intros rest Hl. subst line. rewrite split_segments_eq in He. cbn in He.
  inversion He; subst. reflexivity.
Qed.

Lemma empty_segment_rejected_witness :
  ret (parse_command (Some "ls || wc") blank_commands 3) = (-1)%Z /\
  commands_out (parse_command (Some "ls || wc") blank_commands 3) = blank_commands /\
  num_commands_out (parse_command (Some "ls || wc") blank_commands 3) = 3%Z.
Proof.
  destruct (empty_segment_rejected "ls || wc" blank_commands 3) as [A [B [C _]]].
  - vm_compute. auto.
  - auto.
Defined.

(** ** [parse_command]: the array *)

Lemma parse_segments_frame segments : forall i n commands,
  length (snd (parse_segments i n segments commands)) = length commands /\
  forall j, j < i \/ i + length segments <= j ->
    nth j (snd (parse_segments i n segments commands)) empty_command =
    nth j commands empty_command.
Proof.
  induction segments as [|seg segs IH]; intros i n commands; cbn [parse_segments].
  - split; reflexivity.
  - destruct (parse_segment i n seg (nth i commands empty_command)) as [[e|] c].
    + cbn [snd]. split; [apply store_length|].
      intros j Hj. apply nth_store_other. cbn [length] in Hj. lia.
    + destruct (IH (S i) n (store i c commands)) as [L F].
      rewrite store_length in L. split; [exact L|].
      intros j Hj. cbn [length] in Hj. rewrite F by lia.
      apply nth_store_other. lia.
Qed.

(** X7. Whatever the line and whatever the outcome, [parse_command] keeps
    the array at its length and writes to none of the entries from the
    number of segments of the line on. *)
Theorem parse_command_frame (line : string) (commands : list Command) (num : Z) :
  length (commands_out (parse_command (Some line) commands num)) = length commands /\
  forall j, S (count_pipes line) <= j ->
    stage (parse_command (Some line) commands num) j = nth j commands empty_command.
Proof.
  unfold stage, parse_command.
  destruct (split_segments (Some line) [] 0) as [e|[segments n]] eqn:Hs.
  { split; reflexivity. }
  destruct (split_segments_ok _ _ _ _ _ Hs eq_refl) as [Hn [Hl _]]. simpl in Hn.
  destruct (parse_segments_frame segments 0 n commands) as [L F].
  destruct (parse_segments 0 n segments commands) as [[e|] commands'] eqn:Hp;
    cbn [snd] in L, F.
  { cbn. split; [exact L|]. intros j Hj. apply F. lia. }
  destruct (if (1 <? n)%nat then _ else _); cbn;
    (split; [exact L|intros j Hj; apply F; lia]).
Qed.

(** ** [parse_command]: the tokens it keeps *)

Lemma next_operand_kept p : forall file rest,
  next_operand p = (Some file, rest) -> kept_token file.
Proof.
  remember (ptr_size p) as m eqn:Hm. revert p Hm.
  induction m as [m IH] using lt_wf_ind. intros [s|] Hm file rest H.
  - rewrite next_operand_eq in H.
    destruct (strsep_scan blank_delim s) as [token rest'] eqn:E.
    pose proof (strsep_scan_size _ _ _ _ E) as Hsize.
    destruct (strsep_scan_join _ _ _ _ E) as [F _].
    destruct (String.eqb_spec token "") as [|Hne].
    + apply (IH (ptr_size rest') ltac:(lia) rest' eq_refl file rest H).
    + inversion H; subst. split; assumption.
  - simp next_operand in H. discriminate.
Qed.

Lemma is_operator_false t : t <> "<" -> t <> ">" -> t <> "&" -> is_operator t = false.
Proof.
  intros H1 H2 H3. unfold is_operator.
  apply String.eqb_neq in H1, H2, H3. rewrite H1, H2, H3. reflexivity.
Qed.

Lemma step_keeps_clean i n st s :
  tok_inv st -> clean_command (cmd st) ->
  match token_step i n st s with
  | Next st' _ => clean_command (cmd st')
  | Break st' => clean_command (cmd st')
  | Fail _ _ => True
  end.
Proof.
  intros Inv [Ca Ci Co].
  destruct (token_step i n st s) as [st' p'|st'|e st'] eqn:H; [| |exact I].
  - step_cases H.
    + split; assumption.
    + split; cbn [cmd set_input args input_file output_file]; [assumption| |assumption].
      intros f Hf. inversion Hf; subst. eapply next_operand_kept; eauto.
    + split; cbn [cmd set_output args input_file output_file]; [assumption|assumption|].
      intros f Hf. inversion Hf; subst. eapply next_operand_kept; eauto.
    + split; [|assumption|assumption].
      rewrite (push_arg_args st token (inv_index _ Inv)).
      apply Forall_app. split; [assumption|]. constructor; [|constructor].
      match goal with
      | Hs : strsep_scan blank_delim s = (token, _) |- _ =>
          destruct (strsep_scan_join _ _ _ _ Hs) as [F _]
      end.
      split; [split; assumption|apply is_operator_false; assumption].
  - step_cases H. split; assumption.
Qed.

Lemma tokenize_keeps_clean i n st p st' :
  tok_inv st -> clean_command (cmd st) ->
  tokenize i n st p = (None, st') -> clean_command (cmd st').
Proof.
  revert st'.
  apply (tokenize_rect i n (fun st p r => forall st',
           tok_inv st -> clean_command (cmd st) -> r = (None, st') ->
           clean_command (cmd st'))).
  - intros st0 st' _ C H. inversion H; subst; assumption.
  - intros st0 s st1 p1 Hstep IH st' Inv C H.
    pose proof (step_keeps_clean i n st0 s Inv C) as K. rewrite Hstep in K.
    apply (IH st' (step_next_inv _ _ _ _ _ _ Inv Hstep) K H).
  - intros st0 s st1 Hstep st' Inv C H. inversion H; subst.
    pose proof (step_keeps_clean i n st0 s Inv C) as K. rewrite Hstep in K. exact K.
  - intros; discriminate.
Qed.

Lemma init_tok_clean : clean_command (cmd init_tok).
Proof. split; cbn; [constructor|discriminate|discriminate]. Qed.

(** X8. In every stage of an accepted line, each argument is a non-empty
    string without space or tab and is none of ["<"], [">"], ["&"]; the
    input and output file names, where set, are non-empty and without
    space or tab. *)
Theorem parsed_tokens_clean (line : string) (commands : list Command) (num : Z) :
  MAX_PIPE <= length commands ->
  ret (parse_command (Some line) commands num) = 0%Z ->
  forall i, i < S (count_pipes line) ->
    clean_command (stage (parse_command (Some line) commands num) i).
Proof.
  intros Hlen Hret i Hi.
  destruct (parse_command_success _ _ _ Hlen Hret)
    as [segments [n [Hs [Hl [Hn [_ [_ [_ [_ [Hat _]]]]]]]]]].
  destruct (nth_error segments i) as [segment|] eqn:Ei.
  2:{ apply nth_error_None in Ei. lia. }
  destruct (parse_segment_ok _ _ _ _ _ (Hat i segment empty_command Ei))
    as [_ [st [T [Inv [E _]]]]].
  rewrite E. exact (tokenize_keeps_clean i n init_tok _ st init_tok_inv init_tok_clean T).
Qed.

Lemma parsed_tokens_clean_witness :
  clean_command (stage (parse_command (Some "sort  <	in.txt | uniq > out") blank_commands 0) 1).
Proof.
  apply (parsed_tokens_clean "sort  <	in.txt | uniq > out" blank_commands 0 (le_n _)).
  - vm_compute. reflexivity.
  - vm_compute. lia.
Defined.

(** The loop of line 127 on a text without operators: the non-empty
    fields become the arguments, in order. *)
Lemma tokenize_fields i n s : forall st,
  arg_index st = length (args (cmd st)) ->
  Forall (fun t => is_operator t = false) (fields blank_delim s) ->
  arg_index st + length (filter nonempty (fields blank_delim s)) <= MAX_ARGS - 1 ->
  tokenize i n st (Some s) = (None, push_args st (filter nonempty (fields blank_delim s))).
Proof.
  remember (String.length s) as m eqn:Hm. revert s Hm.
  induction m as [m IH] using lt_wf_ind. intros s Hm st Hidx Hops Hroom.
  rewrite tokenize_eq. rewrite fields_strsep in Hops, Hroom |- *.
  destruct (strsep_scan blank_delim s) as [token rest] eqn:E.
  pose proof (strsep_scan_size _ _ _ _ E) as Hsize.
  inversion Hops as [|t l Hop Hrest]; subst.
  cbn [filter] in Hroom |- *. unfold nonempty at 1 in Hroom. unfold nonempty at 1.
  destruct (String.eqb_spec token "") as [->|Hne]; cbn [negb] in Hroom |- *.
  - assert (Hstep : token_step i n st s = Next st rest).
    { unfold token_step. rewrite E. reflexivity. }
    rewrite Hstep. destruct rest as [r|].
    + apply (IH (String.length r)); auto. simpl in Hsize. lia.
    + simp tokenize. reflexivity.
  - unfold is_operator in Hop. apply orb_false_iff in Hop. destruct Hop as [Hop H3].
    apply orb_false_iff in Hop. destruct Hop as [H1 H2].
    apply String.eqb_neq in H1, H2, H3.
    rewrite (token_step_arg i n st s token rest E Hne H1 H2 H3).
    cbn [length] in Hroom.
    destruct (Nat.ltb_spec (arg_index st) (MAX_ARGS - 1)); [|lia].
    assert (Hidx' : arg_index (push_arg st token) = length (args (cmd (push_arg st token)))).
    { cbn. rewrite Hidx, firstn_all, length_app. simpl. lia. }
    cbn [push_args fold_left]. destruct rest as [r|].
    + apply (IH (String.length r)); auto.
      * simpl in Hsize. lia.
      * cbn [arg_index push_arg]. lia.
    + simp tokenize. reflexivity.
Qed.

Lemma parse_segment_plain i n segment old :
  Forall (fun t => is_operator t = false) (fields blank_delim (trim_whitespace segment)) ->
  1 <= length (standalone_tokens segment) <= MAX_ARGS - 1 ->
  parse_segment i n segment old =
  (None, {| args := standalone_tokens segment; input_file := None; output_file := None;
            background := false |}).
Proof.
  intros Hops Hlen. unfold parse_segment, standalone_tokens in *.
  destruct (String.eqb_spec (trim_whitespace segment) "") as [E|_].
  { rewrite E in Hlen. cbn in Hlen. lia. }
  rewrite (tokenize_fields i n _ init_tok eq_refl Hops) by (cbn [arg_index init_tok]; lia).
  destruct (push_args_spec (filter nonempty (fields blank_delim (trim_whitespace segment)))
              init_tok eq_refl) as [A [B [C [D F]]]].
  cbn [init_tok cmd args arg_index input_file output_file background empty_command app Nat.add]
    in A, B, C, D, F.
  destruct (Nat.eqb_spec
    (arg_index (push_args init_tok
       (filter nonempty (fields blank_delim (trim_whitespace segment))))) 0) as [Hz|_].
  { rewrite B in Hz. lia. }
  unfold terminate_args. rewrite A, B, C, D, F, firstn_all. reflexivity.
Qed.



(** ** [redirect_io] *)

Ltac trace_prefix t base :=
  match t with
  | base => constr:(@nil event)
  | ?e :: ?t' => let r := trace_prefix t' base in constr:(e :: r)
  end.

(** X10. When the input file cannot be opened, [redirect_io] reports it
    and returns -1 at once: the output file is not opened, so it is
    neither created nor truncated, whatever the command asks for. *)
Theorem redirect_io_input_first (K : kernel) (c : Command) (p : process) (path : string) :
  input_file c = Some path ->
  (open_reply K (trace p) path O_RDONLY < 0)%Z ->
  redirect_io K c p =
  (Returns (-1)%Z,
   {| cwd := cwd p; errno := errno_reply K (trace p);
      trace := Stderr (path ++ " : File not found" ++ newline)
               :: Open path O_RDONLY (open_reply K (trace p) path O_RDONLY)
               :: trace p |}).
Proof.
  intros Hin Hfail. apply Z.ltb_lt in Hfail.
  unfold redirect_io, redirect_one. rewrite Hin.
  unfold bind, sys_open. rewrite Hfail. cbn. rewrite Hfail. reflexivity.
Qed.

Lemma redirect_io_input_first_witness :
  opened (trace (snd (redirect_io no_file_kernel
    {| args := ["cat"]; input_file := Some "missing.txt"; output_file := Some "out";
       background := false |} sample_process))) = ["missing.txt"].
Proof.
  rewrite (redirect_io_input_first no_file_kernel
             {| args := ["cat"]; input_file := Some "missing.txt"; output_file := Some "out";
                background := false |} sample_process "missing.txt" eq_refl).
  - reflexivity.
  - reflexivity.
Defined.

(** X11. [redirect_io] always comes back, with 0 or -1, and leaves the
    working directory alone.  Every descriptor it got from [open] it has
    passed to [close] by then, also when [dup2] failed.  It returns 0
    exactly when none of its [open] and [dup2] calls failed. *)
Theorem redirect_io_balanced (K : kernel) (c : Command) (p : process) :
  exists v new,
    fst (redirect_io K c p) = Returns v /\ (v = 0%Z \/ v = (-1)%Z) /\
    cwd (snd (redirect_io K c p)) = cwd p /\
    trace (snd (redirect_io K c p)) = new ++ trace p /\
    (forall fd, In fd (opened_fds new) -> In fd (closed_fds new)) /\
    (v = 0%Z <-> redirections_succeeded new = true).
Proof.
  unfold redirect_io, redirect_one, bind, sys_open, sys_dup2, sys_close, print_err,
    get_errno, failed, set_errno, emit, when, pure.
  destruct (input_file c) as [fin|]; destruct (output_file c) as [fout|]; cbn;
    repeat match goal with
           | |- context [if (?x <? 0)%Z then _ else _] =>
               let E := fresh "E" in destruct (x <? 0)%Z eqn:E; cbn
           end;
    eexists;
    match goal with
    | |- exists new, _ /\ _ /\ _ /\ ?t = new ++ ?base /\ _ =>
        let n := trace_prefix t base in exists n
    end;
    cbn;
    repeat match goal with
           | H : (?x <? 0)%Z = _ |- context [(?x <? 0)%Z] => rewrite H; cbn
           end;
    (split; [reflexivity|]);
    (split; [auto|]);
    (split; [reflexivity|]);
    (split; [reflexivity|]);
    (split; [intros fd Hfd; cbn in Hfd |- *; tauto|]);
    split; intros; try reflexivity; try discriminate.
Qed.

(** ** [execute_commands]: the child *)

Lemma yields_sys_open K path flags : yields any (sys_open K path flags).
Proof.
  intros p. unfold sys_open.
  apply (yields_seq _ _ _ (yields_when _ _ (yields_failed K))).
  apply yields_seq; [apply yields_emit|]. apply yields_pure. exact I.
Qed.





(** ** [execute_commands]: the pipeline in the shell process *)

Lemma forked_app t1 t2 : forked (t1 ++ t2) = forked t1 ++ forked t2.
Proof.
  induction t1 as [|e t1 IH]; cbn [app forked]; [reflexivity|].
  destruct e; cbn [forked]; auto. destruct (0 <? result)%Z; cbn; rewrite IH; reflexivity.
Qed.

Lemma waited_app t1 t2 : waited (t1 ++ t2) = waited t1 ++ waited t2.
Proof.
  induction t1 as [|e t1 IH]; cbn [app waited]; [reflexivity|].
  destruct e; cbn [waited]; auto. destruct nohang; cbn; rewrite IH; reflexivity.
Qed.

Lemma printed_app t1 t2 : printed (t1 ++ t2) = printed t1 ++ printed t2.
Proof.
  induction t1 as [|e t1 IH]; cbn [app printed]; [reflexivity|].
  destruct e; cbn [printed]; auto. cbn. rewrite IH. reflexivity.
Qed.

Lemma pipe_calls_app t1 t2 : pipe_calls (t1 ++ t2) = pipe_calls t1 + pipe_calls t2.
Proof.
  induction t1 as [|e t1 IH]; cbn [app pipe_calls]; [reflexivity|].
  destruct e; cbn [pipe_calls]; auto. cbn. rewrite IH. reflexivity.
Qed.

Lemma emits_pure {A : Type} (Q : A -> list event -> Prop) (a : A) :
  Q a [] -> emits Q (pure a).
Proof. intros H p. exists a, p, []. auto. Qed.

Lemma emits_bind {A B : Type} (Q1 : A -> list event -> Prop)
  (Q : B -> list event -> Prop) (m : M A) (k : A -> M B) :
  emits Q1 m ->
  (forall a new1, Q1 a new1 -> emits (fun b new2 => Q b (new2 ++ new1)) (k a)) ->
  emits Q (bind m k).
Proof.
  intros Hm Hk p. destruct (Hm p) as [a [q1 [new1 [E1 [T1 H1]]]]].
  destruct (Hk a new1 H1 q1) as [b [q [new2 [E2 [T2 H2]]]]].
  exists b, q, (new2 ++ new1). unfold bind. rewrite E1, E2.
  split; [reflexivity|split; [|exact H2]].
  rewrite T2, T1, app_assoc. reflexivity.
Qed.

Lemma emits_weaken {A : Type} (Q R : A -> list event -> Prop) (m : M A) :
  (forall a new, Q a new -> R a new) -> emits Q m -> emits R m.
Proof.
  intros H Hm p. destruct (Hm p) as [a [q [new [E [T HQ]]]]].
  exists a, q, new. auto.
Qed.

Lemma emits_emit e : emits (fun _ new => new = [e]) (emit e).
Proof. intros p. exists tt. eexists. exists [e]. split; [reflexivity|]. split; reflexivity. Qed.

Lemma emits_sys_pipe K :
  emits (fun r new => new = [Pipe (fst r) (snd r)] /\
                      (never_fails K -> (0 <= fst r)%Z)) (sys_pipe K).
Proof.
  intros p. unfold sys_pipe, bind, when, failed, set_errno, emit, pure.
  exists (pipe_reply K (trace p)).
  destruct (fst (pipe_reply K (trace p)) <? 0)%Z; cbn; eexists;
    exists [Pipe (fst (pipe_reply K (trace p))) (snd (pipe_reply K (trace p)))];
    (split; [reflexivity|]); (split; [reflexivity|]);
    (split; [reflexivity|]); intros [H _]; apply H.
Qed.

Lemma emits_sys_fork K : in_parent K ->
  emits (fun r new => new = [Fork r] /\ r <> 0%Z /\
                      (never_fails K -> (0 < r)%Z)) (sys_fork K).
Proof.
  intros HK p. unfold sys_fork, bind, when, failed, set_errno, emit, pure.
  exists (fork_reply K (trace p)).
  destruct (fork_reply K (trace p) <? 0)%Z; cbn; eexists;
    exists [Fork (fork_reply K (trace p))];
    (split; [reflexivity|]); (split; [reflexivity|]);
    (split; [reflexivity|]); (split; [apply HK|]); intros [_ H]; apply H.
Qed.

Lemma emits_perror K prefix :
  emits (fun _ new => exists text, new = [Stderr text]) (perror K prefix).
Proof.
  intros p. unfold perror, bind, get_errno, print_err, emit. cbn.
  exists tt. eexists.
  exists [Stderr (prefix ++ ": " ++ strerror K (errno p) ++ newline)%string].
  split; [reflexivity|]. split; [reflexivity|]. eexists. reflexivity.
Qed.

Lemma emits_when_close b fd :
  emits (fun _ new => closes_only new) (when b (sys_close fd)).
Proof.
  destruct b; cbn [when].
  - eapply emits_weaken; [|apply emits_emit].
    intros _ new ->. constructor; [eauto|constructor].
  - apply emits_pure. constructor.
Qed.

Lemma closes_only_measures new :
  closes_only new ->
  forked new = [] /\ waited new = [] /\ printed new = [] /\
  fork_calls new = 0 /\ pipe_calls new = 0.
Proof.
  induction 1 as [|e l [fd ->] _ IH]; [repeat split|]. cbn. exact IH.
Qed.

Lemma spawn_emits K commands n : in_parent K -> forall todo i st,
  emits (fun st' new => spawned K n todo i st st' new) (spawn K commands n todo i st).
Proof.
  intros HK. induction todo as [|todo IH]; intros i st; cbn [spawn].
  - apply emits_pure. split; cbn; try rewrite app_nil_r; try lia; auto.
  - eapply emits_bind with
      (Q1 := fun pr new =>
               (i <? n - 1)%Z = false /\ new = [] /\ (fst pr <? 0)%Z = false \/
               (i <? n - 1)%Z = true /\ new = [Pipe (fst pr) (snd pr)] /\
               (never_fails K -> (0 <= fst pr)%Z)).
    { destruct (i <? n - 1)%Z.
      - eapply emits_weaken; [|apply emits_sys_pipe]. intros pr new [H1 H2]. right. auto.
      - apply emits_pure. left. auto. }
    intros pr new1 Hpipe.
    destruct (fst pr <? 0)%Z eqn:Epr.
    { (* pipe failed *)
      destruct Hpipe as [[_ [_ F]]|[Ep [-> Hok]]]; [discriminate|].
      eapply emits_bind; [apply emits_perror|].
      intros _ new2 [text ->]. apply emits_pure. cbn.
      split; cbn; try rewrite app_nil_r; try lia; auto.
      intros Hnf. specialize (Hok Hnf). apply Z.ltb_lt in Epr. lia. }
    eapply emits_bind; [apply (emits_sys_fork K HK)|].
    intros pid new2 [-> [Hpid Hfork]].
    destruct (pid <? 0)%Z eqn:Eneg.
    { (* fork failed *)
      eapply emits_bind; [apply emits_perror|].
      intros _ new3 [text ->].
      eapply emits_bind with (Q1 := fun _ new => closes_only new).
      { destruct (i <? n - 1)%Z; cbn [when].
        - eapply emits_bind; [apply emits_emit|]. intros _ new4 ->.
          eapply emits_weaken; [|apply emits_emit]. intros _ new5 ->.
          repeat constructor; eauto.
        - apply emits_pure. constructor. }
      intros u4 new4 Hc. cbn beta in Hc. apply emits_pure.
      destruct (closes_only_measures new4 Hc) as [C1 [C2 [C3 [C4 C5]]]].
      assert (Hz : (0 <? pid)%Z = false) by (apply Z.ltb_ge; apply Z.ltb_lt in Eneg; lia).
      destruct Hpipe as [[Ep [-> _]]|[Ep [-> Hok]]];
        (split;
         [ rewrite !forked_app, C1; cbn; rewrite Hz; cbn; rewrite ?app_nil_r; reflexivity
         | rewrite !forked_app, C1; cbn; rewrite Hz; cbn; lia
         | rewrite !waited_app, C2; reflexivity
         | rewrite !printed_app, C3; reflexivity
         | rewrite !fork_calls_app, C4; cbn; lia
         | rewrite !pipe_calls_app, C5; cbn; lia
         | intros Hnf; specialize (Hfork Hnf); apply Z.ltb_lt in Eneg; lia ]). }
    destruct (Z.eqb_spec pid 0) as [|_]; [contradiction|].
    assert (Hpos : (0 <? pid)%Z = true) by (apply Z.ltb_lt; apply Z.ltb_ge in Eneg; lia).
    eapply emits_bind; [apply emits_when_close|]. intros u3 new3 Hc3. cbn beta in Hc3.
    eapply emits_bind; [apply emits_when_close|]. intros u4 new4 Hc4. cbn beta in Hc4.
    eapply emits_weaken; [|apply IH].
    intros st' new5 [S1 S2 S3 S4 S5 S6 S7].
    destruct (closes_only_measures new3 Hc3) as [C1 [C2 [C3 [C4 C5]]]].
    destruct (closes_only_measures new4 Hc4) as [D1 [D2 [D3 [D4 D5]]]].
    cbn [pids launched] in S1, S2.
    destruct Hpipe as [[Ep [-> _]]|[Ep [-> Hok]]];
      (split;
       [ rewrite !forked_app, C1, D1; cbn; rewrite Hpos; cbn;
         rewrite ?app_nil_r, S1, ?rev_app_distr; cbn; rewrite <- ?app_assoc; reflexivity
       | rewrite !forked_app, C1, D1; cbn; rewrite Hpos; cbn;
         rewrite ?app_nil_r, S2, ?length_app; cbn; lia
       | rewrite !waited_app, C2, D2, S3; reflexivity
       | rewrite !printed_app, C3, D3, S4; reflexivity
       | rewrite !fork_calls_app, C4, D4; cbn; lia
       | rewrite !pipe_calls_app, C5, D5; cbn; lia
       | intros Hnf; destruct (S7 Hnf) as [A1 [A2 A3]];
         rewrite !fork_calls_app, !forked_app, !pipe_calls_app, C1, C4, C5, D1, D4, D5;
         cbn; rewrite ?Hpos; cbn; rewrite ?app_nil_r, ?length_app; cbn;
         (apply Z.ltb_lt in Ep || apply Z.ltb_ge in Ep); lia ]).
Qed.

Lemma wait_all_emits pids :
  emits (fun _ new => waited new = rev pids /\ forked new = [] /\ printed new = [] /\
                      fork_calls new = 0 /\ pipe_calls new = 0) (wait_all pids).
Proof.
  induction pids as [|pid pids IH]; cbn [wait_all].
  - apply emits_pure. repeat split.
  - eapply emits_bind; [apply emits_emit|]. intros u new1 ->.
    eapply emits_weaken; [|apply IH].
    intros u' new2 [W [F [P [C D]]]].
    rewrite waited_app, forked_app, printed_app, fork_calls_app, pipe_calls_app.
    rewrite W, F, P, C, D. cbn. repeat split.
Qed.

Lemma external_runs K commands n p :
  external commands n ->
  execute_commands K commands n p = run_pipeline K commands n p.
Proof.
  intros [[Hn _] Hname]. apply execute_external; [assumption|].
  unfold builtin. destruct (Z.eqb_spec n 1) as [E|]; [|reflexivity].
  destruct (Hname E) as [name [Hp [Hx Hc]]]. unfold program in Hp.
  destruct (args (nth 0 commands empty_command)) as [|a l]; [discriminate|].
  inversion Hp; subst a. apply String.eqb_neq in Hx, Hc. rewrite Hx, Hc. reflexivity.
Qed.

(** What [run_pipeline] adds to the trace, in the shell process. *)
Lemma run_pipeline_emits K commands n : in_parent K ->
  emits (fun v new =>
           v = 1%Z /\
           fork_calls new <= Z.to_nat n /\ pipe_calls new <= Z.to_nat n /\
           (never_fails K ->
            fork_calls new = Z.to_nat n /\ length (forked new) = Z.to_nat n /\
            Z.of_nat (pipe_calls new) = Z.min (Z.of_nat (Z.to_nat n)) (Z.max 0 (n - 1 - 0))) /\
           (background (last_stage commands n) = false ->
            waited new = forked new /\ printed new = []) /\
           (background (last_stage commands n) = true ->
            waited new = [] /\
            forall pid older, forked new = pid :: older ->
              printed new = [("[" ++ fmt_int pid ++ "]" ++ newline)%string]))
        (run_pipeline K commands n).
Proof.
  intros HK. unfold run_pipeline, last_stage.
  eapply emits_bind; [apply (spawn_emits K commands n HK)|].
  intros st new1 [S1 S2 S3 S4 S5 S6 S7]. cbn [pids launched app] in S1, S2.
  eapply emits_bind; [apply emits_when_close|]. intros u2 new2 Hc2. cbn beta in Hc2.
  destruct (closes_only_measures new2 Hc2) as [C1 [C2 [C3 [C4 C5]]]].
  destruct (background (nth (Z.to_nat (n - 1)) commands empty_command)).
  - eapply emits_bind; [apply emits_emit|]. intros u3 new3 ->.
    apply emits_pure. cbn [app fork_calls pipe_calls forked waited printed].
    split; [reflexivity|].
    rewrite ?fork_calls_app, ?pipe_calls_app, ?forked_app, ?waited_app, ?printed_app.
    rewrite C1, C2, C3, C4, C5, S3, S4. cbn [app Nat.add length].
    split; [lia|split; [lia|split; [exact S7|split; [discriminate|]]]].
    intros _. split; [reflexivity|].
    intros pid older Hf. f_equal. f_equal. f_equal.
    unfold last_pid. rewrite S2, S1, Hf. cbn [length Nat.add rev].
    rewrite app_nth2 by (rewrite length_rev; lia).
    rewrite length_rev, Nat.sub_diag. reflexivity.
  - rewrite S1, S2. cbn [Nat.add]. rewrite <- (length_rev (forked new1)), firstn_all.
    eapply emits_bind; [apply wait_all_emits|].
    intros u3 new3 [W [F [P [C D]]]]. apply emits_pure. cbn [app].
    split; [reflexivity|].
    rewrite ?fork_calls_app, ?pipe_calls_app, ?forked_app, ?waited_app, ?printed_app.
    rewrite C1, C2, C3, C4, C5, S3, S4, W, F, P, C, D, rev_involutive.
    cbn [app Nat.add length]. rewrite ?app_nil_r.
    split; [lia|split; [lia|split; [exact S7|split; [auto|discriminate]]]].
Qed.

(** X13. In the shell process, a foreground pipeline of external commands
    is waited for in full: when [execute_commands] returns (with 1), the
    children it waited for with a blocking [waitpid] are exactly the
    children [fork] created, in the order of their creation, also when a
    [pipe] or a [fork] failed on the way; nothing was written to standard
    output. *)
Theorem foreground_waits_for_all (K : kernel) (commands : list Command) (n : Z)
  (p : process) :
  in_parent K -> external commands n ->
  background (last_stage commands n) = false ->
  exists q new,
    execute_commands K commands n p = (Returns 1%Z, q) /\
    trace q = new ++ trace p /\
    waited new = forked new /\ printed new = [].
Proof.
  intros HK He Hbg. rewrite (external_runs K commands n p He).
  destruct (run_pipeline_emits K commands n HK p) as [v [q [new [E [T [-> [_ [_ [_ [F _]]]]]]]]]].
  exists q, new. destruct (F Hbg). auto.
Qed.

Lemma foreground_waits_for_all_witness :
  exists q new,
    execute_commands sample_kernel (ls_wc false) 2 sample_process = (Returns 1%Z, q) /\
    trace q = new ++ trace sample_process /\
    waited new = forked new /\ printed new = [].
Proof.
  apply (foreground_waits_for_all sample_kernel (ls_wc false) 2 sample_process).
  - intros t. unfold sample_kernel, fork_reply. lia.
  - split; [unfold MAX_PIPE; cbn; lia|]. intros H; discriminate.
  - reflexivity.
Defined.

(** X14. In the shell process, a background pipeline of external commands
    is not waited for: [execute_commands] returns 1 without a blocking
    [waitpid], and when at least one child was created it has written to
    standard output the line with the process id of the last one. *)
Theorem background_does_not_wait (K : kernel) (commands : list Command) (n : Z)
  (p : process) :
  in_parent K -> external commands n ->
  background (last_stage commands n) = true ->
  exists q new,
    execute_commands K commands n p = (Returns 1%Z, q) /\
    trace q = new ++ trace p /\
    waited new = [] /\
    forall pid older, forked new = pid :: older ->
      printed new = [("[" ++ fmt_int pid ++ "]" ++ newline)%string].
Proof.
  intros HK He Hbg. rewrite (external_runs K commands n p He).
  destruct (run_pipeline_emits K commands n HK p) as [v [q [new [E [T [-> [_ [_ [_ [_ B]]]]]]]]]].
  exists q, new. destruct (B Hbg). auto.
Qed.

Lemma background_does_not_wait_witness :
  exists q new,
    execute_commands sample_kernel (ls_wc true) 2 sample_process = (Returns 1%Z, q) /\
    trace q = new ++ trace sample_process /\
    waited new = [] /\
    forall pid older, forked new = pid :: older ->
      printed new = [("[" ++ fmt_int pid ++ "]" ++ newline)%string].
Proof.
  apply (background_does_not_wait sample_kernel (ls_wc true) 2 sample_process).
  - intros t. unfold sample_kernel, fork_reply. lia.
  - split; [unfold MAX_PIPE; cbn; lia|]. intros H; discriminate.
  - reflexivity.
Defined.

(** X15. In the shell process, a pipeline of [n] external commands calls
    [fork] at most [n] times and [pipe] at most [n] times; when neither
    call fails it creates exactly [n] children and [n - 1] pipes. *)
Theorem pipeline_forks_and_pipes (K : kernel) (commands : list Command) (n : Z)
  (p : process) :
  in_parent K -> external commands n ->
  exists q new,
    execute_commands K commands n p = (Returns 1%Z, q) /\
    trace q = new ++ trace p /\
    (Z.of_nat (fork_calls new) <= n)%Z /\ (Z.of_nat (pipe_calls new) <= n)%Z /\
    (never_fails K ->
     Z.of_nat (fork_calls new) = n /\ Z.of_nat (length (forked new)) = n /\
     Z.of_nat (pipe_calls new) = (n - 1)%Z).
Proof.
  intros HK He. rewrite (external_runs K commands n p He).
  destruct He as [[Hn _] _].
  destruct (run_pipeline_emits K commands n HK p) as [v [q [new [E [T [-> [F [P [A _]]]]]]]]].
  exists q, new. split; [exact E|split; [exact T|]].
  split; [lia|split; [lia|]]. intros Hnf. destruct (A Hnf) as [A1 [A2 A3]]. lia.
Qed.

Lemma pipeline_forks_and_pipes_witness :
  exists q new,
    execute_commands sample_kernel (ls_wc false) 2 sample_process = (Returns 1%Z, q) /\
    trace q = new ++ trace sample_process /\
    (Z.of_nat (fork_calls new) <= 2)%Z /\ (Z.of_nat (pipe_calls new) <= 2)%Z /\
    (never_fails sample_kernel ->
     Z.of_nat (fork_calls new) = 2%Z /\ Z.of_nat (length (forked new)) = 2%Z /\
     Z.of_nat (pipe_calls new) = (2 - 1)%Z).
Proof.
  apply (pipeline_forks_and_pipes sample_kernel (ls_wc false) 2 sample_process).
  - intros t. unfold sample_kernel, fork_reply. lia.
  - split; [unfold MAX_PIPE; cbn; lia|]. intros H; discriminate.
Defined.

(** ** The loop of [main] *)

Lemma chomp_app_newline s : chomp (s ++ newline) = s.
Proof.
  induction s as [|c s IH]; [reflexivity|].
  cbn [append]. destruct s as [|d s]; [reflexivity|].
  cbn [append chomp] in IH |- *. rewrite IH. reflexivity.
Qed.

Lemma chomp_split s : chomp s = s \/ s = (chomp s ++ newline)%string.
Proof.
  induction s as [|c s IH]; [left; reflexivity|].
  destruct s as [|d s].
  - cbn [chomp]. destruct (Ascii.eqb_spec c "010"%char) as [->|_];
      [right; reflexivity|left; reflexivity].
  - change (chomp (String c (String d s))) with (String c (chomp (String d s))).
    destruct IH as [IH|IH].
    + left. rewrite IH. reflexivity.
    + right. cbn [append]. rewrite <- IH. reflexivity.
Qed.

(** X16. Lines 406-408 undo the newline [getline] leaves at the end of a
    line: a line followed by a newline gives the line back, and what is
    dropped from any text is nothing or one final newline. *)
Theorem chomp_drops_one_newline (s : string) :
  chomp (s ++ newline) = s /\ (chomp s = s \/ s = (chomp s ++ newline)%string).
Proof. split; [apply chomp_app_newline|apply chomp_split]. Qed.

Lemma trim_whitespace_only_spaces str :
  only_spaces_from str = true -> trim_whitespace str = "".
Proof.
  intros H. apply skip_leading_blank in H. unfold trim_whitespace. rewrite H. reflexivity.
Qed.

(** X17. A line of whitespace only is skipped: apart from the prompt,
    the loop of [main] goes on with the next line as if the line had not
    been there, the array and the status untouched. *)
Theorem blank_line_skipped (K : kernel) (input_line : string) (stdin : list string)
  (v : shell_vars) (p : process) :
  only_spaces_from (chomp input_line) = true ->
  main_loop K (input_line :: stdin) v p = main_loop K stdin v (after (prompt K) p).
Proof.
  intros H. apply trim_whitespace_only_spaces in H.
  cbn [main_loop]. unfold bind at 1.
  rewrite (main_iteration_blank K input_line v p H). reflexivity.
Qed.

Lemma blank_line_skipped_witness :
  main_loop sample_kernel [(" " ++ newline)%string; "exit"] sample_vars sample_process =
  main_loop sample_kernel ["exit"] sample_vars (after (prompt sample_kernel) sample_process).
Proof.
  apply (blank_line_skipped sample_kernel (" " ++ newline)%string ["exit"]).
  reflexivity.
Defined.







Lemma fields_operator_free s :
  Forall (fun t => is_operator t = false) (filter nonempty (fields blank_delim s)) ->
  Forall (fun t => is_operator t = false) (fields blank_delim s).
Proof.
  intros H. rewrite Forall_forall in *. intros t Ht.
  destruct t as [|c t']; [reflexivity|].
  apply H. apply filter_In. split; [exact Ht|reflexivity].
Qed.

(** X19. A line whose first token is [exit], without pipe, redirection or
    background operator, ends the shell: whatever follows [exit] on the
    line is ignored, nothing but the prompt is written, the lines left on
    standard input are not read, and [main] returns 0. *)
Theorem exit_stops_reading (K : kernel) (input_line : string) (operands : list string)
  (stdin : list string) (v : shell_vars) (p : process) :
  0 < length (sh_commands v) ->
  no_pipe (trim_whitespace (chomp input_line)) = true ->
  standalone_tokens (chomp input_line) = "exit" :: operands ->
  Forall (fun t => is_operator t = false) operands ->
  length operands <= MAX_ARGS - 2 ->
  main_loop K (input_line :: stdin) v p = (Returns 0%Z, after (prompt K) p).
Proof.
  intros Hlen Hpipe Htok Hops Hmax.
  set (trimmed := trim_whitespace (chomp input_line)) in *.
  assert (Htok' : standalone_tokens trimmed = "exit" :: operands).
  { unfold standalone_tokens, trimmed. rewrite trim_whitespace_again. exact Htok. }
  assert (Hne : trimmed <> "").
  { intros E. unfold standalone_tokens in Htok. fold trimmed in Htok.
    rewrite E in Htok. discriminate. }
  assert (Hseg : parse_segment 0 1 trimmed (nth 0 (sh_commands v) empty_command) =
                 (None, {| args := "exit" :: operands; input_file := None;
                           output_file := None; background := false |})).
  { rewrite <- Htok'. apply parse_segment_plain.
    - apply fields_operator_free. fold (standalone_tokens trimmed). rewrite Htok'.
      constructor; [reflexivity|exact Hops].
    - rewrite Htok'. cbn [length]. unfold MAX_ARGS in *. lia. }
  cbn [main_loop]. unfold bind at 1. unfold main_iteration. unfold bind at 1.
  rewrite when_prompt. fold trimmed.
  destruct (String.eqb_spec trimmed ""); [contradiction|].
  rewrite (parse_command_single trimmed _ _ Hlen Hne Hpipe), Hseg.
  cbn [stderr_out ret commands_out num_commands_out print_all_err Z.eqb negb].
  unfold bind, pure. rewrite execute_exit.
  - reflexivity.
  - destruct (sh_commands v) as [|c0 cs]; [cbn in Hlen; lia|]. reflexivity.
Qed.

Lemma exit_stops_reading_witness :
  main_loop sample_kernel [("  exit now 3 " ++ newline)%string; "ls"; "cd /"]
    sample_vars sample_process =
  (Returns 0%Z, after (prompt sample_kernel) sample_process).
Proof.
  apply (exit_stops_reading sample_kernel _ ["now"; "3"]).
  - vm_compute. lia.
  - reflexivity.
  - reflexivity.
  - repeat constructor.
  - vm_compute. lia.
Defined.

(** ** The descriptors of a pipeline *)

Lemma closed_fds_app t1 t2 : closed_fds (t1 ++ t2) = closed_fds t1 ++ closed_fds t2.
Proof.
  induction t1 as [|e t1 IH]; [reflexivity|].
  destruct e; cbn [app closed_fds]; rewrite ?IH; reflexivity.
Qed.

Lemma pipe_ends_app t1 t2 : pipe_ends (t1 ++ t2) = pipe_ends t1 ++ pipe_ends t2.
Proof.
  induction t1 as [|e t1 IH]; [reflexivity|].
  destruct e; cbn [app pipe_ends]; rewrite ?IH; try reflexivity.
  destruct (result <? 0)%Z; reflexivity.
Qed.

Lemma pipes_closed_incl t : forall later1 later2,
  incl later1 later2 -> pipes_closed later1 t -> pipes_closed later2 t.
Proof.
  induction t as [|e t IH]; intros later1 later2 Hi H; [exact I|].
  destruct e; cbn [pipes_closed] in *; try (apply (IH later1); assumption).
  - destruct H as [H1 H2]. split; [|apply (IH later1); assumption].
    intros Hr. destruct (H1 Hr) as [A B]. split; apply Hi; assumption.
  - apply (IH (fd :: later1)); [|assumption].
    intros x [->|Hx]; [left; reflexivity|right; apply Hi; exact Hx].
Qed.

Lemma pipes_closed_app t1 t2 : forall later,
  pipes_closed later t1 -> pipes_closed (closed_fds t1 ++ later) t2 ->
  pipes_closed later (t1 ++ t2).
Proof.
  induction t1 as [|e t1 IH]; intros later H1 H2; [exact H2|].
  destruct e; cbn [app pipes_closed closed_fds] in *; try (apply IH; assumption).
  - destruct H1 as [A B]. split; [exact A|apply IH; assumption].
  - apply IH; [assumption|]. eapply pipes_closed_incl; [|exact H2].
    intros x Hx. cbn [In] in Hx. apply in_app_iff. destruct Hx as [->|Hx].
    + right. left. reflexivity.
    + apply in_app_iff in Hx. destruct Hx as [Hx|Hx]; [left; exact Hx|right; right; exact Hx].
Qed.

Lemma pipes_closed_split later : forall acc t r pipefd earlier,
  pipes_closed acc t -> t = later ++ Pipe r pipefd :: earlier -> (0 <= r)%Z ->
  In (fst pipefd) (closed_fds later ++ acc) /\ In (snd pipefd) (closed_fds later ++ acc).
Proof.
  induction later as [|e later IH]; intros acc t r pipefd earlier H -> Hr.
  - cbn [app pipes_closed closed_fds] in *. destruct H as [H _]. exact (H Hr).
  - assert (Hin : forall fd x, In x (closed_fds later ++ fd :: acc) ->
                               In x (fd :: closed_fds later ++ acc)).
    { intros fd x Hx. apply in_app_iff in Hx. cbn [In].
      destruct Hx as [Hx|[->|Hx]]; [right; apply in_app_iff; left; exact Hx
                                   |left; reflexivity
                                   |right; apply in_app_iff; right; exact Hx]. }
    destruct e; cbn [app pipes_closed closed_fds] in *;
      try (apply (IH acc _ r pipefd earlier H eq_refl Hr)).
    + destruct H as [_ H]. apply (IH acc _ r pipefd earlier H eq_refl Hr).
    + destruct (IH (fd :: acc) _ r pipefd earlier H eq_refl Hr) as [A B].
      split; apply Hin; assumption.
Qed.

Lemma emits_sys_pipe_fds K : pipe_descriptors K ->
  emits (fun r new => new = [Pipe (fst r) (snd r)] /\
                      ((0 <= fst r)%Z -> (0 <= fst (snd r))%Z) /\
                      (never_fails K -> (0 <= fst r)%Z)) (sys_pipe K).
Proof.
  intros HD p. unfold sys_pipe, bind, when, failed, set_errno, emit, pure.
  exists (pipe_reply K (trace p)).
  destruct (fst (pipe_reply K (trace p)) <? 0)%Z; cbn; eexists;
    exists [Pipe (fst (pipe_reply K (trace p))) (snd (pipe_reply K (trace p)))];
    (split; [reflexivity|]); (split; [reflexivity|]);
    (split; [reflexivity|]);
    (split; [intros H; apply (HD _ H)|intros [H _]; apply H]).
Qed.

Lemma emits_when_close_eq (b : bool) (fd : Z) :
  emits (fun (_ : unit) (new : list event) => new = if b then [Close fd] else [])
        (when b (sys_close fd)).
Proof.
  destruct b; cbn [when]; [apply emits_emit|apply emits_pure; reflexivity].
Qed.

Lemma spawn_descriptors K commands n : in_parent K -> pipe_descriptors K ->
  forall todo i st,
  emits (fun st' new => spawn_fds K n todo i st st' new) (spawn K commands n todo i st).
Proof.
  intros HK HD. induction todo as [|todo IH]; intros i st; cbn [spawn].
  - apply emits_pure. split.
    + intros _. split; reflexivity.
    + intros later _. exact I.
    + right; left; reflexivity.
    + intros _ _ H. lia.
  - eapply emits_bind with
      (Q1 := fun pr new =>
               (i <? n - 1)%Z = false /\ new = [] /\ (fst pr <? 0)%Z = false \/
               (i <? n - 1)%Z = true /\ new = [Pipe (fst pr) (snd pr)] /\
               ((0 <= fst pr)%Z -> (0 <= fst (snd pr))%Z) /\
               (never_fails K -> (0 <= fst pr)%Z)).
    { destruct (i <? n - 1)%Z.
      - eapply emits_weaken; [|apply (emits_sys_pipe_fds K HD)].
        intros pr new [H1 [H2 H3]]. right. auto.
      - apply emits_pure. left. auto. }
    intros pr new1 Hpipe.
    destruct (fst pr <? 0)%Z eqn:Epr.
    { (* pipe failed *)
      destruct Hpipe as [[_ [_ F]]|[Ep [-> [Hfd Hok]]]]; [discriminate|].
      eapply emits_bind; [apply emits_perror|].
      intros _ new2 [text ->]. apply emits_pure. apply Z.ltb_lt in Epr.
      split.
      - discriminate.
      - intros later _. cbn [app pipes_closed]. split; [intros Hr; lia|exact I].
      - right; left; reflexivity.
      - intros Hnf. specialize (Hok Hnf). lia. }
    apply Z.ltb_ge in Epr.
    eapply emits_bind; [apply (emits_sys_fork K HK)|].
    intros pid new2 [-> [Hpid Hfork]].
    destruct (pid <? 0)%Z eqn:Eneg.
    { (* fork failed *)
      apply Z.ltb_lt in Eneg.
      eapply emits_bind; [apply emits_perror|].
      intros _ new3 [text ->].
      destruct Hpipe as [[Ep [-> _]]|[Ep [-> [Hfd Hok]]]]; rewrite Ep; cbn [when].
      - eapply emits_bind with (Q1 := fun _ new => new = []);
          [apply emits_pure; reflexivity|]. intros _ new4 ->.
        apply emits_pure. split.
        + discriminate.
        + intros later _. exact I.
        + right; left; reflexivity.
        + intros Hnf. specialize (Hfork Hnf). lia.
      - eapply emits_bind with (Q1 := fun _ new => new = [Close (snd (snd pr));
                                                          Close (fst (snd pr))]).
        { eapply emits_bind; [apply emits_emit|]. intros _ new4 ->.
          eapply emits_weaken; [|apply emits_emit]. intros _ new5 ->. reflexivity. }
        intros _ new4 ->. apply emits_pure. split.
        + discriminate.
        + intros later _. cbn [app pipes_closed]. split; [|exact I].
          intros _. cbn [In]. auto.
        + right; left; reflexivity.
        + intros Hnf. specialize (Hfork Hnf). lia. }
    apply Z.ltb_ge in Eneg.
    destruct (Z.eqb_spec pid 0) as [|_]; [contradiction|].
    eapply emits_bind; [apply emits_when_close_eq|]. intros u3 new3 ->.
    eapply emits_bind; [apply emits_when_close_eq|]. intros u4 new4 ->.
    eapply emits_weaken; [|apply IH].
    intros st' new5 [F0 F1 F2 F3]. cbn [prev_fd] in F0, F1, F2, F3.
    destruct Hpipe as [[Ep [-> _]]|[Ep [-> [Hfd Hok]]]]; rewrite Ep in *;
      rewrite <- ?app_assoc; cbn [app] in *.
    + (* the last stage *)
      apply Z.ltb_ge in Ep. split.
      * discriminate.
      * intros later Hpend. apply pipes_closed_app; [apply F1; exact Hpend|].
        destruct (prev_fd st =? -1)%Z; exact I.
      * destruct (Z.eqb_spec (prev_fd st) (-1)) as [E|E]; [left; exact E|].
        right; right. rewrite closed_fds_app. apply in_app_iff. right.
        cbn. left. reflexivity.
      * intros Hnf Hsum _ Hone.
        assert (Hz : todo = 0) by lia.
        destruct (F0 Hz) as [-> ->]. cbn [prev_fd app].
        specialize (Hone ltac:(lia)).
        destruct (Z.eqb_spec (prev_fd st) (-1)) as [E|_]; [contradiction|].
        cbn [negb app closed_fds pipe_ends].
        split; [exact Hone|]. split; [exists []; reflexivity|]. left. auto.
    + (* a stage with a pipe after it *)
      apply Z.ltb_lt in Ep. specialize (Hfd Epr). split.
      * discriminate.
      * intros later Hpend. apply pipes_closed_app; [apply F1; exact Hpend|].
        assert (Ha : In (fst (snd pr)) (closed_fds new5 ++ later)).
        { apply in_app_iff. destruct F2 as [E|[E|E]]; [lia| |left; exact E].
          rewrite E in Hpend. destruct Hpend as [Hp|Hp]; [lia|right; exact Hp]. }
        destruct (prev_fd st =? -1)%Z; cbn [negb app pipes_closed];
          (split; [|exact I]); intros _; cbn [In]; auto.
      * destruct (Z.eqb_spec (prev_fd st) (-1)) as [E|E]; [left; exact E|].
        right; right. rewrite closed_fds_app. apply in_app_iff. right.
        cbn. right. left. reflexivity.
      * intros Hnf Hsum _ _.
        destruct (F3 Hnf ltac:(lia) ltac:(lia) ltac:(intros _; lia))
          as [P1 [[rest P2] P3]].
        split; [exact P1|]. split.
        { rewrite closed_fds_app, P2. eexists. reflexivity. }
        right. rewrite pipe_ends_app.
        assert (Hr : (fst pr <? 0)%Z = false) by (apply Z.ltb_ge; exact Epr).
        assert (Hp : pipe_ends ((if negb (prev_fd st =? -1)%Z
                                 then [Close (prev_fd st)] else []) ++
                                [Fork pid; Pipe (fst pr) (snd pr)]) = [snd pr]).
        { destruct (prev_fd st =? -1)%Z; cbn; rewrite Hr; reflexivity. }
        cbn [pipe_ends app]. rewrite Hp.
        destruct P3 as [[E1 E2]|[b [older E]]].
        { rewrite E1, E2. exists (snd (snd pr)), []. destruct (snd pr); reflexivity. }
        rewrite E. exists b. eexists. reflexivity.
Qed.

Lemma wait_all_descriptors pids :
  emits (fun _ new => closed_fds new = [] /\ pipe_ends new = [] /\
                      forall later, pipes_closed later new) (wait_all pids).
Proof.
  induction pids as [|pid pids IH]; cbn [wait_all].
  - apply emits_pure. repeat split.
  - eapply emits_bind; [apply emits_emit|]. intros u new1 ->.
    eapply emits_weaken; [|apply IH].
    intros u' new2 [C [P L]]. rewrite closed_fds_app, pipe_ends_app, C, P.
    split; [reflexivity|]. split; [reflexivity|].
    intros later. apply pipes_closed_app; [apply L|exact I].
Qed.

(** What [run_pipeline] does with the descriptors of its pipes, in the
    shell process. *)
Lemma run_pipeline_descriptors K commands n : in_parent K -> pipe_descriptors K ->
  emits (fun v new =>
           v = 1%Z /\ pipes_closed [] new /\
           (never_fails K -> (2 <= n)%Z ->
            exists a b older rest,
              pipe_ends new = (a, b) :: older /\ closed_fds new = a :: a :: rest))
        (run_pipeline K commands n).
Proof.
  intros HK HD. unfold run_pipeline.
  eapply emits_bind; [apply (spawn_descriptors K commands n HK HD)|].
  intros st new1 [_ F1 _ F3]. cbn [prev_fd] in F3.
  eapply emits_bind; [apply emits_when_close_eq|]. intros u2 new2 ->.
  eapply emits_bind with
    (Q1 := fun _ new => closed_fds new = [] /\ pipe_ends new = [] /\
                        forall later, pipes_closed later new).
  { destruct (background _).
    - eapply emits_weaken; [|apply emits_emit]. intros _ new ->.
      split; [reflexivity|]. split; [reflexivity|]. intros later. exact I.
    - apply wait_all_descriptors. }
  intros u3 new3 [C [P L]]. apply emits_pure. cbn [app]. rewrite <- ?app_assoc.
  split; [reflexivity|]. split.
  - apply pipes_closed_app; [apply L|]. rewrite C. cbn [app].
    destruct (Z.eqb_spec (prev_fd st) (-1)) as [E|E]; cbn [negb app pipes_closed].
    + apply F1. left. exact E.
    + apply F1. right. left. reflexivity.
  - intros Hnf Hn.
    destruct (F3 Hnf ltac:(lia) ltac:(lia) ltac:(lia)) as [P1 [[rest P2] P3]].
    destruct (Z.eqb_spec (prev_fd st) (-1)) as [E|_]; [contradiction|].
    cbn [negb]. rewrite closed_fds_app, pipe_ends_app, C, P. cbn [app closed_fds pipe_ends].
    destruct P3 as [[_ E]|[b [older E]]]; [contradiction|].
    exists (prev_fd st), b, older, rest. rewrite E, P2. auto.
Qed.

(** X20. In the shell process a pipeline leaves no descriptor of its pipes
    open: both ends of every pipe that [pipe] created are passed to [close]
    after it was created and before [execute_commands] returns, also when a
    later [pipe] or [fork] fails. *)
Theorem pipeline_closes_its_pipes (K : kernel) (commands : list Command) (n : Z)
  (p : process) :
  in_parent K -> pipe_descriptors K -> external commands n ->
  exists q new,
    execute_commands K commands n p = (Returns 1%Z, q) /\
    trace q = new ++ trace p /\
    forall later r pipefd earlier,
      new = later ++ Pipe r pipefd :: earlier -> (0 <= r)%Z ->
      In (fst pipefd) (closed_fds later) /\ In (snd pipefd) (closed_fds later).
Proof.
  intros HK HD Hext. rewrite (external_runs K commands n p Hext).
  destruct (run_pipeline_descriptors K commands n HK HD p)
    as [v [q [new [E [T [-> [H _]]]]]]].
  exists q, new. split; [exact E|]. split; [exact T|].
  intros later r pipefd earlier Hnew Hr.
  destruct (pipes_closed_split later [] new r pipefd earlier H Hnew Hr) as [A B].
  rewrite app_nil_r in A, B. auto.
Qed.

Lemma pipeline_closes_its_pipes_witness :
  exists q new,
    execute_commands sample_kernel (ls_wc false) 2 sample_process = (Returns 1%Z, q) /\
    trace q = new ++ trace sample_process /\
    forall later r pipefd earlier,
      new = later ++ Pipe r pipefd :: earlier -> (0 <= r)%Z ->
      In (fst pipefd) (closed_fds later) /\ In (snd pipefd) (closed_fds later).
Proof.
  apply (pipeline_closes_its_pipes sample_kernel (ls_wc false) 2 sample_process).
  - intros t. unfold sample_kernel, fork_reply. lia.
  - intros t _. unfold sample_kernel, pipe_reply. cbn [fst snd]. lia.
  - split; [unfold MAX_PIPE; cbn; lia|]. intros H; discriminate.
Defined.

(** X21. When no [pipe] and no [fork] fails, a pipeline of two stages or
    more closes the read end of its last pipe twice in the shell process:
    once at line 349, after the last [fork], and once more at line 359,
    after the loop.  These are the last two calls to [close]. *)
Theorem last_read_end_closed_twice (K : kernel) (commands : list Command) (n : Z)
  (p : process) :
  never_fails K -> pipe_descriptors K -> (2 <= n <= Z.of_nat MAX_PIPE)%Z ->
  exists q new a b older rest,
    execute_commands K commands n p = (Returns 1%Z, q) /\
    trace q = new ++ trace p /\
    pipe_ends new = (a, b) :: older /\
    closed_fds new = a :: a :: rest.
Proof.
  intros Hnf HD Hn.
  assert (HK : in_parent K).
  { intros t. destruct Hnf as [_ H]. specialize (H t). lia. }
  assert (Hext : external commands n).
  { split; [lia|]. intros E. lia. }
  rewrite (external_runs K commands n p Hext).
  destruct (run_pipeline_descriptors K commands n HK HD p)
    as [v [q [new [E [T [-> [_ H]]]]]]].
  destruct (H Hnf ltac:(lia)) as [a [b [older [rest [P C]]]]].
  exists q, new, a, b, older, rest. auto.
Qed.

Lemma last_read_end_closed_twice_witness :
  exists q new a b older rest,
    execute_commands sample_kernel (ls_wc false) 2 sample_process = (Returns 1%Z, q) /\
    trace q = new ++ trace sample_process /\
    pipe_ends new = (a, b) :: older /\
    closed_fds new = a :: a :: rest.
Proof.
  apply (last_read_end_closed_twice sample_kernel (ls_wc false) 2 sample_process).
  - split; intros t; unfold sample_kernel, pipe_reply, fork_reply; cbn [fst]; lia.
  - intros t _. unfold sample_kernel, pipe_reply. cbn [fst snd]. lia.
  - unfold MAX_PIPE. lia.
Defined.
